(** * LinkedIn connection sync: matcher, merger and webhook controller

    A shallow embedding of the outreach-sync core of the CRM service

      - [src/modules/webhooks/services/contact-matcher.service.ts]
        (ContactMatcherService and, in the same file, ContactMergerService),
      - [src/modules/webhooks/controllers/outreach-sync.controller.ts],
      - the zod schema of [outreach-sync.dto.ts],
      - [src/modules/auth/auth.service.ts], the schemas of
        [tenant-login.dto.ts] and the two handlers of the auth controller,

    followed by the properties the specification states about them and by
    further properties of the same code.

    Conventions of the embedding.
      - A JavaScript string is a [string]; each [ascii] is one code unit in
        the range 0..255 (Latin-1).  Code units above 255 are outside the
        model.
      - [undefined] and [null] are kept apart: an optional payload field is
        an [option] ([None] = undefined), a nullable column is an [option]
        ([None] = null), and untyped values ([any], JSON columns, object
        literals) are [JsVal].
      - Code that awaits the database runs in the monad [M]: explicit
        passing of a [World] (the tables, the clock, the schedule of storage
        failures, the trace of storage calls) with exceptions. *)

From Stdlib Require Import Bool Arith ZArith List Ascii String Lia.
From Stdlib Require Import DecimalString.
Import ListNotations.

Open Scope list_scope.
Open Scope string_scope.

Set Implicit Arguments.
Set Warnings "-register-all".

(* ===================================================================== *)
(** * JavaScript strings *)
(* ===================================================================== *)

Module JsString.

Definition code (c : ascii) : nat := nat_of_ascii c.

Definition in_range (lo hi : nat) (c : ascii) : bool :=
  ((lo <=? code c) && (code c <=? hi))%nat.

(** Code units that [String.prototype.toLowerCase] changes, within
    Latin-1: A-Z, and U+00C0..U+00DE except the multiplication sign. *)
Definition is_upper (c : ascii) : bool :=
  in_range 65 90 c || in_range 192 214 c || in_range 216 222 c.

Definition lower_char (c : ascii) : ascii :=
  if is_upper c then ascii_of_nat (code c + 32) else c.

Fixpoint toLowerCase (s : string) : string :=
  match s with
  | EmptyString => EmptyString
  | String c r => String (lower_char c) (toLowerCase r)
  end.

(** No code unit of [s] is an upper-case letter. *)
Fixpoint no_upper (s : string) : bool :=
  match s with
  | EmptyString => true
  | String c r => negb (is_upper c) && no_upper r
  end.

(** The whitespace of [\s] and of [trim]: TAB, LF, VT, FF, CR, space and
    the no-break space. *)
Definition is_ws (c : ascii) : bool :=
  in_range 9 13 c || (code c =? 32)%nat || (code c =? 160)%nat.

Fixpoint trimStart (s : string) : string :=
  match s with
  | EmptyString => EmptyString
  | String c r => if is_ws c then trimStart r else s
  end.

Fixpoint rev_onto (s acc : string) : string :=
  match s with
  | EmptyString => acc
  | String c r => rev_onto r (String c acc)
  end.

Definition rev (s : string) : string := rev_onto s EmptyString.

Definition trim (s : string) : string := rev (trimStart (rev (trimStart s))).

(** [s.split(/\s+/)]: the pieces between maximal runs of whitespace; a
    leading or trailing run leaves an empty piece, and the empty string
    splits into one empty piece.  [in_ws] tells that the previous code
    unit was whitespace. *)
Fixpoint split_ws_from (in_ws : bool) (s : string) : list string :=
  match s with
  | EmptyString => [EmptyString]
  | String c r =>
      if is_ws c then
        if in_ws then split_ws_from true r
        else EmptyString :: split_ws_from true r
      else
        match split_ws_from false r with
        | piece :: rest => String c piece :: rest
        | [] => [String c EmptyString]
        end
  end.

Definition split_ws (s : string) : list string := split_ws_from false s.

(** [parts.join(sep)] *)
Fixpoint join (sep : string) (parts : list string) : string :=
  match parts with
  | [] => EmptyString
  | [p] => p
  | p :: rest => p ++ sep ++ join sep rest
  end.

(** Truthiness of a string: only the empty string is falsy. *)
Definition truthy (s : string) : bool :=
  match s with EmptyString => false | _ => true end.

(** Truthiness of an optional or nullable string. *)
Definition truthy_opt (o : option string) : bool :=
  match o with Some s => truthy s | None => false end.

(** Decimal rendering of a number, as in a template literal or an array
    index used as a property key. *)
Definition of_nat (n : nat) : string := NilEmpty.string_of_uint (Nat.to_uint n).

End JsString.

(* ===================================================================== *)
(** * The regular expressions of the URL normalizers *)
(* ===================================================================== *)

(** Every pattern of the source has the shape [/<literal>([^/?#]+)/i]: a
    literal matched without regard to the case of ASCII letters, then a
    greedy non-empty run of code units other than [/], [?] and [#]. *)
Module Regex.

Definition is_delim (c : ascii) : bool :=
  (JsString.code c =? 47)%nat || (JsString.code c =? 63)%nat || (JsString.code c =? 35)%nat.

(** Case folding of the [i] flag.  Within Latin-1 only the ASCII letters
    fold onto the ASCII letters of the literals. *)
Definition fold_case (c : ascii) : ascii :=
  if JsString.in_range 65 90 c then ascii_of_nat (JsString.code c + 32) else c.

(** The greedy run [[^/?#]*] at the head of [s]. *)
Fixpoint segment (s : string) : string :=
  match s with
  | EmptyString => EmptyString
  | String c r => if is_delim c then EmptyString else String c (segment r)
  end.

(** [s] starts with [lit], up to case: what follows the literal. *)
Fixpoint after_literal (lit s : string) : option string :=
  match lit, s with
  | EmptyString, _ => Some s
  | String _ _, EmptyString => None
  | String a lit', String c s' =>
      if Ascii.eqb (fold_case a) (fold_case c) then after_literal lit' s' else None
  end.

(** The match at the head of [s], if any: capture group 1. *)
Definition match_here (lit s : string) : option string :=
  match after_literal lit s with
  | Some rest =>
      match segment rest with
      | EmptyString => None
      | seg => Some seg
      end
  | None => None
  end.

(** [s.match(/lit([^/?#]+)/i)]: the leftmost match, as capture group 1. *)
Fixpoint match_group (lit s : string) : option string :=
  match match_here lit s with
  | Some seg => Some seg
  | None =>
      match s with
      | EmptyString => None
      | String _ r => match_group lit r
      end
  end.

(** A string that capture group 1 can hold: non-empty, no delimiter. *)
Fixpoint no_delim (s : string) : bool :=
  match s with
  | EmptyString => true
  | String c r => negb (is_delim c) && no_delim r
  end.

Definition is_segment (s : string) : bool := JsString.truthy s && no_delim s.

End Regex.

(* ===================================================================== *)
(** * JavaScript values *)
(* ===================================================================== *)

(** Untyped values: what [any], [Record<string, any>] and a JSON column
    hold.  An object is the list of its own properties in insertion order.
    Numbers are the integers. *)
Inductive JsVal : Type :=
| JUndefined
| JNull
| JBool (b : bool)
| JNum (n : Z)
| JStr (s : string)
| JArr (items : list JsVal)
| JObj (props : list (string * JsVal)).

Module Js.

Definition Obj : Type := list (string * JsVal).

Definition truthy (v : JsVal) : bool :=
  match v with
  | JUndefined | JNull => false
  | JBool b => b
  | JNum n => negb (n =? 0)%Z
  | JStr s => JsString.truthy s
  | JArr _ | JObj _ => true
  end.

(** [a || b] *)
Definition or (a b : JsVal) : JsVal := if truthy a then a else b.

(** An optional field read as a value: [undefined] when absent. *)
Definition of_optional (o : option string) : JsVal :=
  match o with Some s => JStr s | None => JUndefined end.

(** A nullable column read as a value: [null] when empty. *)
Definition of_nullable (o : option string) : JsVal :=
  match o with Some s => JStr s | None => JNull end.

Definition of_strings (l : list string) : JsVal := JArr (map JStr l).

(** [o[k]] on the property list: [undefined] when [k] is no own property. *)
Fixpoint get (o : Obj) (k : string) : JsVal :=
  match o with
  | [] => JUndefined
  | (k', v) :: r => if String.eqb k' k then v else get r k
  end.

Fixpoint has (o : Obj) (k : string) : bool :=
  match o with
  | [] => false
  | (k', _) :: r => String.eqb k' k || has r k
  end.

(** [o[k] = v]: an own property keeps its place, a new one goes last. *)
Fixpoint set (o : Obj) (k : string) (v : JsVal) : Obj :=
  match o with
  | [] => [(k, v)]
  | (k', v') :: r =>
      if String.eqb k' k then (k', v) :: r else (k', v') :: set r k v
  end.

(** [{ ...o, k1: v1, ..., kn: vn }] *)
Definition literal (o : Obj) (kvs : list (string * JsVal)) : Obj :=
  fold_left (fun acc kv => set acc (fst kv) (snd kv)) kvs o.

(** [v.k], for a key that is neither an index nor [length]. *)
Definition prop (v : JsVal) (k : string) : JsVal :=
  match v with
  | JObj o => get o k
  | _ => JUndefined
  end.

Fixpoint indexed (i : nat) (l : list JsVal) : Obj :=
  match l with
  | [] => []
  | v :: r => (JsString.of_nat i, v) :: indexed (S i) r
  end.

Fixpoint chars (s : string) : list JsVal :=
  match s with
  | EmptyString => []
  | String c r => JStr (String c EmptyString) :: chars r
  end.

(** The own enumerable properties that [{...v}] copies. *)
Definition spread (v : JsVal) : Obj :=
  match v with
  | JObj o => o
  | JArr l => indexed 0 l
  | JStr s => indexed 0 (chars s)
  | _ => []
  end.

(** What a value becomes when it is written to a JSON column and read
    back ([JSON.stringify] then parse): a property whose value is
    [undefined] is dropped, an [undefined] array item becomes [null]. *)
Fixpoint to_json (v : JsVal) : JsVal :=
  match v with
  | JArr l =>
      JArr (map (fun x => match x with JUndefined => JNull | _ => to_json x end) l)
  | JObj o =>
      JObj ((fix props (o : list (string * JsVal)) : list (string * JsVal) :=
               match o with
               | [] => []
               | (k, x) :: r =>
                   match x with
                   | JUndefined => props r
                   | _ => (k, to_json x) :: props r
                   end
               end) o)
  | _ => v
  end.

Definition json_props (o : Obj) : Obj :=
  match to_json (JObj o) with JObj o' => o' | _ => [] end.

Definition Z_to_string (n : Z) : string := NilZero.string_of_int (Z.to_int n).

(** PostgreSQL's [jsonb ->> key] on the value found under the key: the
    text of a string, boolean or number, and SQL NULL ([None]) for JSON
    null or a missing key.  The text of an array or object value is not
    rendered by the model: such a value compares equal to no string. *)
Definition json_text (v : JsVal) : option string :=
  match v with
  | JStr s => Some s
  | JBool true => Some "true"
  | JBool false => Some "false"
  | JNum n => Some (Z_to_string n)
  | _ => None
  end.

End Js.

(* ===================================================================== *)
(** * Numbers read from values *)
(* ===================================================================== *)

(** What a typed array does with a value it is given as an element:
    [ToNumber], then [ToUint8].  Numerals are read exactly; the rounding
    of a numeral to the nearest double is outside the model, as it is for
    the numbers themselves. *)
Module JsNumber.

(** A number as far as [ToUint8] tells numbers apart: the integer part of
    a finite number, or [NotFinite] for NaN and the two infinities. *)
Inductive Num : Type :=
| Int (n : Z)
| NotFinite.

(** The value of [c] as a digit below [base], for a base up to 16. *)
Definition digit (base : Z) (c : ascii) : option Z :=
  let n := Z.of_nat (JsString.code c) in
  let d :=
    if JsString.in_range 48 57 c then (n - 48)%Z
    else if JsString.in_range 97 102 c then (n - 87)%Z
    else if JsString.in_range 65 70 c then (n - 55)%Z
    else base in
  if (d <? base)%Z then Some d else None.

(** Digits of [base], most significant first, continuing [acc]: [None]
    when another code unit occurs. *)
Fixpoint digits (base : Z) (s : string) (acc : Z) : option Z :=
  match s with
  | EmptyString => Some acc
  | String c r =>
      match digit base c with
      | Some d => digits base r (acc * base + d)%Z
      | None => None
      end
  end.

(** A non-empty run of digits and nothing else. *)
Definition numeral (base : Z) (s : string) : option Z :=
  match s with
  | EmptyString => None
  | _ => digits base s 0%Z
  end.

(** The decimal digits [s] starts with: their value continuing [acc],
    how many they are after [count], and what follows them. *)
Fixpoint leading_digits (s : string) (acc : Z) (count : nat) : Z * nat * string :=
  match s with
  | EmptyString => (acc, count, s)
  | String c r =>
      match digit 10 c with
      | Some d => leading_digits r (acc * 10 + d)%Z (S count)
      | None => (acc, count, s)
      end
  end.

(** An optional sign: whether it is a minus, and what follows it. *)
Definition sign (s : string) : bool * string :=
  match s with
  | String c r =>
      if Ascii.eqb c "+" then (false, r)
      else if Ascii.eqb c "-" then (true, r)
      else (false, s)
  | EmptyString => (false, s)
  end.

(** What follows the mantissa: nothing, or [e] or [E], an optional sign
    and digits. *)
Definition exponent (s : string) : option Z :=
  match s with
  | EmptyString => Some 0%Z
  | String c r =>
      if Ascii.eqb c "e" || Ascii.eqb c "E"
      then
        let (minus, ds) := sign r in
        match numeral 10 ds with
        | Some e => Some (if minus then (- e)%Z else e)
        | None => None
        end
      else None
  end.

(** The integer part of [m * 10 ^ k], for [m] not negative. *)
Definition scale (m k : Z) : Z :=
  if (0 <=? k)%Z then (m * 10 ^ k)%Z else Z.quot m (10 ^ (- k)).

(** [StrUnsignedDecimalLiteral]: [Infinity], or digits with an optional
    fraction and exponent, at least one digit before or after the dot. *)
Definition unsigned_decimal (s : string) : Num :=
  if String.eqb s "Infinity" then NotFinite
  else
    let '(i, ni, r1) := leading_digits s 0%Z 0 in
    let '(m, nf, r2) :=
      match r1 with
      | String c r => if Ascii.eqb c "." then leading_digits r i 0 else (i, 0, r1)
      | EmptyString => (i, 0, r1)
      end in
    if (ni + nf =? 0)%nat then NotFinite
    else
      match exponent r2 with
      | Some e => Int (scale m (e - Z.of_nat nf))
      | None => NotFinite
      end.

(** The base a prefix [0x], [0o] or [0b] announces, in either case. *)
Definition radix (c : ascii) : option Z :=
  if Ascii.eqb c "x" || Ascii.eqb c "X" then Some 16%Z
  else if Ascii.eqb c "o" || Ascii.eqb c "O" then Some 8%Z
  else if Ascii.eqb c "b" || Ascii.eqb c "B" then Some 2%Z
  else None.

(** [StringToNumber(s)]: blanks around the numeral are dropped, the empty
    string is 0, a prefixed numeral takes no sign, and everything that is
    no numeral is NaN. *)
Definition StringToNumber (s : string) : Num :=
  let t := JsString.trim s in
  match t with
  | EmptyString => Int 0
  | String c r =>
      let prefixed :=
        if Ascii.eqb c "0"
        then match r with
             | String p ds =>
                 match radix p with
                 | Some base => Some (numeral base ds)
                 | None => None
                 end
             | EmptyString => None
             end
        else None in
      match prefixed with
      | Some (Some n) => Int n
      | Some None => NotFinite
      | None =>
          let (minus, u) := sign t in
          match unsigned_decimal u with
          | Int n => Int (if minus then (- n)%Z else n)
          | NotFinite => NotFinite
          end
      end
  end.

(** [ToString(v)] returns: it throws a [TypeError] for an object whose
    own property [toString], a JSON value and so no function, hides the
    method, and for an array that holds such an object. *)
Fixpoint stringifies (v : JsVal) : bool :=
  match v with
  | JObj o => negb (Js.has o "toString")
  | JArr l => forallb stringifies l
  | _ => true
  end.

(** [ToNumber(v)]: [None] when it throws.  An object is read through its
    [toString] ([[object Object]], which is NaN), an array through its
    [join]: the empty array is 0, an array of one item is that item read
    as a string, and a longer one, whose text has a comma, is NaN. *)
Fixpoint ToNumber (v : JsVal) : option Num :=
  match v with
  | JUndefined => Some NotFinite
  | JNull => Some (Int 0)
  | JBool b => Some (Int (if b then 1 else 0))
  | JNum n => Some (Int n)
  | JStr s => Some (StringToNumber s)
  | JObj o => if Js.has o "toString" then None else Some NotFinite
  | JArr l =>
      match l with
      | [] => Some (Int 0)
      | [x] =>
          match x with
          | JUndefined | JNull => Some (Int 0)
          | JBool _ => Some NotFinite
          | _ => ToNumber x
          end
      | _ => if forallb stringifies l then Some NotFinite else None
      end
  end.

(** [ToUint8(n)] *)
Definition ToUint8 (n : Num) : Z :=
  match n with
  | Int n => (n mod 256)%Z
  | NotFinite => 0%Z
  end.

End JsNumber.

(* ===================================================================== *)
(** * The data model *)
(* ===================================================================== *)

(** A contact's primary key.  The database issues it (a UUID, never the
    empty string); the model keeps it abstract as a number, so that an
    [option ContactId] is truthy exactly when it is present. *)
Definition ContactId : Type := nat.

(** [ConnectionAcceptedPayload['connection']] of outreach-sync.dto.ts: the
    inbound identity record.  [None] is an absent ([undefined]) field;
    [work_experience] and [education] are [z.any().optional()]. *)
Module Connection.
Record t : Type := mk {
  id : string;
  urn_id : string;
  public_id : option string;
  name : string;
  first_name : option string;
  last_name : option string;
  headline : option string;
  profile_url : string;
  profile_pic_url : option string;
  company : option string;
  job_title : option string;
  location : option string;
  industry : option string;
  email : option string;
  phone : option string;
  connected_on : string;
  skills : option (list string);
  languages : option (list string);
  work_experience : JsVal;
  education : JsVal
}.
End Connection.

(** A row of [crm.contacts].  The Prisma schema is not among the sources:
    the columns are those the two services read and write, together with
    the user-managed columns the specification names (lead status, owner,
    priority).  [None] is SQL NULL. *)
Module Contact.
Record t : Type := mk {
  id : ContactId;
  organizationId : string;
  firstName : string;
  lastName : string;
  email : option string;
  phone : option string;
  jobTitle : option string;
  linkedinUrl : option string;
  profileImageUrl : option string;
  isLead : bool;
  leadSource : option string;
  leadStatus : option string;
  ownerId : option string;
  priority : option string;
  customFields : JsVal
}.

(** The integration identifier as the URN lookup reads it:
    [custom_fields->>'linkedinUrnId']. *)
Definition stored_urn (c : t) : option string :=
  Js.json_text (Js.prop (customFields c) "linkedinUrnId").

Definition set_organizationId (x : string) (c : t) : t :=
  mk (id c) x (firstName c) (lastName c) (email c) (phone c) (jobTitle c)
     (linkedinUrl c) (profileImageUrl c) (isLead c) (leadSource c)
     (leadStatus c) (ownerId c) (priority c) (customFields c).
Definition set_firstName (x : string) (c : t) : t :=
  mk (id c) (organizationId c) x (lastName c) (email c) (phone c) (jobTitle c)
     (linkedinUrl c) (profileImageUrl c) (isLead c) (leadSource c)
     (leadStatus c) (ownerId c) (priority c) (customFields c).
Definition set_lastName (x : string) (c : t) : t :=
  mk (id c) (organizationId c) (firstName c) x (email c) (phone c) (jobTitle c)
     (linkedinUrl c) (profileImageUrl c) (isLead c) (leadSource c)
     (leadStatus c) (ownerId c) (priority c) (customFields c).
Definition set_email (x : option string) (c : t) : t :=
  mk (id c) (organizationId c) (firstName c) (lastName c) x (phone c) (jobTitle c)
     (linkedinUrl c) (profileImageUrl c) (isLead c) (leadSource c)
     (leadStatus c) (ownerId c) (priority c) (customFields c).
Definition set_phone (x : option string) (c : t) : t :=
  mk (id c) (organizationId c) (firstName c) (lastName c) (email c) x (jobTitle c)
     (linkedinUrl c) (profileImageUrl c) (isLead c) (leadSource c)
     (leadStatus c) (ownerId c) (priority c) (customFields c).
Definition set_jobTitle (x : option string) (c : t) : t :=
  mk (id c) (organizationId c) (firstName c) (lastName c) (email c) (phone c) x
     (linkedinUrl c) (profileImageUrl c) (isLead c) (leadSource c)
     (leadStatus c) (ownerId c) (priority c) (customFields c).
Definition set_linkedinUrl (x : option string) (c : t) : t :=
  mk (id c) (organizationId c) (firstName c) (lastName c) (email c) (phone c)
     (jobTitle c) x (profileImageUrl c) (isLead c) (leadSource c)
     (leadStatus c) (ownerId c) (priority c) (customFields c).
Definition set_profileImageUrl (x : option string) (c : t) : t :=
  mk (id c) (organizationId c) (firstName c) (lastName c) (email c) (phone c)
     (jobTitle c) (linkedinUrl c) x (isLead c) (leadSource c)
     (leadStatus c) (ownerId c) (priority c) (customFields c).
Definition set_isLead (x : bool) (c : t) : t :=
  mk (id c) (organizationId c) (firstName c) (lastName c) (email c) (phone c)
     (jobTitle c) (linkedinUrl c) (profileImageUrl c) x (leadSource c)
     (leadStatus c) (ownerId c) (priority c) (customFields c).
Definition set_leadSource (x : option string) (c : t) : t :=
  mk (id c) (organizationId c) (firstName c) (lastName c) (email c) (phone c)
     (jobTitle c) (linkedinUrl c) (profileImageUrl c) (isLead c) x
     (leadStatus c) (ownerId c) (priority c) (customFields c).
Definition set_leadStatus (x : option string) (c : t) : t :=
  mk (id c) (organizationId c) (firstName c) (lastName c) (email c) (phone c)
     (jobTitle c) (linkedinUrl c) (profileImageUrl c) (isLead c) (leadSource c)
     x (ownerId c) (priority c) (customFields c).
Definition set_ownerId (x : option string) (c : t) : t :=
  mk (id c) (organizationId c) (firstName c) (lastName c) (email c) (phone c)
     (jobTitle c) (linkedinUrl c) (profileImageUrl c) (isLead c) (leadSource c)
     (leadStatus c) x (priority c) (customFields c).
Definition set_priority (x : option string) (c : t) : t :=
  mk (id c) (organizationId c) (firstName c) (lastName c) (email c) (phone c)
     (jobTitle c) (linkedinUrl c) (profileImageUrl c) (isLead c) (leadSource c)
     (leadStatus c) (ownerId c) x (customFields c).
Definition set_customFields (x : JsVal) (c : t) : t :=
  mk (id c) (organizationId c) (firstName c) (lastName c) (email c) (phone c)
     (jobTitle c) (linkedinUrl c) (profileImageUrl c) (isLead c) (leadSource c)
     (leadStatus c) (ownerId c) (priority c) x.
End Contact.

(** A row of the activities table, as [createSyncActivity] writes it. *)
Module Activity.
Record t : Type := mk {
  organizationId : string;
  contactId : ContactId;
  type : string;
  title : string;
  description : string;
  customFields : JsVal
}.
End Activity.

Inductive MatchType : Type := URN_ID | LINKEDIN_URL | EMAIL | NEW.

(** [MatchResult['existing_data']]: the snapshot of the matched contact. *)
Module Existing.
Record t : Type := mk {
  id : ContactId;
  firstName : string;
  lastName : string;
  email : option string;
  linkedinUrl : option string;
  customFields : JsVal
}.

Definition of_contact (c : Contact.t) : t :=
  mk (Contact.id c) (Contact.firstName c) (Contact.lastName c)
     (Contact.email c) (Contact.linkedinUrl c) (Contact.customFields c).
End Existing.

Module MatchResult.
Record t : Type := mk {
  found : bool;
  contact_id : option ContactId;
  match_type : option MatchType;
  existing_data : option Existing.t
}.
End MatchResult.

Inductive Action : Type := created | updated | skipped.

(** [SyncResultDto]: the outcome of one pipeline run. *)
Module SyncResult.
Record t : Type := mk {
  success : bool;
  action : Action;
  contact_id : option ContactId;
  match_type : option MatchType;
  message : option string;
  error : option string
}.
End SyncResult.

(* ===================================================================== *)
(** * The world: tables, clock, storage failures *)
(* ===================================================================== *)

(** What a [throw] carries.  [JsError] is an [Error] instance (what the
    storage client throws), the two HTTP exceptions are [Error]s too, and
    [ThrownValue] is a thrown value that is no [Error]. *)
Inductive Exn : Type :=
| JsError (message : string)
| BadRequestException (message : string)
| UnauthorizedException (message : string)
| ThrownValue (v : JsVal).

(** [error instanceof Error ? error.message : fallback] *)
Definition error_message (e : Exn) (fallback : string) : string :=
  match e with
  | JsError m | BadRequestException m | UnauthorizedException m => m
  | ThrownValue _ => fallback
  end.

(** The calls the services make to the storage client. *)
Inductive StorageCall : Type :=
| QueryContactsByUrn (organizationId urnId : string)
| FindFirstByLinkedinUrl (organizationId : string) (variations : list string)
| FindFirstByEmail (organizationId email : string)
| FindUniqueContact (id : ContactId)
| CreateContact
| UpdateContact (id : ContactId)
| CreateActivity.

(** [faults] schedules the storage failures: the n-th storage call from now
    rejects with [e] when the n-th entry is [Some e], and succeeds when it
    is [None] or the list is exhausted.  [trace] records every storage call
    with the failure it met.  [clock] is what [new Date().toISOString()]
    returns at each reading, [ticks] counts the readings.
    [unique_urn_guard] tells whether the storage layer enforces that no two
    contacts of one organization hold the same integration identifier; the
    schema is not among the sources, so both settings are covered. *)
Record World : Type := mkWorld {
  contacts : list Contact.t;
  activities : list Activity.t;
  faults : list (option Exn);
  clock : nat -> string;
  ticks : nat;
  trace : list (StorageCall * option Exn);
  unique_urn_guard : bool
}.

Definition set_contacts (cs : list Contact.t) (w : World) : World :=
  mkWorld cs (activities w) (faults w) (clock w) (ticks w) (trace w)
          (unique_urn_guard w).
Definition set_activities (acts : list Activity.t) (w : World) : World :=
  mkWorld (contacts w) acts (faults w) (clock w) (ticks w) (trace w)
          (unique_urn_guard w).
Definition set_ticks (n : nat) (w : World) : World :=
  mkWorld (contacts w) (activities w) (faults w) (clock w) n (trace w)
          (unique_urn_guard w).
Definition set_faults (fs : list (option Exn)) (w : World) : World :=
  mkWorld (contacts w) (activities w) fs (clock w) (ticks w) (trace w)
          (unique_urn_guard w).
Definition log_call (call : StorageCall) (w : World) : World :=
  mkWorld (contacts w) (activities w) (tl (faults w)) (clock w) (ticks w)
          (trace w ++ [(call, hd None (faults w))])%list (unique_urn_guard w).

(** ** The monad of asynchronous code: state and exceptions *)

Inductive Res (A : Type) : Type :=
| Ok (a : A)
| Throw (e : Exn).
Arguments Ok {A} a.
Arguments Throw {A} e.

Definition M (A : Type) : Type := World -> Res A * World.

Definition ret {A} (a : A) : M A := fun w => (Ok a, w).

Definition throw {A} (e : Exn) : M A := fun w => (Throw e, w).

Definition bind {A B} (m : M A) (k : A -> M B) : M B :=
  fun w =>
    match m w with
    | (Ok a, w') => k a w'
    | (Throw e, w') => (Throw e, w')
    end.

(** [try { m } catch (error) { handler error }] *)
Definition try_catch {A} (m : M A) (handler : Exn -> M A) : M A :=
  fun w =>
    match m w with
    | (Ok a, w') => (Ok a, w')
    | (Throw e, w') => handler e w'
    end.

Definition get_world : M World := fun w => (Ok w, w).
Definition modify (f : World -> World) : M unit := fun w => (Ok tt, f w).

Notation "x <- c1 ;; c2" := (bind c1 (fun x => c2))
  (at level 61, c1 at next level, right associativity).
Notation "c1 ;; c2" := (bind c1 (fun _ => c2))
  (at level 61, right associativity).

(** [new Date().toISOString()] *)
Definition now_iso : M string :=
  fun w => (Ok (clock w (ticks w)), set_ticks (S (ticks w)) w).

(** One round trip to the storage layer: recorded in the trace, and
    rejected when the schedule says so. *)
Definition storage (call : StorageCall) : M unit :=
  fun w =>
    match hd None (faults w) with
    | Some e => (Throw e, log_call call w)
    | None => (Ok tt, log_call call w)
    end.

(* ===================================================================== *)
(** * The storage client (Prisma) *)
(* ===================================================================== *)

(** The data of [prisma.contact.create]: the keys of the object literal in
    [createContact]. *)
Module ContactCreateInput.
Record t : Type := mk {
  organizationId : string;
  firstName : string;
  lastName : string;
  email : option string;
  phone : option string;
  jobTitle : option string;
  linkedinUrl : option string;
  profileImageUrl : option string;
  isLead : bool;
  leadSource : option string;
  leadStatus : option string;
  customFields : JsVal
}.
End ContactCreateInput.

(** The storage client is a library, not code of the repository: each
    operation is modelled by what the services rely on.  A query without
    ORDER BY returns the rows in the order of the [contacts] list. *)
Module Prisma.

Definition urn_is (urn : string) (c : Contact.t) : bool :=
  match Contact.stored_urn c with
  | Some u => String.eqb u urn
  | None => false
  end.

Definition in_org (org : string) (c : Contact.t) : bool :=
  String.eqb (Contact.organizationId c) org.

Definition url_in (variations : list string) (c : Contact.t) : bool :=
  match Contact.linkedinUrl c with
  | Some u => existsb (String.eqb u) variations
  | None => false
  end.

Definition email_is (e : string) (c : Contact.t) : bool :=
  match Contact.email c with
  | Some e' => String.eqb e' e
  | None => false
  end.

(** [SELECT ... FROM crm.contacts WHERE organization_id = org
     AND custom_fields->>'linkedinUrnId' = urn LIMIT 1] *)
Definition queryRaw_contacts_by_urn (org urn : string) : M (list Contact.t) :=
  storage (QueryContactsByUrn org urn) ;;
  w <- get_world ;;
  ret (firstn 1 (filter (fun c => in_org org c && urn_is urn c) (contacts w))).

(** [contact.findFirst({ where: { organizationId, linkedinUrl: { in } } })] *)
Definition contact_findFirst_by_url (org : string) (variations : list string)
  : M (option Contact.t) :=
  storage (FindFirstByLinkedinUrl org variations) ;;
  w <- get_world ;;
  ret (find (fun c => in_org org c && url_in variations c) (contacts w)).

(** [contact.findFirst({ where: { organizationId, email } })] *)
Definition contact_findFirst_by_email (org e : string) : M (option Contact.t) :=
  storage (FindFirstByEmail org e) ;;
  w <- get_world ;;
  ret (find (fun c => in_org org c && email_is e c) (contacts w)).

Definition has_id (id : ContactId) (c : Contact.t) : bool :=
  Nat.eqb (Contact.id c) id.

(** [contact.findUnique({ where: { id } })] *)
Definition contact_findUnique (id : ContactId) : M (option Contact.t) :=
  storage (FindUniqueContact id) ;;
  w <- get_world ;;
  ret (find (has_id id) (contacts w)).

Definition next_id (cs : list Contact.t) : ContactId :=
  S (fold_right Nat.max 0 (map Contact.id cs)).

(** Another contact of the organization already holds the identifier. *)
Definition urn_taken (org : string) (urn : option string) (self : option ContactId)
    (cs : list Contact.t) : bool :=
  match urn with
  | None => false
  | Some u =>
      existsb (fun c => in_org org c && urn_is u c &&
                        match self with
                        | Some id => negb (has_id id c)
                        | None => true
                        end) cs
  end.

Definition unique_violation : Exn :=
  JsError "Unique constraint failed on the fields: (`linkedinUrnId`)".

Definition new_row (id : ContactId) (d : ContactCreateInput.t) : Contact.t :=
  Contact.mk id
    (ContactCreateInput.organizationId d)
    (ContactCreateInput.firstName d)
    (ContactCreateInput.lastName d)
    (ContactCreateInput.email d)
    (ContactCreateInput.phone d)
    (ContactCreateInput.jobTitle d)
    (ContactCreateInput.linkedinUrl d)
    (ContactCreateInput.profileImageUrl d)
    (ContactCreateInput.isLead d)
    (ContactCreateInput.leadSource d)
    (ContactCreateInput.leadStatus d)
    None None
    (Js.to_json (ContactCreateInput.customFields d)).

(** [contact.create({ data, select: { id: true } })] *)
Definition contact_create (d : ContactCreateInput.t) : M ContactId :=
  storage CreateContact ;;
  w <- get_world ;;
  let row := new_row (next_id (contacts w)) d in
  if unique_urn_guard w &&
     urn_taken (Contact.organizationId row) (Contact.stored_urn row) None (contacts w)
  then throw unique_violation
  else
    modify (set_contacts (contacts w ++ [row])%list) ;;
    ret (Contact.id row).

Definition required_string (v : JsVal) (f : string -> Contact.t -> Contact.t)
    (c : Contact.t) : option Contact.t :=
  match v with
  | JUndefined => Some c
  | JStr s => Some (f s c)
  | _ => None
  end.

Definition nullable_string (v : JsVal) (f : option string -> Contact.t -> Contact.t)
    (c : Contact.t) : option Contact.t :=
  match v with
  | JUndefined => Some c
  | JNull => Some (f None c)
  | JStr s => Some (f (Some s) c)
  | _ => None
  end.

(** One entry of the [data] of an update: an [undefined] value leaves the
    column alone; an unknown key or a value of the wrong type is refused
    ([None]: the client throws a validation error). *)
Definition column_update (k : string) (v : JsVal) (c : Contact.t)
  : option Contact.t :=
  if String.eqb k "organizationId" then required_string v Contact.set_organizationId c
  else if String.eqb k "firstName" then required_string v Contact.set_firstName c
  else if String.eqb k "lastName" then required_string v Contact.set_lastName c
  else if String.eqb k "email" then nullable_string v Contact.set_email c
  else if String.eqb k "phone" then nullable_string v Contact.set_phone c
  else if String.eqb k "jobTitle" then nullable_string v Contact.set_jobTitle c
  else if String.eqb k "linkedinUrl" then nullable_string v Contact.set_linkedinUrl c
  else if String.eqb k "profileImageUrl" then
    nullable_string v Contact.set_profileImageUrl c
  else if String.eqb k "isLead" then
    match v with
    | JUndefined => Some c
    | JBool b => Some (Contact.set_isLead b c)
    | _ => None
    end
  else if String.eqb k "leadSource" then nullable_string v Contact.set_leadSource c
  else if String.eqb k "leadStatus" then nullable_string v Contact.set_leadStatus c
  else if String.eqb k "ownerId" then nullable_string v Contact.set_ownerId c
  else if String.eqb k "priority" then nullable_string v Contact.set_priority c
  else if String.eqb k "customFields" then
    match v with
    | JUndefined => Some c
    | _ => Some (Contact.set_customFields (Js.to_json v) c)
    end
  else None.

Fixpoint apply_data (data : Js.Obj) (c : Contact.t) : option Contact.t :=
  match data with
  | [] => Some c
  | (k, v) :: r =>
      match column_update k v c with
      | Some c' => apply_data r c'
      | None => None
      end
  end.

(** The row that [find (has_id id)] finds, replaced by [row]. *)
Fixpoint replace_row (id : ContactId) (row : Contact.t) (cs : list Contact.t)
  : list Contact.t :=
  match cs with
  | [] => []
  | c :: r => if has_id id c then row :: r else c :: replace_row id row r
  end.

(** [contact.update({ where: { id }, data })] *)
Definition contact_update (id : ContactId) (data : Js.Obj) : M unit :=
  storage (UpdateContact id) ;;
  w <- get_world ;;
  match find (has_id id) (contacts w) with
  | None => throw (JsError "Record to update not found.")
  | Some c =>
      match apply_data data c with
      | None => throw (JsError "Invalid `prisma.contact.update()` invocation")
      | Some row =>
          if unique_urn_guard w &&
             urn_taken (Contact.organizationId row) (Contact.stored_urn row)
                       (Some id) (contacts w)
          then throw unique_violation
          else modify (set_contacts (replace_row id row (contacts w)))
      end
  end.

(** [activity.create({ data })] *)
Definition activity_create (a : Activity.t) : M unit :=
  storage CreateActivity ;;
  w <- get_world ;;
  modify (set_activities (activities w ++ [a])%list).

End Prisma.

(* ===================================================================== *)
(** * ContactMatcherService *)
(* ===================================================================== *)

(** Logger calls are left out of the services: no property below is about
    what they print. *)
Module ContactMatcherService.

Definition canonical_url (publicId : string) : string :=
  "https://www.linkedin.com/in/" ++ publicId.

Definition in_pattern : string := "linkedin.com/in/".
Definition sales_lead_pattern : string := "linkedin.com/sales/lead/".
Definition sales_people_pattern : string := "linkedin.com/sales/people/".

(** The [for (const pattern of patterns)] loop: the first pattern that
    matches decides. *)
Fixpoint first_pattern_match (patterns : list string) (profileUrl : string)
  : option string :=
  match patterns with
  | [] => None
  | p :: rest =>
      match Regex.match_group p profileUrl with
      | Some g => Some g
      | None => first_pattern_match rest profileUrl
      end
  end.

(** [ContactMatcherService.normalizeLinkedInUrl(profileUrl?, publicId?)];
    [None] is [null]. *)
Definition normalizeLinkedInUrl (profileUrl publicId : option string)
  : option string :=
  if JsString.truthy_opt publicId then
    match publicId with Some p => Some (canonical_url p) | None => None end
  else
    match profileUrl with
    | None => None
    | Some u =>
        if negb (JsString.truthy u) then None
        else
          match first_pattern_match
                  [in_pattern; sales_lead_pattern; sales_people_pattern] u with
          | Some g => Some (canonical_url g)
          | None => Some u
          end
    end.

(** [[...new Set(xs)]]: duplicates dropped, first occurrences kept in order. *)
Fixpoint dedup (seen xs : list string) : list string :=
  match xs with
  | [] => []
  | x :: r =>
      if existsb (String.eqb x) seen then dedup seen r
      else x :: dedup (x :: seen) r
  end.

(** [ContactMatcherService.getLinkedInUrlVariations(url)] *)
Definition getLinkedInUrlVariations (url : string) : list string :=
  let variations :=
    url ::
    match Regex.match_group in_pattern url with
    | Some publicId =>
        [ "https://www.linkedin.com/in/" ++ publicId;
          "https://linkedin.com/in/" ++ publicId;
          "http://www.linkedin.com/in/" ++ publicId;
          "http://linkedin.com/in/" ++ publicId;
          "https://www.linkedin.com/in/" ++ publicId ++ "/";
          "linkedin.com/in/" ++ publicId ]
    | None => []
    end in
  dedup [] variations.

(** The row of a [findFirst] or of the raw query as [existing_data]. *)
Definition as_existing (c : Contact.t) : Existing.t := Existing.of_contact c.

(** [matchByUrnId(organizationId, urnId)] *)
Definition matchByUrnId (organizationId urnId : string) : M (option Existing.t) :=
  try_catch
    (rows <- Prisma.queryRaw_contacts_by_urn organizationId urnId ;;
     match rows with
     | contact :: _ => ret (Some (as_existing contact))
     | [] => ret None
     end)
    (fun _ => ret None).

(** [matchByLinkedInUrl(organizationId, linkedinUrl)] *)
Definition matchByLinkedInUrl (organizationId linkedinUrl : string)
  : M (option Existing.t) :=
  try_catch
    (let urlVariations := getLinkedInUrlVariations linkedinUrl in
     contact <- Prisma.contact_findFirst_by_url organizationId urlVariations ;;
     match contact with
     | Some c => ret (Some (as_existing c))
     | None => ret None
     end)
    (fun _ => ret None).

(** [matchByEmail(organizationId, email)] *)
Definition matchByEmail (organizationId email : string) : M (option Existing.t) :=
  try_catch
    (contact <- Prisma.contact_findFirst_by_email organizationId
                  (JsString.toLowerCase email) ;;
     match contact with
     | Some c => ret (Some (as_existing c))
     | None => ret None
     end)
    (fun _ => ret None).

Definition hit (kind : MatchType) (e : Existing.t) : MatchResult.t :=
  MatchResult.mk true (Some (Existing.id e)) (Some kind) (Some e).

Definition miss : MatchResult.t := MatchResult.mk false None (Some NEW) None.

(** Step 3 of [findMatch] and the final "no match". *)
Definition findMatch_email (organizationId : string) (email : option string)
  : M MatchResult.t :=
  match email with
  | Some e =>
      if JsString.truthy e then
        emailMatch <- matchByEmail organizationId e ;;
        match emailMatch with
        | Some m => ret (hit EMAIL m)
        | None => ret miss
        end
      else ret miss
  | None => ret miss
  end.

(** Step 2 of [findMatch], then step 3. *)
Definition findMatch_url (organizationId : string) (connectionData : Connection.t)
  : M MatchResult.t :=
  let normalizedUrl :=
    normalizeLinkedInUrl (Some (Connection.profile_url connectionData))
                         (Connection.public_id connectionData) in
  match normalizedUrl with
  | Some u =>
      if JsString.truthy u then
        urlMatch <- matchByLinkedInUrl organizationId u ;;
        match urlMatch with
        | Some m => ret (hit LINKEDIN_URL m)
        | None => findMatch_email organizationId (Connection.email connectionData)
        end
      else findMatch_email organizationId (Connection.email connectionData)
  | None => findMatch_email organizationId (Connection.email connectionData)
  end.

(** [findMatch(organizationId, connectionData)] *)
Definition findMatch (organizationId : string) (connectionData : Connection.t)
  : M MatchResult.t :=
  urnMatch <- matchByUrnId organizationId (Connection.urn_id connectionData) ;;
  match urnMatch with
  | Some m => ret (hit URN_ID m)
  | None => findMatch_url organizationId connectionData
  end.

End ContactMatcherService.

(* ===================================================================== *)
(** * ContactMergerService *)
(* ===================================================================== *)

Module ContactMergerService.

(** The second half of [parseName]: the full name split on whitespace. *)
Definition split_name (fullName : string) : string * string :=
  match JsString.split_ws (JsString.trim fullName) with
  | [] => (EmptyString, EmptyString)
  | [p] => (p, EmptyString)
  | p :: rest => (p, JsString.join " " rest)
  end.

(** [parseName(fullName, firstName?, lastName?)] *)
Definition parseName (fullName : string) (firstName lastName : option string)
  : string * string :=
  match firstName, lastName with
  | Some f, Some l =>
      if JsString.truthy f && JsString.truthy l then (f, l)
      else split_name fullName
  | _, _ => split_name fullName
  end.

(** [ContactMergerService.normalizeLinkedInUrl(profileUrl?, publicId?)]:
    the merger's own copy knows the [/in/] shape only. *)
Definition normalizeLinkedInUrl (profileUrl publicId : option string)
  : option string :=
  if JsString.truthy_opt publicId then
    match publicId with
    | Some p => Some ("https://www.linkedin.com/in/" ++ p)
    | None => None
    end
  else
    match profileUrl with
    | None => None
    | Some u =>
        if negb (JsString.truthy u) then None
        else
          match Regex.match_group "linkedin.com/in/" u with
          | Some g => Some ("https://www.linkedin.com/in/" ++ g)
          | None => Some u
          end
    end.

(** [skills || fallback], for an optional array of strings. *)
Definition strings_or (l : option (list string)) (fallback : JsVal) : JsVal :=
  match l with
  | Some xs => Js.of_strings xs
  | None => fallback
  end.

(** [email?.toLowerCase()] *)
Definition lower_email (email : option string) : JsVal :=
  match email with
  | Some e => JStr (JsString.toLowerCase e)
  | None => JUndefined
  end.

(** [x || null] as a nullable column value. *)
Definition or_null (v : JsVal) : option string :=
  match v with
  | JStr s => if JsString.truthy s then Some s else None
  | _ => None
  end.

Definition skipped_with (msg : string) : SyncResult.t :=
  SyncResult.mk false skipped None None None (Some msg).

(** The [linkedinData] literal of [createContact], before the removal of
    its undefined values. *)
Definition create_linkedinData (c : Connection.t) (lastSyncedAt : string) : Js.Obj :=
  Js.literal []
    [ ("linkedinUrnId", JStr (Connection.urn_id c));
      ("linkedinPublicId", Js.of_optional (Connection.public_id c));
      ("linkedinConnected", JStr (Connection.connected_on c));
      ("linkedinHeadline", Js.of_optional (Connection.headline c));
      ("linkedinLocation", Js.of_optional (Connection.location c));
      ("linkedinProfilePhoto", Js.of_optional (Connection.profile_pic_url c));
      ("linkedinIndustry", Js.of_optional (Connection.industry c));
      ("linkedinSkills", strings_or (Connection.skills c) (JArr []));
      ("linkedinLanguages", strings_or (Connection.languages c) (JArr []));
      ("linkedinWorkExperience", Connection.work_experience c);
      ("linkedinEducation", Connection.education c);
      ("syncedFromOutreach", JBool true);
      ("lastSyncedAt", JStr lastSyncedAt) ].

(** [Object.keys(o).forEach(key => { if (o[key] === undefined) delete o[key] })] *)
Definition remove_undefined (o : Js.Obj) : Js.Obj :=
  filter (fun kv => match snd kv with JUndefined => false | _ => true end) o.

(** The [data] of the [prisma.contact.create] call in [createContact]. *)
Definition create_data (organizationId : string) (c : Connection.t)
    (lastSyncedAt : string) : ContactCreateInput.t :=
  let '(firstName, lastName) :=
    parseName (Connection.name c) (Connection.first_name c)
              (Connection.last_name c) in
  let linkedinData := remove_undefined (create_linkedinData c lastSyncedAt) in
  ContactCreateInput.mk
    organizationId
    firstName
    lastName
    (or_null (lower_email (Connection.email c)))
    (or_null (Js.of_optional (Connection.phone c)))
    (or_null (Js.of_optional (Connection.job_title c)))
    (normalizeLinkedInUrl (Some (Connection.profile_url c)) (Connection.public_id c))
    (or_null (Js.of_optional (Connection.profile_pic_url c)))
    true
    (Some "LINKEDIN_OUTREACH")
    (Some "NEW")
    (JObj linkedinData).

(** [createContact(organizationId, connectionData)] *)
Definition createContact (organizationId : string) (connectionData : Connection.t)
  : M SyncResult.t :=
  try_catch
    (let '(firstName, lastName) :=
       parseName (Connection.name connectionData)
                 (Connection.first_name connectionData)
                 (Connection.last_name connectionData) in
     lastSyncedAt <- now_iso ;;
     contact_id <-
       Prisma.contact_create (create_data organizationId connectionData lastSyncedAt) ;;
     ret (SyncResult.mk true created (Some contact_id) (Some NEW)
            (Some ("Created new contact: " ++ firstName ++ " " ++ lastName))
            None))
    (fun error => ret (skipped_with (error_message error "Unknown error"))).

(** The [linkedinData] literal of [mergeContact]. *)
Definition merge_linkedinData (existingCustomFields : JsVal) (c : Connection.t)
    (lastSyncedAt : string) : Js.Obj :=
  Js.literal (Js.spread existingCustomFields)
    [ ("linkedinUrnId", JStr (Connection.urn_id c));
      ("linkedinPublicId", Js.of_optional (Connection.public_id c));
      ("linkedinConnected", JStr (Connection.connected_on c));
      ("linkedinHeadline", Js.of_optional (Connection.headline c));
      ("linkedinLocation", Js.of_optional (Connection.location c));
      ("linkedinProfilePhoto", Js.of_optional (Connection.profile_pic_url c));
      ("linkedinIndustry", Js.of_optional (Connection.industry c));
      ("linkedinSkills",
        strings_or (Connection.skills c)
          (Js.or (Js.prop existingCustomFields "linkedinSkills") (JArr [])));
      ("linkedinLanguages",
        strings_or (Connection.languages c)
          (Js.or (Js.prop existingCustomFields "linkedinLanguages") (JArr [])));
      ("linkedinWorkExperience",
        Js.or (Connection.work_experience c)
              (Js.prop existingCustomFields "linkedinWorkExperience"));
      ("linkedinEducation",
        Js.or (Connection.education c)
              (Js.prop existingCustomFields "linkedinEducation"));
      ("syncedFromOutreach", JBool true);
      ("lastSyncedAt", JStr lastSyncedAt) ].

(** [if (cond) { updateData[k] = v }] *)
Definition set_if (cond : bool) (o : Js.Obj) (k : string) (v : JsVal) : Js.Obj :=
  if cond then Js.set o k v else o.

(** [updateData] as it stands when [mergeContact] asks for the current
    job title: the two "always" columns, then the name and email columns
    under their condition. *)
Definition merge_updateData_basic (existing : Existing.t) (c : Connection.t)
    (forceUpdate : bool) : Js.Obj :=
  let updateData : Js.Obj := [] in
  let updateData :=
    Js.set updateData "profileImageUrl"
      (Js.or (Js.of_optional (Connection.profile_pic_url c))
             (Js.of_nullable (Existing.linkedinUrl existing))) in
  let updateData :=
    Js.set updateData "linkedinUrl"
      (Js.or (Js.of_nullable
                (normalizeLinkedInUrl (Some (Connection.profile_url c))
                                      (Connection.public_id c)))
             (Js.of_nullable (Existing.linkedinUrl existing))) in
  let '(firstName, lastName) :=
    parseName (Connection.name c) (Connection.first_name c)
              (Connection.last_name c) in
  let updateData :=
    set_if (forceUpdate || negb (JsString.truthy (Existing.firstName existing)))
      updateData "firstName" (JStr firstName) in
  let updateData :=
    set_if (forceUpdate || negb (JsString.truthy (Existing.lastName existing)))
      updateData "lastName" (JStr lastName) in
  set_if (forceUpdate || negb (JsString.truthy_opt (Existing.email existing)))
    updateData "email"
    (Js.or (lower_email (Connection.email c))
           (Js.of_nullable (Existing.email existing))).

(** [currentJobTitle?.jobTitle] *)
Definition current_jobTitle (row : option Contact.t) : option string :=
  match row with
  | Some r => Contact.jobTitle r
  | None => None
  end.

(** [updateData] as it is handed to [prisma.contact.update]: the job title
    under its condition, then the custom fields. *)
Definition merge_updateData (existing : Existing.t) (c : Connection.t)
    (forceUpdate : bool) (lastSyncedAt : string) (currentJobTitle : option Contact.t)
  : Js.Obj :=
  let existingCustomFields := Js.or (Existing.customFields existing) (JObj []) in
  let linkedinData := merge_linkedinData existingCustomFields c lastSyncedAt in
  let updateData := merge_updateData_basic existing c forceUpdate in
  let updateData :=
    set_if (forceUpdate ||
            negb (JsString.truthy_opt (current_jobTitle currentJobTitle)))
      updateData "jobTitle" (Js.of_optional (Connection.job_title c)) in
  Js.set updateData "customFields" (JObj linkedinData).

(** [mergeContact(matchResult, connectionData, forceUpdate)] *)
Definition mergeContact (matchResult : MatchResult.t) (connectionData : Connection.t)
    (forceUpdate : bool) : M SyncResult.t :=
  match MatchResult.contact_id matchResult, MatchResult.existing_data matchResult with
  | Some contact_id, Some existing =>
      try_catch
        (lastSyncedAt <- now_iso ;;
         let '(firstName, lastName) :=
           parseName (Connection.name connectionData)
                     (Connection.first_name connectionData)
                     (Connection.last_name connectionData) in
         currentJobTitle <- Prisma.contact_findUnique contact_id ;;
         Prisma.contact_update contact_id
           (merge_updateData existing connectionData forceUpdate lastSyncedAt
              currentJobTitle) ;;
         ret (SyncResult.mk true updated (Some contact_id)
                (MatchResult.match_type matchResult)
                (Some ("Updated existing contact: " ++ firstName ++ " " ++ lastName))
                None))
        (fun error => ret (skipped_with (error_message error "Unknown error")))
  | _, _ => ret (skipped_with "No existing contact to merge with")
  end.

(** [createSyncActivity(organizationId, contactId, action, connectionData)]:
    a failure is swallowed. *)
Definition createSyncActivity (organizationId : string) (contactId : ContactId)
    (action : Action) (connectionData : Connection.t) : M unit :=
  try_catch
    (Prisma.activity_create
       (Activity.mk organizationId contactId "NOTE"
          (match action with
           | created => "Contact created from LinkedIn connection"
           | _ => "Contact updated from LinkedIn sync"
           end)
          ("LinkedIn connection accepted. Profile: " ++ Connection.name connectionData)
          (JObj [ ("source", JStr "OUTREACH_SYNC");
                  ("connectionId", JStr (Connection.id connectionData));
                  ("linkedinUrl", JStr (Connection.profile_url connectionData));
                  ("connectedOn", JStr (Connection.connected_on connectionData)) ])))
    (fun _ => ret tt).

End ContactMergerService.

(* ===================================================================== *)
(** * The webhook payload schema (outreach-sync.dto.ts) *)
(* ===================================================================== *)

(** [ConnectionAcceptedPayload] *)
Module Payload.
Record Source : Type := mkSource {
  organization_id : string;
  workspace_id : string;
  integration_id : string;
  campaign_id : option string
}.
Record t : Type := mk {
  webhook_secret : string;
  event_type : string;
  timestamp : string;
  source : Source;
  connection : Connection.t
}.
End Payload.

(** The zod combinators the schema is written with.  zod is a library: its
    three string formats ([uuid], [datetime], [email]) are taken as given
    predicates, the structure of the schema is followed to the letter. *)
Module Zod.

Record Formats : Type := mkFormats {
  uuid : string -> bool;
  datetime : string -> bool;
  email : string -> bool
}.

Definition andThen {A B} (o : option A) (k : A -> option B) : option B :=
  match o with Some a => k a | None => None end.

Notation "x <~ c1 ;; c2" := (andThen c1 (fun x => c2))
  (at level 61, c1 at next level, right associativity).

(** [z.string()], refined by a format. *)
Definition string_ (format : string -> bool) (v : JsVal) : option string :=
  match v with
  | JStr s => if format s then Some s else None
  | _ => None
  end.

Definition any_string : string -> bool := fun _ => true.

(** [z.literal(lit)] *)
Definition literal (lit : string) (v : JsVal) : option string :=
  string_ (String.eqb lit) v.

(** [schema.optional()] *)
Definition optional {A} (schema : JsVal -> option A) (v : JsVal)
  : option (option A) :=
  match v with
  | JUndefined => Some None
  | _ => match schema v with Some a => Some (Some a) | None => None end
  end.

(** [z.array(z.string())] *)
Fixpoint strings (items : list JsVal) : option (list string) :=
  match items with
  | [] => Some []
  | JStr s :: r => match strings r with Some l => Some (s :: l) | None => None end
  | _ :: _ => None
  end.

Definition array_of_strings (v : JsVal) : option (list string) :=
  match v with
  | JArr items => strings items
  | _ => None
  end.

(** [z.object({...})]: the value must be an object; a missing key reads
    as [undefined]. *)
Definition object (v : JsVal) : option Js.Obj :=
  match v with
  | JObj o => Some o
  | _ => None
  end.

Definition connection (fmt : Formats) (v : JsVal) : option Connection.t :=
  o <~ object v ;;
  id <~ string_ (uuid fmt) (Js.get o "id") ;;
  urn_id <~ string_ any_string (Js.get o "urn_id") ;;
  public_id <~ optional (string_ any_string) (Js.get o "public_id") ;;
  name <~ string_ any_string (Js.get o "name") ;;
  first_name <~ optional (string_ any_string) (Js.get o "first_name") ;;
  last_name <~ optional (string_ any_string) (Js.get o "last_name") ;;
  headline <~ optional (string_ any_string) (Js.get o "headline") ;;
  profile_url <~ string_ any_string (Js.get o "profile_url") ;;
  profile_pic_url <~ optional (string_ any_string) (Js.get o "profile_pic_url") ;;
  company <~ optional (string_ any_string) (Js.get o "company") ;;
  job_title <~ optional (string_ any_string) (Js.get o "job_title") ;;
  location <~ optional (string_ any_string) (Js.get o "location") ;;
  industry <~ optional (string_ any_string) (Js.get o "industry") ;;
  email_ <~ optional (string_ (email fmt)) (Js.get o "email") ;;
  phone <~ optional (string_ any_string) (Js.get o "phone") ;;
  connected_on <~ string_ (datetime fmt) (Js.get o "connected_on") ;;
  skills <~ optional array_of_strings (Js.get o "skills") ;;
  languages <~ optional array_of_strings (Js.get o "languages") ;;
  Some (Connection.mk id urn_id public_id name first_name last_name headline
          profile_url profile_pic_url company job_title location industry
          email_ phone connected_on skills languages
          (Js.get o "work_experience") (Js.get o "education")).

Definition source (fmt : Formats) (v : JsVal) : option Payload.Source :=
  o <~ object v ;;
  organization_id <~ string_ (uuid fmt) (Js.get o "organization_id") ;;
  workspace_id <~ string_ (uuid fmt) (Js.get o "workspace_id") ;;
  integration_id <~ string_ (uuid fmt) (Js.get o "integration_id") ;;
  campaign_id <~ optional (string_ (uuid fmt)) (Js.get o "campaign_id") ;;
  Some (Payload.mkSource organization_id workspace_id integration_id campaign_id).

(** [ConnectionAcceptedPayloadSchema.safeParse(rawPayload)]: [None] is a
    result whose [success] is false. *)
Definition safeParse (fmt : Formats) (rawPayload : JsVal) : option Payload.t :=
  o <~ object rawPayload ;;
  webhook_secret <~ string_ any_string (Js.get o "webhook_secret") ;;
  event_type <~ literal "CONNECTION_ACCEPTED" (Js.get o "event_type") ;;
  timestamp <~ string_ (datetime fmt) (Js.get o "timestamp") ;;
  src <~ source fmt (Js.get o "source") ;;
  conn <~ connection fmt (Js.get o "connection") ;;
  Some (Payload.mk webhook_secret event_type timestamp src conn).

End Zod.

(* ===================================================================== *)
(** * OutreachSyncController *)
(* ===================================================================== *)

(** What can arrive where a secret is expected.  The batch body is not
    validated, so its [webhook_secret] is any value of the parsed JSON
    body, or [undefined] when the body has none. *)
Inductive SecretInput : Type :=
| SecretString (s : string)
| SecretUndefined
| SecretNull
| SecretBoolean (b : bool)
| SecretNumber (n : Z)
| SecretArray (items : list JsVal)
| SecretObject (props : Js.Obj).

Module Buffer.

(** The UTF-8 bytes of one code unit below 256. *)
Definition utf8_char (c : ascii) : list Z :=
  let n := Z.of_nat (JsString.code c) in
  if (n <? 128)%Z then [n]
  else [Z.lor 192 (Z.shiftr n 6); Z.lor 128 (Z.land n 63)].

Fixpoint utf8 (s : string) : list Z :=
  match s with
  | EmptyString => []
  | String c r => (utf8_char c ++ utf8 r)%list
  end.

(** The bytes a buffer takes from the items of an array-like, each
    through [ToNumber] and [ToUint8]: [None] when a conversion throws. *)
Fixpoint bytes_of (items : list JsVal) : option (list Z) :=
  match items with
  | [] => Some []
  | v :: r =>
      match JsNumber.ToNumber v, bytes_of r with
      | Some n, Some bytes => Some (JsNumber.ToUint8 n :: bytes)
      | _, _ => None
      end
  end.

(** [obj[0]], ..., [obj[length - 1]] of an object; none for a length that
    is not positive. *)
Definition items_of (obj : Js.Obj) (length : Z) : list JsVal :=
  map (fun k => Js.get obj (JsString.of_nat k)) (seq 0 (Z.to_nat length)).

(** [fromObject(obj)] for an object of the parsed body: an object with a
    [length] is read as an array-like (as an empty one when the length is
    no number), and one of the shape [{ type: 'Buffer', data: [...] }] by
    its data.  [None] when a conversion throws or when nothing is
    returned, on which [Buffer.from] throws.  A length that the
    allocation of the buffer refuses is outside the model. *)
Definition fromObject (obj : Js.Obj) : option (list Z) :=
  match Js.get obj "length" with
  | JUndefined =>
      match Js.get obj "type", Js.get obj "data" with
      | JStr type, JArr data =>
          if String.eqb type "Buffer" then bytes_of data else None
      | _, _ => None
      end
  | JNum length => bytes_of (items_of obj length)
  | _ => Some []
  end.

(** [Buffer.from(value)]: [None] when it throws.  A string gives its
    UTF-8 bytes and an array the bytes of its items.  For an object,
    [value.valueOf && value.valueOf()] comes first: an own property
    [valueOf] that is truthy is called, and is no function; one that is
    the empty string is what the buffer is made from; otherwise
    [fromObject] decides.  Every other value is refused. *)
Definition from (v : SecretInput) : option (list Z) :=
  match v with
  | SecretString s => Some (utf8 s)
  | SecretArray items => bytes_of items
  | SecretObject obj =>
      if Js.has obj "valueOf"
      then
        match Js.get obj "valueOf" with
        | JStr EmptyString => Some []
        | valueOf => if Js.truthy valueOf then None else fromObject obj
        end
      else fromObject obj
  | SecretUndefined | SecretNull | SecretBoolean _ | SecretNumber _ => None
  end.

(** The comparison loop of [crypto.timingSafeEqual]: every pair of bytes
    is visited, the differences are OR-ed together. *)
Fixpoint diff_bits (a b : list Z) (acc : Z) : Z :=
  match a, b with
  | x :: a', y :: b' => diff_bits a' b' (Z.lor acc (Z.lxor x y))
  | _, _ => acc
  end.

(** [crypto.timingSafeEqual(a, b)]: [None] when it throws a [RangeError]
    (the byte lengths differ). *)
Definition timingSafeEqual (a b : list Z) : option bool :=
  if Nat.eqb (List.length a) (List.length b)
  then Some (Z.eqb (diff_bits a b 0) 0)
  else None.

End Buffer.

(** The body of [POST /webhooks/outreach/batch-sync] as the handler's
    signature types it; [connections] is [None] when the field is missing
    or not an array. *)
Module BatchBody.
Record t : Type := mk {
  webhook_secret : SecretInput;
  organization_id : string;
  connections : option (list Connection.t)
}.
End BatchBody.

Module BatchResult.
Record t : Type := mk {
  total : nat;
  created_count : nat;
  updated_count : nat;
  skipped_count : nat;
  results : list SyncResult.t
}.
End BatchResult.

Module OutreachSyncController.

Record t : Type := mk { webhookSecret : string }.

Definition disabled_warning : string :=
  "OUTREACH_WEBHOOK_SECRET not set - webhook authentication disabled".

(** The constructor, from [process.env.OUTREACH_WEBHOOK_SECRET]; with the
    controller come the warnings it logged. *)
Definition constructor (env_secret : option string) : t * list string :=
  let webhookSecret :=
    if JsString.truthy_opt env_secret
    then match env_secret with Some s => s | None => EmptyString end
    else EmptyString in
  (mk webhookSecret,
   if negb (JsString.truthy webhookSecret) then [disabled_warning] else []).

(** [verifyWebhookSecret(providedSecret)] *)
Definition verifyWebhookSecret (this : t) (providedSecret : SecretInput) : bool :=
  match Buffer.from (SecretString (webhookSecret this)), Buffer.from providedSecret with
  | Some expected, Some provided =>
      if negb (Nat.eqb (List.length expected) (List.length provided)) then false
      else
        match Buffer.timingSafeEqual expected provided with
        | Some b => b
        | None => false
        end
  | _, _ => false
  end.

(** [this.webhookSecret && !this.verifyWebhookSecret(secret)]: the
    request is to be refused. *)
Definition secret_refused (this : t) (secret : SecretInput) : bool :=
  JsString.truthy (webhookSecret this) && negb (verifyWebhookSecret this secret).

(** Steps 1 and 2 of both handlers: match, then merge or create. *)
Definition match_and_write (organizationId : string) (connectionData : Connection.t)
  : M SyncResult.t :=
  matchResult <- ContactMatcherService.findMatch organizationId connectionData ;;
  if MatchResult.found matchResult
  then ContactMergerService.mergeContact matchResult connectionData false
  else ContactMergerService.createContact organizationId connectionData.

(** Step 3: the activity log of a successful sync. *)
Definition log_activity (organizationId : string) (result : SyncResult.t)
    (connectionData : Connection.t) : M unit :=
  match SyncResult.contact_id result with
  | Some contact_id =>
      if SyncResult.success result
      then ContactMergerService.createSyncActivity organizationId contact_id
             (SyncResult.action result) connectionData
      else ret tt
  | None => ret tt
  end.

(** [handleConnectionAccepted(rawPayload)] *)
Definition handleConnectionAccepted (fmt : Zod.Formats) (this : t)
    (rawPayload : JsVal) : M SyncResult.t :=
  match Zod.safeParse fmt rawPayload with
  | None => throw (BadRequestException "Invalid webhook payload")
  | Some payload =>
      if secret_refused this (SecretString (Payload.webhook_secret payload))
      then throw (UnauthorizedException "Invalid webhook secret")
      else
        try_catch
          (let organization_id :=
             Payload.organization_id (Payload.source payload) in
           let connectionData := Payload.connection payload in
           result <- match_and_write organization_id connectionData ;;
           log_activity organization_id result connectionData ;;
           ret result)
          (fun error =>
             ret (ContactMergerService.skipped_with
                    (error_message error "Processing failed")))
  end.

(** The local variables of [handleBatchSync]'s loop. *)
Record Tally : Type := mkTally {
  results : list SyncResult.t;
  created_n : nat;
  updated_n : nat;
  skipped_n : nat
}.

(** [results.push(result)] and the counter the action selects. *)
Definition push_result (result : SyncResult.t) (acc : Tally) : Tally :=
  let rs := (results acc ++ [result])%list in
  match SyncResult.action result with
  | created => mkTally rs (S (created_n acc)) (updated_n acc) (skipped_n acc)
  | updated => mkTally rs (created_n acc) (S (updated_n acc)) (skipped_n acc)
  | skipped => mkTally rs (created_n acc) (updated_n acc) (S (skipped_n acc))
  end.

(** The [catch] of the loop body. *)
Definition push_caught (error : Exn) (acc : Tally) : Tally :=
  mkTally
    (results acc ++
       [ContactMergerService.skipped_with (error_message error "Unknown error")])%list
    (created_n acc) (updated_n acc) (S (skipped_n acc)).

(** One turn of the loop.  What the [try] block has pushed and counted
    before a [throw] stays pushed and counted. *)
Definition batch_item (organizationId : string) (connectionData : Connection.t)
    (acc : Tally) : M Tally :=
  try_catch
    (result <- match_and_write organizationId connectionData ;;
     let acc' := push_result result acc in
     try_catch
       (log_activity organizationId result connectionData ;; ret acc')
       (fun error => ret (push_caught error acc')))
    (fun error => ret (push_caught error acc)).

(** [for (const connectionData of body.connections) { ... }] *)
Fixpoint batch_loop (organizationId : string) (conns : list Connection.t)
    (acc : Tally) : M Tally :=
  match conns with
  | [] => ret acc
  | connectionData :: rest =>
      acc' <- batch_item organizationId connectionData acc ;;
      batch_loop organizationId rest acc'
  end.

(** [handleBatchSync(body)] *)
Definition handleBatchSync (this : t) (body : BatchBody.t) : M BatchResult.t :=
  if secret_refused this (BatchBody.webhook_secret body)
  then throw (UnauthorizedException "Invalid webhook secret")
  else
    match BatchBody.connections body with
    | None => throw (BadRequestException "Invalid batch payload")
    | Some conns =>
        acc <- batch_loop (BatchBody.organization_id body) conns
                 (mkTally [] 0 0 0) ;;
        ret (BatchResult.mk (List.length conns) (created_n acc) (updated_n acc)
               (skipped_n acc) (results acc))
    end.

End OutreachSyncController.

(* ===================================================================== *)
(** * Tenant login: AuthService, its schemas and AuthController *)
(* ===================================================================== *)

(** [jsonwebtoken] is a library, not code of the repository: [sign] and
    [verify] stand for what [jwt.sign(payload, secret, { expiresIn })] and
    [jwt.verify(token, secret)] give at the time of the request.  Both may
    throw; [verify] yields the decoded payload, an object or, for a token
    whose payload is no JSON object, a string. *)
Module Jwt.
Record Lib : Type := mkLib {
  sign : Js.Obj -> string -> string -> Res string;
  verify : string -> string -> Res JsVal
}.
End Jwt.

(** [TenantLoginResponseDto] *)
Module TenantLoginResponse.
Record User : Type := mkUser {
  id : string;
  tenantId : string;
  workspaceId : option string
}.
Record t : Type := mk {
  accessToken : string;
  refreshToken : string;
  user : User
}.
End TenantLoginResponse.

(** The result of a refresh: [{ accessToken }]. *)
Module RefreshResponse.
Record t : Type := mk { accessToken : string }.
End RefreshResponse.

Module AuthService.

Record t : Type := mk { jwtSecret : string }.

Definition accessTokenExpiry : string := "7d".
Definition refreshTokenExpiry : string := "30d".

Definition not_configured_warning : string :=
  "AUTH_JWT_SECRET not configured - authentication will fail".

(** The constructor, from [baseServiceConfig.jwtSecret] and
    [process.env.AUTH_JWT_SECRET]; with the service come the warnings it
    printed. *)
Definition constructor (config_secret env_secret : option string) : t * list string :=
  let jwtSecret :=
    if JsString.truthy_opt config_secret
    then match config_secret with Some s => s | None => EmptyString end
    else if JsString.truthy_opt env_secret
         then match env_secret with Some s => s | None => EmptyString end
         else EmptyString in
  (mk jwtSecret,
   if negb (JsString.truthy jwtSecret) then [not_configured_warning] else []).

(** [generateToken(payload, expiresIn)] *)
Definition generateToken (lib : Jwt.Lib) (this : t) (payload : Js.Obj)
    (expiresIn : string) : Res string :=
  Jwt.sign lib payload (jwtSecret this) expiresIn.

(** [tenantLogin(dto)], for [dto = { tenantId }] *)
Definition tenantLogin (lib : Jwt.Lib) (this : t) (tenantId : string)
  : Res TenantLoginResponse.t :=
  if negb (JsString.truthy tenantId)
  then Throw (UnauthorizedException "Tenant ID is required")
  else if negb (JsString.truthy (jwtSecret this))
  then Throw (UnauthorizedException "Authentication not configured")
  else
    let userId := "crm-user-" ++ tenantId in
    match generateToken lib this
            [ ("sub", JStr userId); ("tenant_id", JStr tenantId);
              ("type", JStr "access") ] accessTokenExpiry with
    | Throw e => Throw e
    | Ok accessToken =>
        match generateToken lib this
                [ ("sub", JStr userId); ("tenant_id", JStr tenantId);
                  ("type", JStr "refresh") ] refreshTokenExpiry with
        | Throw e => Throw e
        | Ok refreshToken =>
            Ok (TenantLoginResponse.mk accessToken refreshToken
                  (TenantLoginResponse.mkUser userId tenantId None))
        end
    end.

(** [verifyToken(token)]: whatever the library throws becomes one
    [UnauthorizedException]. *)
Definition verifyToken (lib : Jwt.Lib) (this : t) (token : string) : Res JsVal :=
  match Jwt.verify lib token (jwtSecret this) with
  | Ok payload => Ok payload
  | Throw _ => Throw (UnauthorizedException "Invalid or expired token")
  end.

(** [payload.type !== 'refresh'] *)
Definition not_refresh (payload : JsVal) : bool :=
  match Js.prop payload "type" with
  | JStr s => negb (String.eqb s "refresh")
  | _ => true
  end.

(** [refreshAccessToken(refreshToken)] *)
Definition refreshAccessToken (lib : Jwt.Lib) (this : t) (refreshToken : string)
  : Res RefreshResponse.t :=
  match verifyToken lib this refreshToken with
  | Throw e => Throw e
  | Ok payload =>
      if not_refresh payload
      then Throw (UnauthorizedException "Invalid refresh token")
      else
        match generateToken lib this
                [ ("sub", Js.prop payload "sub");
                  ("tenant_id", Js.prop payload "tenant_id");
                  ("team_id", Js.prop payload "team_id");
                  ("type", JStr "access") ] accessTokenExpiry with
        | Throw e => Throw e
        | Ok accessToken => Ok (RefreshResponse.mk accessToken)
        end
  end.

End AuthService.

(** The two request schemas of tenant-login.dto.ts, each an object with one
    string of at least one code unit.  A parse gives the string ([inl]) or
    the message of the first issue ([inr]); the messages of a type mismatch
    are zod's own. *)
Module AuthSchemas.

(** The name zod gives to the type of a value. *)
Definition parsed_type (v : JsVal) : string :=
  match v with
  | JUndefined => "undefined"
  | JNull => "null"
  | JBool _ => "boolean"
  | JNum _ => "number"
  | JStr _ => "string"
  | JArr _ => "array"
  | JObj _ => "object"
  end.

Definition invalid_type (expected : string) (v : JsVal) : string :=
  match v with
  | JUndefined => "Required"
  | _ => "Expected " ++ expected ++ ", received " ++ parsed_type v
  end.

(** [z.string().min(1, message)] *)
Definition string_min1 (message : string) (v : JsVal) : string + string :=
  match v with
  | JStr s => if JsString.truthy s then inl s else inr message
  | _ => inr (invalid_type "string" v)
  end.

(** [z.object({ key: schema })] *)
Definition object1 (key : string) (schema : JsVal -> string + string) (body : JsVal)
  : string + string :=
  match body with
  | JObj o => schema (Js.get o key)
  | _ => inr (invalid_type "object" body)
  end.

Definition TenantLoginSchema : JsVal -> string + string :=
  object1 "tenantId" (string_min1 "Tenant ID is required").

Definition RefreshTokenSchema : JsVal -> string + string :=
  object1 "refreshToken" (string_min1 "Refresh token is required").

End AuthSchemas.

Module AuthController.

(** [result.error.errors[0]?.message || 'Invalid request'] *)
Definition first_message (message : string) : string :=
  if JsString.truthy message then message else "Invalid request".

(** [tenantLogin(body)] *)
Definition tenantLogin (lib : Jwt.Lib) (authService : AuthService.t) (body : JsVal)
  : Res TenantLoginResponse.t :=
  match AuthSchemas.TenantLoginSchema body with
  | inr message => Throw (BadRequestException (first_message message))
  | inl tenantId => AuthService.tenantLogin lib authService tenantId
  end.

(** [refreshToken(body)] *)
Definition refreshToken (lib : Jwt.Lib) (authService : AuthService.t) (body : JsVal)
  : Res RefreshResponse.t :=
  match AuthSchemas.RefreshTokenSchema body with
  | inr message => Throw (BadRequestException (first_message message))
  | inl token => AuthService.refreshAccessToken lib authService token
  end.

End AuthController.

(* ===================================================================== *)
(** * Vocabulary of the properties *)
(* ===================================================================== *)

Unset Implicit Arguments.

(** [a || b] on optional strings. *)
Definition or_else (a b : option string) : option string :=
  if JsString.truthy_opt a then a else b.

(** The inbound or parsed names. *)
Definition resolved_name (conn : Connection.t) : string * string :=
  ContactMergerService.parseName (Connection.name conn)
    (Connection.first_name conn) (Connection.last_name conn).

(** The row a successful merge stores, column by column: what
    [prisma.contact.update] makes of [merge_updateData] on the stored row
    [c] (see [merge_data_applied]). *)
Definition merged_row (existing : Existing.t) (conn : Connection.t)
    (forceUpdate : bool) (lastSyncedAt : string) (c : Contact.t) : Contact.t :=
  Contact.mk
    (Contact.id c)
    (Contact.organizationId c)
    (if forceUpdate || negb (JsString.truthy (Existing.firstName existing))
     then fst (resolved_name conn) else Contact.firstName c)
    (if forceUpdate || negb (JsString.truthy (Existing.lastName existing))
     then snd (resolved_name conn) else Contact.lastName c)
    (if forceUpdate || negb (JsString.truthy_opt (Existing.email existing))
     then or_else (option_map JsString.toLowerCase (Connection.email conn))
                  (Existing.email existing)
     else Contact.email c)
    (Contact.phone c)
    (if forceUpdate || negb (JsString.truthy_opt (Contact.jobTitle c))
     then match Connection.job_title conn with
          | Some j => Some j
          | None => Contact.jobTitle c
          end
     else Contact.jobTitle c)
    (or_else (ContactMergerService.normalizeLinkedInUrl
                (Some (Connection.profile_url conn)) (Connection.public_id conn))
             (Existing.linkedinUrl existing))
    (or_else (Connection.profile_pic_url conn) (Existing.linkedinUrl existing))
    (Contact.isLead c)
    (Contact.leadSource c)
    (Contact.leadStatus c)
    (Contact.ownerId c)
    (Contact.priority c)
    (Js.to_json
       (JObj (ContactMergerService.merge_linkedinData
                (Js.or (Existing.customFields existing) (JObj []))
                conn lastSyncedAt))).

(** The contacts after a merge that storage does not reject for lack of
    availability: the matched row replaced by its [merged_row], unless the
    row is gone or the uniqueness guard refuses the update. *)
Definition merge_store (id : ContactId) (existing : Existing.t)
    (conn : Connection.t) (forceUpdate : bool) (lastSyncedAt : string)
    (guard : bool) (cs : list Contact.t) : list Contact.t :=
  match find (Prisma.has_id id) cs with
  | None => cs
  | Some c =>
      let row := merged_row existing conn forceUpdate lastSyncedAt c in
      if guard &&
         Prisma.urn_taken (Contact.organizationId row) (Contact.stored_urn row)
           (Some id) cs
      then cs
      else Prisma.replace_row id row cs
  end.

(** The columns only the user manages. *)
Definition user_managed (c : Contact.t)
  : option string * option string * option string :=
  (Contact.leadStatus c, Contact.ownerId c, Contact.priority c).

(** A stored email without upper-case letters (or no email). *)
Definition email_lowercase (c : Contact.t) : Prop :=
  match Contact.email c with
  | Some e => JsString.no_upper e = true
  | None => True
  end.

(** The storage calls made between two worlds of one run. *)
Definition calls_since (w w' : World) : list (StorageCall * option Exn) :=
  skipn (List.length (trace w)) (trace w').

(** The writes of a contact (the activity log is a best-effort side
    effect, not a write of the record). *)
Definition is_write (call : StorageCall) : bool :=
  match call with
  | CreateContact | UpdateContact _ => true
  | _ => false
  end.

(** Between [w] and [w'] a write of the contact was rejected by storage. *)
Definition write_threw (w w' : World) : Prop :=
  exists call e, is_write call = true /\ In (call, Some e) (calls_since w w').

(** From [w] to [w'] the run has only read from storage: the tables, the
    clock and the guard are as they were, the trace has grown by calls
    that are no writes, and an exhausted failure schedule stays so. *)
Definition reads_only (w w' : World) : Prop :=
  contacts w' = contacts w
  /\ activities w' = activities w
  /\ clock w' = clock w
  /\ ticks w' = ticks w
  /\ unique_urn_guard w' = unique_urn_guard w
  /\ (faults w = [] -> faults w' = [])
  /\ exists reads,
       trace w' = (trace w ++ reads)%list
       /\ Forall (fun x => is_write (fst x) = false) reads.

Definition has_action (a : Action) (r : SyncResult.t) : bool :=
  match a, SyncResult.action r with
  | created, created | updated, updated | skipped, skipped => true
  | _, _ => false
  end.

(** How many outcomes carry the action [a]. *)
Definition count_action (a : Action) (rs : list SyncResult.t) : nat :=
  List.length (filter (has_action a) rs).

(** The contacts of [org] that hold the integration identifier [urn]. *)
Definition holders (org urn : string) (cs : list Contact.t) : list Contact.t :=
  filter (fun c => Prisma.in_org org c && Prisma.urn_is urn c) cs.

(** ** Sample data *)

Module Sample.

(** A clock that reads a new timestamp at every reading. *)
Definition clock (n : nat) : string := "2024-05-01T10:00:0" ++ JsString.of_nat n ++ ".000Z".

(** The payload of the specification's example. *)
Definition ada : Connection.t :=
  Connection.mk "7d444840-9dc0-11d1-b245-5ffdce74fad2" "u1" None "Ada Lovelace"
    None None None "https://www.linkedin.com/in/ada" None None None None None
    (Some "Ada@X.com") None "2024-05-01T09:00:00.000Z" None None
    JUndefined JUndefined.

(** A stored contact with a name, a job title, a photo and a headline, that
    holds the identifier [u1]. *)
Definition grace : Contact.t :=
  Contact.mk 1 "org-1" "Grace" "Hopper" (Some "Grace@Navy.mil") None
    (Some "Rear Admiral") (Some "https://www.linkedin.com/in/grace")
    (Some "https://img.example/grace.png") true None (Some "QUALIFIED")
    (Some "owner-7") (Some "HIGH")
    (JObj [("linkedinUrnId", JStr "u1"); ("linkedinHeadline", JStr "Compiler pioneer")]).

(** The same person, sent without an email and without a headline or a
    photo. *)
Definition ada_bare : Connection.t :=
  Connection.mk "7d444840-9dc0-11d1-b245-5ffdce74fad2" "u1" None "Ada Lovelace"
    None None None "https://www.linkedin.com/in/ada" None None None None None
    None None "2024-05-01T09:00:00.000Z" None None JUndefined JUndefined.

(** A second stored contact, known by its email only. *)
Definition bob : Contact.t :=
  Contact.mk 2 "org-1" "Bob" "Builder" (Some "ada@x.com") None None None None
    false None (Some "NEW") None None JNull.

(** A third stored contact that holds the identifier [u1] as well. *)
Definition twin : Contact.t :=
  Contact.mk 3 "org-1" "Grace" "Twin" None None None None None
    false None (Some "NEW") None None (JObj [("linkedinUrnId", JStr "u1")]).

(** Formats that accept every string: the schema then checks structure
    only. *)
Definition any_format : Zod.Formats :=
  Zod.mkFormats (fun _ => true) (fun _ => true) (fun _ => true).

(** The specification's example as a request body. *)
Definition ada_request (secret : string) : JsVal :=
  JObj [ ("webhook_secret", JStr secret);
         ("event_type", JStr "CONNECTION_ACCEPTED");
         ("timestamp", JStr "2024-05-01T09:00:01.000Z");
         ("source",
           JObj [ ("organization_id", JStr "org-1");
                  ("workspace_id", JStr "ws-1");
                  ("integration_id", JStr "int-1") ]);
         ("connection",
           JObj [ ("id", JStr "7d444840-9dc0-11d1-b245-5ffdce74fad2");
                  ("urn_id", JStr "u1");
                  ("name", JStr "Ada Lovelace");
                  ("profile_url", JStr "https://www.linkedin.com/in/ada");
                  ("email", JStr "Ada@X.com");
                  ("connected_on", JStr "2024-05-01T09:00:00.000Z") ]) ].

Definition world (cs : list Contact.t) (fs : list (option Exn)) (guard : bool)
  : World :=
  mkWorld cs [] fs clock 0 [] guard.

End Sample.

(* ===================================================================== *)
(** * Vocabulary of the further properties *)
(* ===================================================================== *)

(** ** Words and blanks of a name *)

(** Only whitespace. *)
Fixpoint all_ws (s : string) : bool :=
  match s with
  | EmptyString => true
  | String c r => JsString.is_ws c && all_ws r
  end.

(** No whitespace at all. *)
Fixpoint no_ws (s : string) : bool :=
  match s with
  | EmptyString => true
  | String c r => negb (JsString.is_ws c) && no_ws r
  end.

(** A word of a name: non-empty, no whitespace. *)
Definition is_word (s : string) : bool := JsString.truthy s && no_ws s.

(** A run of whitespace that separates two words. *)
Definition is_gap (s : string) : bool := JsString.truthy s && all_ws s.

(** The words [ws], each behind its gap. *)
Fixpoint spaced (ws : list (string * string)) : string :=
  match ws with
  | [] => EmptyString
  | (gap, word) :: r => gap ++ word ++ spaced r
  end.

(** ** Profile URLs *)

(** A text with its ASCII letters folded to lower case, as the [i] flag
    compares it. *)
Fixpoint ascii_fold (s : string) : string :=
  match s with
  | EmptyString => EmptyString
  | String c r => String (Regex.fold_case c) (ascii_fold r)
  end.

(** No code unit of [s] is the letter [a], in either case. *)
Fixpoint lacks (a : ascii) (s : string) : bool :=
  match s with
  | EmptyString => true
  | String c r => negb (Ascii.eqb (Regex.fold_case c) a) && lacks a r
  end.

(** What may follow the public identifier in a profile URL: nothing, or a
    [/], [?] or [#] and anything behind it. *)
Definition is_url_tail (s : string) : bool :=
  match s with
  | EmptyString => true
  | String c _ => Regex.is_delim c
  end.

(** The six spellings [getLinkedInUrlVariations] adds for a public
    identifier. *)
Definition spellings (publicId : string) : list string :=
  [ "https://www.linkedin.com/in/" ++ publicId;
    "https://linkedin.com/in/" ++ publicId;
    "http://www.linkedin.com/in/" ++ publicId;
    "http://linkedin.com/in/" ++ publicId;
    "https://www.linkedin.com/in/" ++ publicId ++ "/";
    "linkedin.com/in/" ++ publicId ].

(** ** Why a contact answers *)

(** Why the stored contact [c] answers a lookup of kind [kind] for the
    record [conn]. *)
Definition match_reason (kind : MatchType) (conn : Connection.t) (c : Contact.t)
  : Prop :=
  match kind with
  | URN_ID => Contact.stored_urn c = Some (Connection.urn_id conn)
  | LINKEDIN_URL =>
      exists u s,
        ContactMatcherService.normalizeLinkedInUrl
          (Some (Connection.profile_url conn)) (Connection.public_id conn) = Some u
        /\ Contact.linkedinUrl c = Some s
        /\ In s (ContactMatcherService.getLinkedInUrlVariations u)
  | EMAIL =>
      exists e,
        Connection.email conn = Some e
        /\ JsString.truthy e = true
        /\ Contact.email c = Some (JsString.toLowerCase e)
  | NEW => False
  end.

(** ** What a merge owns *)

(** The columns no merge assigns, besides the user-managed ones. *)
Definition merge_fixed (c : Contact.t)
  : ContactId * string * option string * bool * option string :=
  (Contact.id c, Contact.organizationId c, Contact.phone c, Contact.isLead c,
   Contact.leadSource c).

(** The keys of the custom fields that the sync owns. *)
Definition linkedin_keys : list string :=
  [ "linkedinUrnId"; "linkedinPublicId"; "linkedinConnected"; "linkedinHeadline";
    "linkedinLocation"; "linkedinProfilePhoto"; "linkedinIndustry"; "linkedinSkills";
    "linkedinLanguages"; "linkedinWorkExperience"; "linkedinEducation";
    "syncedFromOutreach"; "lastSyncedAt" ].

(** ** Payloads as request bodies *)

(** An optional list of strings as a value: [undefined] when absent. *)
Definition of_optional_strings (l : option (list string)) : JsVal :=
  match l with Some xs => Js.of_strings xs | None => JUndefined end.

(** The request body that carries a connection, key by key. *)
Definition connection_body (c : Connection.t) : Js.Obj :=
  [ ("id", JStr (Connection.id c));
    ("urn_id", JStr (Connection.urn_id c));
    ("public_id", Js.of_optional (Connection.public_id c));
    ("name", JStr (Connection.name c));
    ("first_name", Js.of_optional (Connection.first_name c));
    ("last_name", Js.of_optional (Connection.last_name c));
    ("headline", Js.of_optional (Connection.headline c));
    ("profile_url", JStr (Connection.profile_url c));
    ("profile_pic_url", Js.of_optional (Connection.profile_pic_url c));
    ("company", Js.of_optional (Connection.company c));
    ("job_title", Js.of_optional (Connection.job_title c));
    ("location", Js.of_optional (Connection.location c));
    ("industry", Js.of_optional (Connection.industry c));
    ("email", Js.of_optional (Connection.email c));
    ("phone", Js.of_optional (Connection.phone c));
    ("connected_on", JStr (Connection.connected_on c));
    ("skills", of_optional_strings (Connection.skills c));
    ("languages", of_optional_strings (Connection.languages c));
    ("work_experience", Connection.work_experience c);
    ("education", Connection.education c) ].

Definition source_body (s : Payload.Source) : Js.Obj :=
  [ ("organization_id", JStr (Payload.organization_id s));
    ("workspace_id", JStr (Payload.workspace_id s));
    ("integration_id", JStr (Payload.integration_id s));
    ("campaign_id", Js.of_optional (Payload.campaign_id s)) ].

Definition payload_body (p : Payload.t) : Js.Obj :=
  [ ("webhook_secret", JStr (Payload.webhook_secret p));
    ("event_type", JStr (Payload.event_type p));
    ("timestamp", JStr (Payload.timestamp p));
    ("source", JObj (source_body (Payload.source p)));
    ("connection", JObj (connection_body (Payload.connection p))) ].

(** Two objects hold the same value under every key of [keys]. *)
Definition agree_on (keys : list string) (a b : Js.Obj) : Prop :=
  Forall (fun k => Js.get a k = Js.get b k) keys.

(** The strings of a payload have the formats the schema asks for. *)
Definition well_formatted (fmt : Zod.Formats) (p : Payload.t) : Prop :=
  Payload.event_type p = "CONNECTION_ACCEPTED"
  /\ Zod.datetime fmt (Payload.timestamp p) = true
  /\ Zod.uuid fmt (Payload.organization_id (Payload.source p)) = true
  /\ Zod.uuid fmt (Payload.workspace_id (Payload.source p)) = true
  /\ Zod.uuid fmt (Payload.integration_id (Payload.source p)) = true
  /\ (forall c, Payload.campaign_id (Payload.source p) = Some c -> Zod.uuid fmt c = true)
  /\ Zod.uuid fmt (Connection.id (Payload.connection p)) = true
  /\ Zod.datetime fmt (Connection.connected_on (Payload.connection p)) = true
  /\ (forall e, Connection.email (Payload.connection p) = Some e ->
                Zod.email fmt e = true).

(** ** Request bodies of the login *)

(** The body is an object that holds a non-empty string under [key]. *)
Definition holds_string (body : JsVal) (key s : string) : Prop :=
  exists o, body = JObj o /\ Js.get o key = JStr s /\ s <> EmptyString.

(** ** Objects *)

(** [x || null] on an optional string: an empty string counts as absent. *)
Definition non_empty (o : option string) : option string := or_else o None.

(** The keys of an object, in their order. *)
Definition object_keys (o : Js.Obj) : list string := map fst o.

(** ** More sample data *)
Module Cases.

(** Somebody the store has never seen. *)
Definition zed : Connection.t :=
  Connection.mk "0a1b2c3d-0000-4000-8000-000000000001" "u9" None "Zed Shaw"
    None None None "https://www.linkedin.com/in/zed" None None None None None
    None None "2024-05-02T09:00:00.000Z" None None JUndefined JUndefined.

(** A record that comes with a Sales Navigator URL and no public id. *)
Definition lead : Connection.t :=
  Connection.mk "0a1b2c3d-0000-4000-8000-000000000002" "u7" None "Lea Lead"
    None None None "https://www.linkedin.com/sales/lead/ACwAAB7,NAME" None None None
    None None None None "2024-05-02T09:00:00.000Z" None None JUndefined JUndefined.

(** A stored contact with custom fields of its own and a list of skills. *)
Definition noted : Contact.t :=
  Contact.mk 1 "org-1" "Grace" "Hopper" None None None None None true None
    (Some "QUALIFIED") None None
    (JObj [ ("linkedinUrnId", JStr "u1");
            ("favouriteColour", JStr "teal");
            ("linkedinSkills", JArr [JStr "COBOL"]) ]).

Definition outage : Exn := JsError "Can't reach database server".

(** A token library that writes the lifetime and the secret into the
    token, and knows two tokens: a refresh token and an access token of
    the tenant [acme]. *)
Definition toy_jwt : Jwt.Lib :=
  Jwt.mkLib
    (fun _ secret expiresIn => Ok (expiresIn ++ ":" ++ secret))
    (fun token _ =>
       if String.eqb token "r-acme"
       then Ok (JObj [ ("sub", JStr "crm-user-acme"); ("tenant_id", JStr "acme");
                       ("type", JStr "refresh") ])
       else if String.eqb token "a-acme"
       then Ok (JObj [ ("sub", JStr "crm-user-acme"); ("tenant_id", JStr "acme");
                       ("type", JStr "access") ])
       else Throw (JsError "jwt malformed")).

Definition ada_payload : Payload.t :=
  Payload.mk "s3cret" "CONNECTION_ACCEPTED" "2024-05-01T09:00:01.000Z"
    (Payload.mkSource "org-1" "ws-1" "int-1" None) Sample.ada.

End Cases.

(* ===================================================================== *)
(** * Properties of URL normalization *)
(* ===================================================================== *)

Module RegexFacts.
Import Regex.

Lemma segment_no_delim (s : string) : no_delim s = true -> segment s = s.
Proof.
  induction s as [|c r IH]; simpl; [reflexivity|].
  intros H. apply andb_prop in H as [Hc Hr].
  apply negb_true_iff in Hc. rewrite Hc. now rewrite IH.
Qed.

Lemma segment_before_slash (s r : string) :
  no_delim s = true -> segment (s ++ String "/" r) = s.
Proof.
  induction s as [|c t IH]; simpl; [reflexivity|].
  intros H. apply andb_prop in H as [Hc Ht].
  apply negb_true_iff in Hc. rewrite Hc. now rewrite IH.
Qed.

Lemma no_delim_segment (s : string) : no_delim (segment s) = true.
Proof.
  induction s as [|c r IH]; simpl; [reflexivity|].
  destruct (is_delim c) eqn:E; simpl; [reflexivity|].
  now rewrite E, IH.
Qed.

Lemma match_group_skip (lit : string) (c : ascii) (s : string) :
  match_here lit (String c s) = None ->
  match_group lit (String c s) = match_group lit s.
Proof. intros H. simpl. now rewrite H. Qed.

Lemma match_group_hit (lit s seg : string) :
  match_here lit s = Some seg -> match_group lit s = Some seg.
Proof. intros H. destruct s; simpl; now rewrite H. Qed.

Lemma nonempty_segment (rest seg : string) :
  is_segment seg = true -> segment rest = seg ->
  match segment rest with EmptyString => None | x => Some x end = Some seg.
Proof. intros Hs ->. destruct seg; [discriminate|reflexivity]. Qed.

(** Capture group 1 is never empty and holds no delimiter. *)
Lemma match_here_is_segment (lit s g : string) :
  match_here lit s = Some g -> is_segment g = true.
Proof.
  unfold match_here. destruct (after_literal lit s) as [rest|]; [|discriminate].
  pose proof (no_delim_segment rest) as Hn.
  destruct (segment rest) eqn:E; [discriminate|].
  intros [= <-]. unfold is_segment. now rewrite Hn.
Qed.

Lemma match_group_is_segment (lit s g : string) :
  match_group lit s = Some g -> is_segment g = true.
Proof.
  induction s as [|c r IH]; simpl.
  - destruct (match_here lit "") eqn:E; [|discriminate].
    intros [= <-]. eapply match_here_is_segment; eassumption.
  - destruct (match_here lit (String c r)) eqn:E.
    + intros [= <-]. eapply match_here_is_segment; eassumption.
    + exact IH.
Qed.

End RegexFacts.

(** Walks a URL whose head is spelled out up to the place where the
    [/in/] pattern matches, and reads off the captured segment. *)
Ltac find_in_pattern H :=
  cbn [append];
  repeat (rewrite RegexFacts.match_group_skip by reflexivity);
  apply RegexFacts.match_group_hit;
  unfold Regex.match_here; cbn -[Regex.segment append];
  apply RegexFacts.nonempty_segment; [exact H|];
  first [ apply RegexFacts.segment_no_delim
        | apply RegexFacts.segment_before_slash ];
  unfold Regex.is_segment in H; apply andb_prop in H; tauto.

Section UrlNormalization.
Import ContactMatcherService.

Variable publicId : string.
Hypothesis Hseg : Regex.is_segment publicId = true.

Lemma in_pattern_canonical :
  Regex.match_group in_pattern (canonical_url publicId) = Some publicId.
Proof. unfold canonical_url. find_in_pattern Hseg. Qed.

Lemma in_pattern_https_bare :
  Regex.match_group in_pattern ("https://linkedin.com/in/" ++ publicId) = Some publicId.
Proof. find_in_pattern Hseg. Qed.

Lemma in_pattern_http_www :
  Regex.match_group in_pattern ("http://www.linkedin.com/in/" ++ publicId) = Some publicId.
Proof. find_in_pattern Hseg. Qed.

Lemma in_pattern_http_bare :
  Regex.match_group in_pattern ("http://linkedin.com/in/" ++ publicId) = Some publicId.
Proof. find_in_pattern Hseg. Qed.

Lemma in_pattern_trailing_slash :
  Regex.match_group in_pattern ("https://www.linkedin.com/in/" ++ publicId ++ "/")
  = Some publicId.
Proof. find_in_pattern Hseg. Qed.

Lemma in_pattern_schemeless :
  Regex.match_group in_pattern ("linkedin.com/in/" ++ publicId) = Some publicId.
Proof. find_in_pattern Hseg. Qed.

(** A URL in which the [/in/] pattern finds [publicId] normalizes to the
    canonical URL of [publicId]. *)
Lemma normalize_of_in_match (u : string) :
  Regex.match_group in_pattern u = Some publicId ->
  normalizeLinkedInUrl (Some u) None = Some (canonical_url publicId).
Proof.
  intros H. unfold normalizeLinkedInUrl. simpl.
  destruct u as [|c r]; simpl.
  - discriminate H.
  - simpl in H. now rewrite H.
Qed.

End UrlNormalization.

Lemma dedup_subset (xs seen : list string) (x : string) :
  In x (ContactMatcherService.dedup seen xs) -> In x xs.
Proof.
  revert seen. induction xs as [|y r IH]; simpl; intros seen; [tauto|].
  destruct (existsb (String.eqb y) seen).
  - intros H. right. eapply IH; eassumption.
  - intros [H|H]; [now left|right; eapply IH; eassumption].
Qed.

(** C8. URL normalization is idempotent: the canonical URL of a public
    identifier (a non-empty path segment) normalizes to itself, and every
    variation that [getLinkedInUrlVariations] generates from it normalizes
    back to it. *)
Theorem C8_normalization_idempotent (publicId : string) :
  Regex.is_segment publicId = true ->
  ContactMatcherService.normalizeLinkedInUrl
    (Some (ContactMatcherService.canonical_url publicId)) None
  = Some (ContactMatcherService.canonical_url publicId)
  /\ Forall (fun v =>
       ContactMatcherService.normalizeLinkedInUrl (Some v) None
       = Some (ContactMatcherService.canonical_url publicId))
     (ContactMatcherService.getLinkedInUrlVariations
        (ContactMatcherService.canonical_url publicId)).
Proof.
  intros Hseg. split.
  - apply normalize_of_in_match, in_pattern_canonical, Hseg.
  - apply Forall_forall. intros v Hv.
    unfold ContactMatcherService.getLinkedInUrlVariations in Hv.
    apply dedup_subset in Hv.
    rewrite (in_pattern_canonical publicId Hseg) in Hv.
    apply normalize_of_in_match.
    simpl in Hv.
    destruct Hv as [<-|[<-|[<-|[<-|[<-|[<-|[<-|[]]]]]]]].
    + apply in_pattern_canonical, Hseg.
    + apply in_pattern_canonical, Hseg.
    + apply in_pattern_https_bare, Hseg.
    + apply in_pattern_http_www, Hseg.
    + apply in_pattern_http_bare, Hseg.
    + apply in_pattern_trailing_slash, Hseg.
    + apply in_pattern_schemeless, Hseg.
Qed.

Lemma C8_normalization_idempotent_witness :
  Regex.is_segment "ada" = true
  /\ ContactMatcherService.getLinkedInUrlVariations
       (ContactMatcherService.canonical_url "ada")
     = [ "https://www.linkedin.com/in/ada"; "https://linkedin.com/in/ada";
         "http://www.linkedin.com/in/ada"; "http://linkedin.com/in/ada";
         "https://www.linkedin.com/in/ada/"; "linkedin.com/in/ada" ]
  /\ Forall (fun v =>
       ContactMatcherService.normalizeLinkedInUrl (Some v) None
       = Some "https://www.linkedin.com/in/ada")
     (ContactMatcherService.getLinkedInUrlVariations
        (ContactMatcherService.canonical_url "ada")).
Proof.
  split; [reflexivity|]. split; [reflexivity|].
  exact (proj2 (C8_normalization_idempotent "ada" eq_refl)).
Defined.

(** Normalizing twice is normalizing once, for every profile URL (no
    public identifier given): a URL that a pattern rewrites becomes
    canonical, a URL that no pattern matches is returned as it is. *)
Lemma normalize_twice (profileUrl : string) :
  match ContactMatcherService.normalizeLinkedInUrl (Some profileUrl) None with
  | Some u => ContactMatcherService.normalizeLinkedInUrl (Some u) None = Some u
  | None => True
  end.
Proof.
  destruct (ContactMatcherService.normalizeLinkedInUrl (Some profileUrl) None)
    as [u|] eqn:E; [|exact I].
  unfold ContactMatcherService.normalizeLinkedInUrl in E.
  cbn [JsString.truthy_opt] in E.
  destruct (JsString.truthy profileUrl) eqn:Ht; cbn [negb] in E; [|discriminate E].
  destruct (ContactMatcherService.first_pattern_match
              [ContactMatcherService.in_pattern;
               ContactMatcherService.sales_lead_pattern;
               ContactMatcherService.sales_people_pattern] profileUrl)
    as [g|] eqn:Ep; injection E as <-.
  - assert (Hg : Regex.is_segment g = true).
    { cbn [ContactMatcherService.first_pattern_match] in Ep.
      repeat match type of Ep with
             | match ?m with _ => _ end = _ =>
                 let Em := fresh "Em" in
                 destruct m eqn:Em;
                 [ injection Ep as <-; eapply RegexFacts.match_group_is_segment;
                   exact Em | ]
             end.
      discriminate Ep. }
    apply normalize_of_in_match, in_pattern_canonical, Hg.
  - unfold ContactMatcherService.normalizeLinkedInUrl.
    cbn [JsString.truthy_opt]. now rewrite Ht, Ep.
Qed.

(* ===================================================================== *)
(** * What the storage client does with the merge data *)
(* ===================================================================== *)

(** Unfolds the monad down to the world it threads. *)
Ltac exec :=
  unfold bind, try_catch, ret, throw, get_world, modify, storage, now_iso in *;
  cbn [fst snd contacts activities faults clock ticks trace unique_urn_guard
       set_contacts set_activities set_ticks set_faults log_call hd tl] in *.

Module PrismaFacts.
Import Prisma.

Lemma nullable_or_optional (a b : option string)
    (set : option string -> Contact.t -> Contact.t) (c : Contact.t) :
  nullable_string (Js.or (Js.of_optional a) (Js.of_nullable b)) set c
  = Some (set (or_else a b) c).
Proof. destruct a as [[|x a]|], b as [b|]; reflexivity. Qed.

Lemma nullable_or_nullable (a b : option string)
    (set : option string -> Contact.t -> Contact.t) (c : Contact.t) :
  nullable_string (Js.or (Js.of_nullable a) (Js.of_nullable b)) set c
  = Some (set (or_else a b) c).
Proof. destruct a as [[|x a]|], b as [b|]; reflexivity. Qed.

Lemma nullable_or_lower (a b : option string)
    (set : option string -> Contact.t -> Contact.t) (c : Contact.t) :
  nullable_string (Js.or (ContactMergerService.lower_email a) (Js.of_nullable b)) set c
  = Some (set (or_else (option_map JsString.toLowerCase a) b) c).
Proof. destruct a as [[|x a]|], b as [b|]; reflexivity. Qed.

Lemma nullable_optional (a : option string)
    (set : option string -> Contact.t -> Contact.t) (c : Contact.t) :
  nullable_string (Js.of_optional a) set c
  = Some (match a with Some s => set (Some s) c | None => c end).
Proof. destruct a; reflexivity. Qed.

(** The update data of a merge is always accepted by the client, and the
    row it produces is [merged_row]. *)
Lemma merge_data_applied (ex : Existing.t) (conn : Connection.t) (f : bool)
    (t : string) (c : Contact.t) :
  apply_data (ContactMergerService.merge_updateData ex conn f t (Some c)) c
  = Some (merged_row ex conn f t c).
Proof.
  unfold ContactMergerService.merge_updateData,
    ContactMergerService.merge_updateData_basic, merged_row, resolved_name.
  destruct (ContactMergerService.parseName _ _ _) as [fn ln].
  cbn [ContactMergerService.current_jobTitle fst snd].
  destruct (f || negb (JsString.truthy (Existing.firstName ex)));
  destruct (f || negb (JsString.truthy (Existing.lastName ex)));
  destruct (f || negb (JsString.truthy_opt (Existing.email ex)));
  destruct (f || negb (JsString.truthy_opt (Contact.jobTitle c)));
  cbn [ContactMergerService.set_if Js.set String.eqb Ascii.eqb Bool.eqb
       apply_data column_update];
  rewrite ?nullable_or_optional, ?nullable_or_nullable, ?nullable_or_lower;
  cbn [required_string apply_data column_update String.eqb Ascii.eqb Bool.eqb];
  rewrite ?nullable_or_optional, ?nullable_or_nullable, ?nullable_or_lower,
    ?nullable_optional;
  try destruct (Connection.job_title conn);
  reflexivity.
Qed.

(** The keys a merge can assign: nothing else is in its update data. *)
Lemma merge_data_keys (ex : Existing.t) (conn : Connection.t) (f : bool)
    (t : string) (jt : option Contact.t) (k : string) :
  Js.has (ContactMergerService.merge_updateData ex conn f t jt) k = true ->
  In k ["profileImageUrl"; "linkedinUrl"; "firstName"; "lastName"; "email";
        "jobTitle"; "customFields"].
Proof.
  unfold ContactMergerService.merge_updateData,
    ContactMergerService.merge_updateData_basic.
  destruct (ContactMergerService.parseName _ _ _) as [fn ln].
  destruct (f || negb (JsString.truthy (Existing.firstName ex)));
  destruct (f || negb (JsString.truthy (Existing.lastName ex)));
  destruct (f || negb (JsString.truthy_opt (Existing.email ex)));
  destruct (f || negb (JsString.truthy_opt
                         (ContactMergerService.current_jobTitle jt)));
  cbn [ContactMergerService.set_if Js.set String.eqb Ascii.eqb Bool.eqb];
  cbn [Js.has];
  intros H;
  repeat (apply orb_prop in H as [H|H];
          [apply String.eqb_eq in H; subst k; simpl; tauto|]);
  discriminate H.
Qed.

Lemma merged_row_id ex conn f t c :
  Contact.id (merged_row ex conn f t c) = Contact.id c.
Proof. reflexivity. Qed.

Lemma merged_row_organizationId ex conn f t c :
  Contact.organizationId (merged_row ex conn f t c) = Contact.organizationId c.
Proof. reflexivity. Qed.

Lemma merged_row_user_managed ex conn f t c :
  user_managed (merged_row ex conn f t c) = user_managed c.
Proof. reflexivity. Qed.

Lemma merged_row_firstName ex conn f t c :
  Contact.firstName (merged_row ex conn f t c)
  = if f || negb (JsString.truthy (Existing.firstName ex))
    then fst (resolved_name conn) else Contact.firstName c.
Proof. reflexivity. Qed.

Lemma merged_row_lastName ex conn f t c :
  Contact.lastName (merged_row ex conn f t c)
  = if f || negb (JsString.truthy (Existing.lastName ex))
    then snd (resolved_name conn) else Contact.lastName c.
Proof. reflexivity. Qed.

Lemma merged_row_email ex conn f t c :
  Contact.email (merged_row ex conn f t c)
  = if f || negb (JsString.truthy_opt (Existing.email ex))
    then or_else (option_map JsString.toLowerCase (Connection.email conn))
                 (Existing.email ex)
    else Contact.email c.
Proof. reflexivity. Qed.

Lemma merged_row_jobTitle ex conn f t c :
  Contact.jobTitle (merged_row ex conn f t c)
  = if f || negb (JsString.truthy_opt (Contact.jobTitle c))
    then match Connection.job_title conn with
         | Some j => Some j
         | None => Contact.jobTitle c
         end
    else Contact.jobTitle c.
Proof. reflexivity. Qed.

Lemma merged_row_profileImageUrl ex conn f t c :
  Contact.profileImageUrl (merged_row ex conn f t c)
  = or_else (Connection.profile_pic_url conn) (Existing.linkedinUrl ex).
Proof. reflexivity. Qed.

Lemma merged_row_customFields ex conn f t c :
  Contact.customFields (merged_row ex conn f t c)
  = Js.to_json
      (JObj (ContactMergerService.merge_linkedinData
               (Js.or (Existing.customFields ex) (JObj [])) conn t)).
Proof. reflexivity. Qed.

Lemma find_has_id (id : ContactId) (cs : list Contact.t) (c : Contact.t) :
  find (has_id id) cs = Some c -> Contact.id c = id /\ In c cs.
Proof.
  intros H. apply find_some in H as [Hin Hid].
  split; [now apply Nat.eqb_eq in Hid|assumption].
Qed.

Lemma find_replace_row (id : ContactId) (row c : Contact.t) (cs : list Contact.t) :
  find (has_id id) cs = Some c -> Contact.id row = id ->
  find (has_id id) (replace_row id row cs) = Some row.
Proof.
  intros Hf Hid. induction cs as [|d r IH]; simpl in *; [discriminate|].
  destruct (has_id id d) eqn:E; simpl.
  - unfold has_id. now rewrite Hid, Nat.eqb_refl.
  - rewrite E. auto.
Qed.

Lemma replace_row_length (id : ContactId) (row : Contact.t) (cs : list Contact.t) :
  List.length (replace_row id row cs) = List.length cs.
Proof.
  induction cs as [|d r IH]; simpl; [reflexivity|].
  destruct (has_id id d); simpl; congruence.
Qed.

Lemma replace_row_twice (id : ContactId) (row1 row2 : Contact.t)
    (cs : list Contact.t) :
  Contact.id row1 = id ->
  replace_row id row2 (replace_row id row1 cs) = replace_row id row2 cs.
Proof.
  intros Hid. induction cs as [|d r IH]; simpl; [reflexivity|].
  destruct (has_id id d) eqn:E; simpl.
  - unfold has_id. now rewrite Hid, Nat.eqb_refl.
  - now rewrite E, IH.
Qed.

(** Replacing the found row by one with the same image under [g] leaves the
    image of the table under [g] as it was. *)
Lemma map_replace_row {A} (g : Contact.t -> A) (id : ContactId)
    (row c : Contact.t) (cs : list Contact.t) :
  find (has_id id) cs = Some c -> g row = g c ->
  map g (replace_row id row cs) = map g cs.
Proof.
  intros Hf Hg. induction cs as [|d r IH]; simpl in *; [reflexivity|].
  destruct (has_id id d) eqn:E; simpl.
  - injection Hf as ->. now rewrite Hg.
  - now rewrite IH.
Qed.

Lemma in_replace_row (id : ContactId) (row d : Contact.t) (cs : list Contact.t) :
  In d (replace_row id row cs) -> d = row \/ In d cs.
Proof.
  induction cs as [|x r IH]; simpl; [tauto|].
  destruct (has_id id x); simpl; intros [H|H]; auto.
  destruct (IH H); auto.
Qed.

End PrismaFacts.

(* ===================================================================== *)
(** * The effect of one merge and of one create *)
(* ===================================================================== *)

Ltac skip_case := repeat split; first [reflexivity | eexists; reflexivity].

(** A merge either reports [skipped] with an error and leaves the contacts
    as they were, or replaces the matched row by its [merged_row] and
    reports [updated]. *)
Lemma mergeContact_effect (m : MatchResult.t) (conn : Connection.t) (f : bool)
    (w : World) :
  exists res,
    fst (ContactMergerService.mergeContact m conn f w) = Ok res
    /\ ((SyncResult.action res = skipped /\ SyncResult.success res = false
         /\ (exists msg, SyncResult.error res = Some msg)
         /\ contacts (snd (ContactMergerService.mergeContact m conn f w))
            = contacts w)
        \/ (exists id existing c,
              MatchResult.contact_id m = Some id
              /\ MatchResult.existing_data m = Some existing
              /\ find (Prisma.has_id id) (contacts w) = Some c
              /\ contacts (snd (ContactMergerService.mergeContact m conn f w))
                 = Prisma.replace_row id
                     (merged_row existing conn f (clock w (ticks w)) c)
                     (contacts w)
              /\ SyncResult.action res = updated
              /\ SyncResult.success res = true
              /\ SyncResult.contact_id res = Some id
              /\ SyncResult.match_type res = MatchResult.match_type m)).
Proof.
  unfold ContactMergerService.mergeContact.
  destruct (MatchResult.contact_id m) as [id|] eqn:Hid;
    [destruct (MatchResult.existing_data m) as [existing|] eqn:Hex|].
  2,3: (eexists; split; [reflexivity|left; skip_case]).
  unfold Prisma.contact_findUnique, Prisma.contact_update.
  destruct (ContactMergerService.parseName _ _ _) as [fn ln].
  exec.
  destruct (hd None (faults w)) as [e|] eqn:F1; exec.
  { eexists; split; [reflexivity|left; skip_case]. }
  destruct (hd None (tl (faults w))) as [e|] eqn:F2; exec.
  { eexists; split; [reflexivity|left; skip_case]. }
  destruct (find (Prisma.has_id id) (contacts w)) as [c|] eqn:Hf; exec.
  2: { eexists; split; [reflexivity|left; skip_case]. }
  rewrite PrismaFacts.merge_data_applied.
  destruct (unique_urn_guard w && _) eqn:G; exec.
  { eexists; split; [reflexivity|left; skip_case]. }
  eexists; split; [reflexivity|right].
  exists id, existing, c. repeat split; auto.
Qed.

(** A create either reports [skipped] with an error and leaves the contacts
    as they were, or appends one row and reports [created]. *)
Lemma createContact_effect (org : string) (conn : Connection.t) (w : World) :
  exists res,
    fst (ContactMergerService.createContact org conn w) = Ok res
    /\ ((SyncResult.action res = skipped /\ SyncResult.success res = false
         /\ (exists msg, SyncResult.error res = Some msg)
         /\ contacts (snd (ContactMergerService.createContact org conn w))
            = contacts w)
        \/ (let row :=
              Prisma.new_row (Prisma.next_id (contacts w))
                (ContactMergerService.create_data org conn (clock w (ticks w))) in
            contacts (snd (ContactMergerService.createContact org conn w))
            = (contacts w ++ [row])%list
            /\ SyncResult.action res = created
            /\ SyncResult.success res = true
            /\ SyncResult.contact_id res = Some (Contact.id row)
            /\ SyncResult.match_type res = Some NEW)).
Proof.
  unfold ContactMergerService.createContact, Prisma.contact_create.
  destruct (ContactMergerService.parseName _ _ _) as [fn ln].
  exec.
  destruct (hd None (faults w)) as [e|] eqn:F1; exec.
  { eexists; split; [reflexivity|left; skip_case]. }
  destruct (unique_urn_guard w && _) eqn:G; exec.
  { eexists; split; [reflexivity|left; skip_case]. }
  eexists; split; [reflexivity|right]. repeat split.
Qed.

(* ===================================================================== *)
(** * Merge policy: user-managed and basic identity fields *)
(* ===================================================================== *)

(** C5. A merge never writes the user-managed columns: lead status, owner
    and priority of every stored contact are the same before and after
    any [mergeContact] call, whatever the flag, and the data handed to
    [prisma.contact.update] has no entry for any of the three.  A create
    leaves every contact that was stored before as it was. *)
Theorem C5_user_managed_untouched (m : MatchResult.t) (conn : Connection.t)
    (forceUpdate : bool) (w : World) :
  map user_managed
      (contacts (snd (ContactMergerService.mergeContact m conn forceUpdate w)))
  = map user_managed (contacts w)
  /\ (forall existing lastSyncedAt currentJobTitle,
         let data :=
           ContactMergerService.merge_updateData existing conn forceUpdate
             lastSyncedAt currentJobTitle in
         Js.has data "leadStatus" = false
         /\ Js.has data "ownerId" = false
         /\ Js.has data "priority" = false)
  /\ (forall org,
         firstn (List.length (contacts w))
                (contacts (snd (ContactMergerService.createContact org conn w)))
         = contacts w).
Proof.
  split; [|split].
  - destruct (mergeContact_effect m conn forceUpdate w)
      as (res & _ & [(_ & _ & _ & ->)|(id & ex & c & _ & _ & Hf & -> & _)]).
    + reflexivity.
    + apply PrismaFacts.map_replace_row with (c := c); [exact Hf|].
      apply PrismaFacts.merged_row_user_managed.
  - intros existing t jt data. unfold data.
    repeat split;
      match goal with
      | |- Js.has ?d ?k = false =>
          destruct (Js.has d k) eqn:E; [|reflexivity];
          apply PrismaFacts.merge_data_keys in E; simpl in E;
          repeat (destruct E as [E|E]; [discriminate E|]); destruct E
      end.
  - intros org.
    destruct (createContact_effect org conn w)
      as (res & _ & [(_ & _ & _ & ->)|(-> & _)]).
    + apply firstn_all.
    + rewrite firstn_app, firstn_all, Nat.sub_diag. simpl. apply app_nil_r.
Qed.

(** C4. Basic identity fields change only when the stored value is empty
    or [forceUpdate] is set.  [c] is the stored contact the match hands to
    the merge; [c'] is the row stored under its id afterwards.  With
    [forceUpdate = false] a non-empty first name stays; with
    [forceUpdate = true] a merge that reports [updated] stores the inbound
    (or parsed) first name. *)
Theorem C4_basic_identity_fields (w : World) (c : Contact.t) (kind : MatchType)
    (conn : Connection.t) (forceUpdate : bool) :
  find (Prisma.has_id (Contact.id c)) (contacts w) = Some c ->
  let run :=
    ContactMergerService.mergeContact
      (ContactMatcherService.hit kind (ContactMatcherService.as_existing c))
      conn forceUpdate w in
  exists res c',
    fst run = Ok res
    /\ find (Prisma.has_id (Contact.id c)) (contacts (snd run)) = Some c'
    /\ (Contact.firstName c' <> Contact.firstName c ->
        forceUpdate = true \/ Contact.firstName c = EmptyString)
    /\ (Contact.lastName c' <> Contact.lastName c ->
        forceUpdate = true \/ Contact.lastName c = EmptyString)
    /\ (Contact.email c' <> Contact.email c ->
        forceUpdate = true \/ JsString.truthy_opt (Contact.email c) = false)
    /\ (Contact.jobTitle c' <> Contact.jobTitle c ->
        forceUpdate = true \/ JsString.truthy_opt (Contact.jobTitle c) = false)
    /\ (forceUpdate = false -> Contact.firstName c <> EmptyString ->
        Contact.firstName c' = Contact.firstName c)
    /\ (forceUpdate = true -> SyncResult.action res = updated ->
        Contact.firstName c' = fst (resolved_name conn)).
Proof.
  intros Hc run. subst run.
  destruct (mergeContact_effect
              (ContactMatcherService.hit kind (ContactMatcherService.as_existing c))
              conn forceUpdate w)
    as (res & Hres & [(Hact & _ & _ & Hcs)|(id & ex & c0 & Hid & Hex & Hf & Hcs & Hact & _)]).
  - exists res, c. rewrite Hcs.
    repeat split; try congruence; try (intros H; now destruct H).
  - simpl in Hid, Hex. injection Hid as <-. injection Hex as <-.
    rewrite Hc in Hf. injection Hf as <-.
    exists res, (merged_row (ContactMatcherService.as_existing c) conn forceUpdate
                   (clock w (ticks w)) c).
    split; [exact Hres|]. split.
    { rewrite Hcs. apply PrismaFacts.find_replace_row with (c := c); [exact Hc|].
      apply PrismaFacts.merged_row_id. }
    rewrite PrismaFacts.merged_row_firstName, PrismaFacts.merged_row_lastName,
      PrismaFacts.merged_row_email, PrismaFacts.merged_row_jobTitle.
    cbn [ContactMatcherService.as_existing Existing.of_contact Existing.firstName
         Existing.lastName Existing.email].
    destruct forceUpdate; cbn [orb].
    + repeat split; auto; discriminate.
    + repeat split; try discriminate.
      * destruct (JsString.truthy (Contact.firstName c)) eqn:E; cbn [negb];
          [tauto|]. right. now destruct (Contact.firstName c).
      * destruct (JsString.truthy (Contact.lastName c)) eqn:E; cbn [negb];
          [tauto|]. right. now destruct (Contact.lastName c).
      * destruct (JsString.truthy_opt (Contact.email c)) eqn:E; cbn [negb]; tauto.
      * destruct (JsString.truthy_opt (Contact.jobTitle c)) eqn:E; cbn [negb]; tauto.
      * intros _ Hne. destruct (Contact.firstName c); [now destruct Hne|reflexivity].
Qed.

Lemma C4_basic_identity_fields_witness :
  find (Prisma.has_id 1) (contacts (Sample.world [Sample.grace] [] false))
  = Some Sample.grace
  /\ (exists kept overwritten,
         find (Prisma.has_id 1)
           (contacts (snd (ContactMergerService.mergeContact
                             (ContactMatcherService.hit URN_ID
                                (ContactMatcherService.as_existing Sample.grace))
                             Sample.ada false
                             (Sample.world [Sample.grace] [] false))))
         = Some kept
         /\ Contact.firstName kept = "Grace"
         /\ find (Prisma.has_id 1)
              (contacts (snd (ContactMergerService.mergeContact
                                (ContactMatcherService.hit URN_ID
                                   (ContactMatcherService.as_existing Sample.grace))
                                Sample.ada true
                                (Sample.world [Sample.grace] [] false))))
            = Some overwritten
         /\ Contact.firstName overwritten = "Ada").
Proof.
  split; [reflexivity|].
  destruct (C4_basic_identity_fields (Sample.world [Sample.grace] [] false)
              Sample.grace URN_ID Sample.ada false eq_refl)
    as (r1 & kept & _ & Hkept & _ & _ & _ & _ & Hstay & _).
  destruct (C4_basic_identity_fields (Sample.world [Sample.grace] [] false)
              Sample.grace URN_ID Sample.ada true eq_refl)
    as (r2 & over & Hr2 & Hover & _ & _ & _ & _ & _ & Hforce).
  exists kept, over. repeat split.
  - exact Hkept.
  - apply Hstay; [reflexivity|discriminate].
  - exact Hover.
  - apply Hforce; [reflexivity|].
    vm_compute in Hr2. now injection Hr2 as <-.
Defined.

(* ===================================================================== *)
(** * Stored emails *)
(* ===================================================================== *)

Module JsStringFacts.
Import JsString.

Lemma lower_char_not_upper (c : ascii) : is_upper (lower_char c) = false.
Proof. destruct c as [[] [] [] [] [] [] [] []]; reflexivity. Qed.

Lemma toLowerCase_no_upper (s : string) : no_upper (toLowerCase s) = true.
Proof.
  induction s as [|c r IH]; simpl; [reflexivity|].
  now rewrite lower_char_not_upper, IH.
Qed.

Lemma toLowerCase_fixed (s : string) : no_upper s = true -> toLowerCase s = s.
Proof.
  induction s as [|c r IH]; simpl; [reflexivity|].
  intros H. apply andb_prop in H as [Hc Hr].
  unfold lower_char. apply negb_true_iff in Hc. rewrite Hc. now rewrite IH.
Qed.

End JsStringFacts.

(** The email column of a new row: the lowercased inbound email, or null. *)
Lemma created_email (org : string) (conn : Connection.t) (t : string) (id : ContactId) :
  Contact.email (Prisma.new_row id (ContactMergerService.create_data org conn t))
  = ContactMergerService.or_null (ContactMergerService.lower_email (Connection.email conn))
  /\ email_lowercase (Prisma.new_row id (ContactMergerService.create_data org conn t)).
Proof.
  unfold ContactMergerService.create_data, email_lowercase.
  destruct (ContactMergerService.parseName _ _ _) as [fn ln].
  cbn [Prisma.new_row Contact.email ContactCreateInput.email].
  split; [reflexivity|].
  destruct (Connection.email conn) as [e|]; simpl; [|exact I].
  destruct (JsString.truthy (JsString.toLowerCase e)); [|exact I].
  apply JsStringFacts.toLowerCase_no_upper.
Qed.

(** The email column of a merged row: what it was, or the lowercased
    inbound email. *)
Lemma merged_email (c : Contact.t) (conn : Connection.t) (f : bool) (t : string) :
  let c' := merged_row (ContactMatcherService.as_existing c) conn f t c in
  Contact.email c' = Contact.email c
  \/ (exists e, Connection.email conn = Some e
                /\ Contact.email c' = Some (JsString.toLowerCase e)).
Proof.
  intros c'. unfold c'. rewrite PrismaFacts.merged_row_email.
  cbn [ContactMatcherService.as_existing Existing.of_contact Existing.email].
  destruct (f || negb (JsString.truthy_opt (Contact.email c))); [|now left].
  unfold or_else.
  destruct (Connection.email conn) as [e|]; simpl; [|now left].
  destruct (JsString.truthy (JsString.toLowerCase e)); [|now left].
  right. now exists e.
Qed.

(** C10 (as amended).  Every email that [createContact] or [mergeContact]
    takes from the inbound record is lowercased before it is stored.  A
    create stores the lowercased inbound email, or null when there is
    none.  A merge leaves the stored email as it was or replaces it by the
    lowercased inbound email; when the inbound email is absent the value
    it writes, if any, is the contact's existing email, unchanged.  Hence
    a store whose emails have no upper-case letter stays so, and on such a
    contact [matchByEmail] finds an inbound email that differs by case
    only. *)
Theorem C10_emails_lowercased (w : World) (conn : Connection.t) :
  (forall org,
      let w' := snd (ContactMergerService.createContact org conn w) in
      (contacts w' = contacts w
       \/ exists row,
            contacts w' = (contacts w ++ [row])%list
            /\ Contact.email row
               = ContactMergerService.or_null
                   (ContactMergerService.lower_email (Connection.email conn))
            /\ email_lowercase row)
      /\ (Forall email_lowercase (contacts w) -> Forall email_lowercase (contacts w')))
  /\ (forall c kind forceUpdate,
         find (Prisma.has_id (Contact.id c)) (contacts w) = Some c ->
         let w' :=
           snd (ContactMergerService.mergeContact
                  (ContactMatcherService.hit kind (ContactMatcherService.as_existing c))
                  conn forceUpdate w) in
         exists c',
           find (Prisma.has_id (Contact.id c)) (contacts w') = Some c'
           /\ (Contact.email c' = Contact.email c
               \/ exists e, Connection.email conn = Some e
                            /\ Contact.email c' = Some (JsString.toLowerCase e))
           /\ (Forall email_lowercase (contacts w) ->
               Forall email_lowercase (contacts w')))
  /\ (forall org c stored inbound,
         In c (contacts w) ->
         Contact.organizationId c = org ->
         Contact.email c = Some stored ->
         JsString.no_upper stored = true ->
         JsString.toLowerCase inbound = JsString.toLowerCase stored ->
         hd None (faults w) = None ->
         exists m,
           fst (ContactMatcherService.matchByEmail org inbound w) = Ok (Some m)
           /\ Existing.email m = Some stored).
Proof.
  split; [|split].
  - intros org w'. subst w'.
    destruct (createContact_effect org conn w)
      as (res & _ & [(_ & _ & _ & ->)|(-> & _)]).
    + split; [now left|auto].
    + destruct (created_email org conn (clock w (ticks w))
                  (Prisma.next_id (contacts w))) as [He Hl].
      split.
      * right. eexists. split; [reflexivity|]. split; assumption.
      * intros Hall. apply Forall_app. split; [exact Hall|].
        constructor; [exact Hl|constructor].
  - intros c kind f Hc w'. subst w'.
    destruct (mergeContact_effect
                (ContactMatcherService.hit kind (ContactMatcherService.as_existing c))
                conn f w)
      as (res & _ & [(_ & _ & _ & ->)|(id & ex & c0 & Hid & Hex & Hf & -> & _)]).
    + exists c. repeat split; auto.
    + simpl in Hid, Hex. injection Hid as <-. injection Hex as <-.
      rewrite Hc in Hf. injection Hf as <-.
      eexists. split.
      { apply PrismaFacts.find_replace_row with (c := c); [exact Hc|].
        apply PrismaFacts.merged_row_id. }
      split; [apply merged_email|].
      intros Hall. apply Forall_forall. intros d Hd.
      apply PrismaFacts.in_replace_row in Hd as [->|Hd].
      * pose proof (merged_email c conn f (clock w (ticks w))) as [He|(e & _ & He)];
          cbv zeta in He; unfold email_lowercase; rewrite He.
        -- apply PrismaFacts.find_has_id in Hc as [_ Hin].
           rewrite Forall_forall in Hall. exact (Hall c Hin).
        -- apply JsStringFacts.toLowerCase_no_upper.
      * rewrite Forall_forall in Hall. exact (Hall d Hd).
  - intros org c stored inbound Hin Horg Hemail Hlow Heq Hfault.
    unfold ContactMatcherService.matchByEmail, Prisma.contact_findFirst_by_email.
    exec. rewrite Hfault. exec.
    rewrite Heq, (JsStringFacts.toLowerCase_fixed stored Hlow).
    destruct (find (fun c0 => Prisma.in_org org c0 && Prisma.email_is stored c0)
                   (contacts w)) as [c0|] eqn:Hf.
    + eexists. split; [reflexivity|].
      apply find_some in Hf as [_ Hp]. apply andb_prop in Hp as [_ Hp].
      unfold Prisma.email_is in Hp. simpl.
      destruct (Contact.email c0) as [e0|]; [|discriminate].
      now apply String.eqb_eq in Hp as ->.
    + exfalso. pose proof (find_none _ _ Hf c Hin) as Hp. simpl in Hp.
      unfold Prisma.in_org, Prisma.email_is in Hp.
      rewrite Horg, Hemail, !String.eqb_refl in Hp. discriminate.
Qed.

Lemma C10_counterexample :
  let w := Sample.world [Sample.grace] [] false in
  let existing := ContactMatcherService.as_existing Sample.grace in
  let run :=
    ContactMergerService.mergeContact (ContactMatcherService.hit URN_ID existing)
      Sample.ada_bare true w in
  Js.get (ContactMergerService.merge_updateData existing Sample.ada_bare true
            (Sample.clock 0) (Some Sample.grace)) "email"
  = JStr "Grace@Navy.mil"
  /\ fst run
     = Ok (SyncResult.mk true updated (Some 1) (Some URN_ID)
             (Some "Updated existing contact: Ada Lovelace") None)
  /\ map Contact.email (contacts (snd run)) = [Some "Grace@Navy.mil"]
  /\ JsString.no_upper "Grace@Navy.mil" = false.
Proof. repeat split. Qed.

Lemma C10_emails_lowercased_witness :
  find (Prisma.has_id 1) (contacts (Sample.world [Sample.grace; Sample.bob] [] false))
  = Some Sample.grace
  /\ (exists c',
         find (Prisma.has_id 1)
           (contacts (snd (ContactMergerService.mergeContact
                             (ContactMatcherService.hit URN_ID
                                (ContactMatcherService.as_existing Sample.grace))
                             Sample.ada true
                             (Sample.world [Sample.grace; Sample.bob] [] false))))
         = Some c'
         /\ Contact.email c' = Some "ada@x.com")
  /\ (exists m,
         fst (ContactMatcherService.matchByEmail "org-1" "Ada@X.com"
                (Sample.world [Sample.grace; Sample.bob] [] false))
         = Ok (Some m)
         /\ Existing.email m = Some "ada@x.com").
Proof.
  pose proof (C10_emails_lowercased
                (Sample.world [Sample.grace; Sample.bob] [] false) Sample.ada)
    as (_ & Hmerge & Hmatch).
  split; [reflexivity|]. split.
  - destruct (Hmerge Sample.grace URN_ID true eq_refl) as (c' & Hc' & _ & _).
    exists c'. split; [exact Hc'|].
    vm_compute in Hc'. now injection Hc' as <-.
  - apply (Hmatch "org-1" Sample.bob "ada@x.com" "Ada@X.com").
    + right. now left.
    + reflexivity.
    + reflexivity.
    + reflexivity.
    + reflexivity.
    + reflexivity.
Defined.

(* ===================================================================== *)
(** * Integration-sourced fields *)
(* ===================================================================== *)

Module JsFacts.
Import Js.

Lemma get_set (o : Obj) (k k' : string) (v : JsVal) :
  get (set o k v) k' = if String.eqb k k' then v else get o k'.
Proof.
  induction o as [|[k0 v0] r IH]; simpl.
  - reflexivity.
  - destruct (String.eqb k0 k) eqn:E; simpl.
    + apply String.eqb_eq in E. subst k0.
      now destruct (String.eqb k k').
    + destruct (String.eqb k0 k') eqn:E'; [|exact IH].
      apply String.eqb_eq in E'. subst k0. now rewrite String.eqb_sym, E.
Qed.

Lemma to_json_obj (o : Obj) : to_json (JObj o) = JObj (json_props o).
Proof. reflexivity. Qed.

Lemma json_props_cons (k : string) (v : JsVal) (r : Obj) :
  json_props ((k, v) :: r)
  = match v with
    | JUndefined => json_props r
    | _ => (k, to_json v) :: json_props r
    end.
Proof. destruct v; reflexivity. Qed.

(** A property that holds a value survives the round trip through the
    JSON column. *)
Lemma get_json_present (o : Obj) (k : string) (v : JsVal) :
  get o k = v -> v <> JUndefined -> get (json_props o) k = to_json v.
Proof.
  intros Hg Hv. induction o as [|[k0 v0] r IH]; simpl in Hg.
  - now destruct Hv.
  - rewrite json_props_cons.
    destruct (String.eqb k0 k) eqn:E.
    + subst v0. destruct v; try (now destruct Hv); cbn [get]; now rewrite E.
    + destruct v0; cbn [get]; rewrite ?E; auto.
Qed.

End JsFacts.

(** What a merge stores under the keys of the fields it takes straight
    from the inbound record. *)
Lemma merge_linkedinData_direct (cf : JsVal) (conn : Connection.t) (t : string) :
  let data := ContactMergerService.merge_linkedinData cf conn t in
  Js.get data "linkedinUrnId" = JStr (Connection.urn_id conn)
  /\ Js.get data "linkedinConnected" = JStr (Connection.connected_on conn)
  /\ Js.get data "linkedinHeadline" = Js.of_optional (Connection.headline conn)
  /\ Js.get data "linkedinLocation" = Js.of_optional (Connection.location conn)
  /\ Js.get data "linkedinProfilePhoto"
     = Js.of_optional (Connection.profile_pic_url conn)
  /\ Js.get data "linkedinIndustry" = Js.of_optional (Connection.industry conn)
  /\ Js.get data "lastSyncedAt" = JStr t.
Proof.
  intros data. unfold data, ContactMergerService.merge_linkedinData.
  cbn [Js.literal fold_left fst snd].
  repeat split; rewrite !JsFacts.get_set; reflexivity.
Qed.

(** The integration identifier of a merged row is the inbound one. *)
Lemma merged_row_stored_urn ex conn f t c :
  Contact.stored_urn (merged_row ex conn f t c) = Some (Connection.urn_id conn).
Proof.
  unfold Contact.stored_urn. rewrite PrismaFacts.merged_row_customFields.
  rewrite JsFacts.to_json_obj. cbn [Js.prop].
  rewrite (JsFacts.get_json_present _ _ (JStr (Connection.urn_id conn))).
  - reflexivity.
  - apply merge_linkedinData_direct.
  - discriminate.
Qed.

(** Integration-sourced fields that the inbound record carries are stored
    by every merge, whatever [forceUpdate] and whatever was stored. *)
Lemma merge_stores_inbound_fields ex conn f t c :
  let stored := Contact.customFields (merged_row ex conn f t c) in
  (forall h, Connection.headline conn = Some h ->
             Js.prop stored "linkedinHeadline" = JStr h)
  /\ (forall l, Connection.location conn = Some l ->
                Js.prop stored "linkedinLocation" = JStr l)
  /\ (forall p, Connection.profile_pic_url conn = Some p ->
                Js.prop stored "linkedinProfilePhoto" = JStr p)
  /\ (forall i, Connection.industry conn = Some i ->
                Js.prop stored "linkedinIndustry" = JStr i)
  /\ Js.prop stored "linkedinConnected" = JStr (Connection.connected_on conn).
Proof.
  intros stored. unfold stored.
  rewrite PrismaFacts.merged_row_customFields, JsFacts.to_json_obj.
  cbn [Js.prop].
  destruct (merge_linkedinData_direct (Js.or (Existing.customFields ex) (JObj []))
              conn t) as (_ & Hc & Hh & Hl & Hp & Hi & _).
  repeat split.
  - intros h E. rewrite E in Hh.
    now rewrite (JsFacts.get_json_present _ _ _ Hh).
  - intros l E. rewrite E in Hl.
    now rewrite (JsFacts.get_json_present _ _ _ Hl).
  - intros p E. rewrite E in Hp.
    now rewrite (JsFacts.get_json_present _ _ _ Hp).
  - intros i E. rewrite E in Hi.
    now rewrite (JsFacts.get_json_present _ _ _ Hi).
  - now rewrite (JsFacts.get_json_present _ _ _ Hc).
Qed.

(** C2, evaluated where it fails.  Grace is stored with a headline and a
    photo; the inbound record carries neither.  The merge reports
    [updated]; afterwards the stored custom fields have no headline, and
    the profile image is the contact's LinkedIn URL. *)
Lemma C2_absent_fields_not_retained :
  let w := Sample.world [Sample.grace] [] false in
  let run :=
    ContactMergerService.mergeContact
      (ContactMatcherService.hit URN_ID (ContactMatcherService.as_existing Sample.grace))
      Sample.ada_bare false w in
  fst run
  = Ok (SyncResult.mk true updated (Some 1) (Some URN_ID)
          (Some "Updated existing contact: Ada Lovelace") None)
  /\ map (fun c => Js.prop (Contact.customFields c) "linkedinHeadline") (contacts w)
     = [JStr "Compiler pioneer"]
  /\ map (fun c => Js.prop (Contact.customFields c) "linkedinHeadline")
         (contacts (snd run))
     = [JUndefined]
  /\ map Contact.profileImageUrl (contacts w) = [Some "https://img.example/grace.png"]
  /\ map Contact.profileImageUrl (contacts (snd run))
     = [Some "https://www.linkedin.com/in/grace"].
Proof. repeat split. Qed.

(* ===================================================================== *)
(** * The single-event handler: validation, then authentication *)
(* ===================================================================== *)

(** The two checks of [handleConnectionAccepted] in the order the code
    runs them: a body that fails validation is rejected as a bad request
    whatever secret it carries; a body that passes validation and whose
    secret is refused is rejected as unauthorized; in both cases the world
    is left as it was.  Every other request gets an outcome. *)
Lemma handleConnectionAccepted_checks (fmt : Zod.Formats)
    (this : OutreachSyncController.t) (rawPayload : JsVal) (w : World) :
  (Zod.safeParse fmt rawPayload = None ->
   OutreachSyncController.handleConnectionAccepted fmt this rawPayload w
   = (Throw (BadRequestException "Invalid webhook payload"), w))
  /\ (forall payload,
         Zod.safeParse fmt rawPayload = Some payload ->
         OutreachSyncController.secret_refused this
           (SecretString (Payload.webhook_secret payload)) = true ->
         OutreachSyncController.handleConnectionAccepted fmt this rawPayload w
         = (Throw (UnauthorizedException "Invalid webhook secret"), w))
  /\ (forall payload,
         Zod.safeParse fmt rawPayload = Some payload ->
         OutreachSyncController.secret_refused this
           (SecretString (Payload.webhook_secret payload)) = false ->
         exists res,
           fst (OutreachSyncController.handleConnectionAccepted fmt this rawPayload w)
           = Ok res).
Proof.
  unfold OutreachSyncController.handleConnectionAccepted.
  repeat split.
  - intros ->. reflexivity.
  - intros payload -> ->. reflexivity.
  - intros payload -> ->. unfold try_catch.
    match goal with
    | |- context [match ?run with _ => _ end] => destruct run as [[res|e] w']
    end; eexists; reflexivity.
Qed.

(** C9.  The code at the failing input.  A controller configured with the
    secret [s3cret] receives a body that carries the secret [wrong] and
    nothing else.  The Authenticator refuses this secret and the body
    fails validation under every format; [handleConnectionAccepted]
    answers with the validation failure, where the claim asks for
    "unauthorized".  The sibling handler [handleBatchSync] does run the
    Authenticator first: on the same secret and a body as malformed (no
    list of connections) it answers "unauthorized". *)
Theorem C9_malformed_body_hides_refused_secret (fmt : Zod.Formats) (w : World) :
  let this := OutreachSyncController.mk "s3cret" in
  let body := JObj [("webhook_secret", JStr "wrong")] in
  OutreachSyncController.secret_refused this (SecretString "wrong") = true
  /\ Zod.safeParse fmt body = None
  /\ OutreachSyncController.handleConnectionAccepted fmt this body w
     = (Throw (BadRequestException "Invalid webhook payload"), w)
  /\ OutreachSyncController.handleBatchSync this
       (BatchBody.mk (SecretString "wrong") "org-1" None) w
     = (Throw (UnauthorizedException "Invalid webhook secret"), w).
Proof. repeat split. Qed.

(* ===================================================================== *)
(** * The match cascade *)
(* ===================================================================== *)

Lemma calls_since_app (w w' : World) (new : list (StorageCall * option Exn)) :
  trace w' = (trace w ++ new)%list -> calls_since w w' = new.
Proof.
  intros H. unfold calls_since. rewrite H.
  rewrite skipn_app, skipn_all, Nat.sub_diag. reflexivity.
Qed.

(** Reads off the storage calls a run has added to the trace. *)
Ltac read_calls :=
  erewrite calls_since_app
    by (cbn [trace log_call set_ticks set_contacts set_activities];
        rewrite <- ?app_assoc; reflexivity).

(** Each step of the cascade makes one storage call; a rejected call is a
    miss. *)
Lemma matchByUrnId_run (org urn : string) (w : World) :
  ContactMatcherService.matchByUrnId org urn w
  = (Ok (match hd None (faults w) with
         | Some _ => None
         | None =>
             option_map ContactMatcherService.as_existing
               (hd_error (holders org urn (contacts w)))
         end),
     log_call (QueryContactsByUrn org urn) w).
Proof.
  unfold ContactMatcherService.matchByUrnId, Prisma.queryRaw_contacts_by_urn.
  exec. destruct (hd None (faults w)); exec; [reflexivity|].
  unfold holders.
  destruct (filter (fun c => Prisma.in_org org c && Prisma.urn_is urn c) (contacts w));
    reflexivity.
Qed.

Lemma matchByLinkedInUrl_run (org url : string) (w : World) :
  ContactMatcherService.matchByLinkedInUrl org url w
  = (Ok (match hd None (faults w) with
         | Some _ => None
         | None =>
             option_map ContactMatcherService.as_existing
               (find (fun c =>
                        Prisma.in_org org c &&
                        Prisma.url_in
                          (ContactMatcherService.getLinkedInUrlVariations url) c)
                     (contacts w))
         end),
     log_call (FindFirstByLinkedinUrl org
                 (ContactMatcherService.getLinkedInUrlVariations url)) w).
Proof.
  unfold ContactMatcherService.matchByLinkedInUrl, Prisma.contact_findFirst_by_url.
  exec. destruct (hd None (faults w)); exec; [reflexivity|].
  destruct (find _ (contacts w)); reflexivity.
Qed.

Lemma matchByEmail_run (org email : string) (w : World) :
  ContactMatcherService.matchByEmail org email w
  = (Ok (match hd None (faults w) with
         | Some _ => None
         | None =>
             option_map ContactMatcherService.as_existing
               (find (fun c =>
                        Prisma.in_org org c &&
                        Prisma.email_is (JsString.toLowerCase email) c)
                     (contacts w))
         end),
     log_call (FindFirstByEmail org (JsString.toLowerCase email)) w).
Proof.
  unfold ContactMatcherService.matchByEmail, Prisma.contact_findFirst_by_email.
  exec. destruct (hd None (faults w)); exec; [reflexivity|].
  destruct (find _ (contacts w)); reflexivity.
Qed.

Lemma holders_head (org urn : string) (cs : list Contact.t) (c : Contact.t) :
  hd_error (holders org urn cs) = Some c ->
  In c cs /\ Contact.organizationId c = org /\ Contact.stored_urn c = Some urn.
Proof.
  intros H. assert (Hin : In c (holders org urn cs)).
  { destruct (holders org urn cs); [discriminate|]. injection H as ->. now left. }
  apply filter_In in Hin as [Hin Hp]. apply andb_prop in Hp as [Ho Hu].
  split; [exact Hin|]. split.
  - now apply String.eqb_eq in Ho.
  - unfold Prisma.urn_is in Hu. destruct (Contact.stored_urn c); [|discriminate].
    now apply String.eqb_eq in Hu as ->.
Qed.

Lemma holders_in (org urn : string) (cs : list Contact.t) (c : Contact.t) :
  In c cs -> Contact.organizationId c = org -> Contact.stored_urn c = Some urn ->
  In c (holders org urn cs).
Proof.
  intros Hin Ho Hu. apply filter_In. split; [exact Hin|].
  unfold Prisma.in_org, Prisma.urn_is. now rewrite Ho, Hu, !String.eqb_refl.
Qed.

(** C1 (as amended).  The cascade is ordered and the first hit wins.  When
    some contact of the organization holds the record's URN and the URN
    lookup itself is not rejected by storage, [findMatch] answers with
    kind [URN_ID] and a contact of the organization that holds the URN
    (the one the [LIMIT 1] query yields; the contact itself when it is the
    only holder), whatever the record's email and profile URL are, and it
    makes no other storage call.  The email lookup is made only when the
    URN step has missed, the URL step has missed (or was not attempted)
    and the record carries a non-empty email. *)
Theorem C1_urn_match_wins (w : World) (org : string) (conn : Connection.t) :
  let urn := Connection.urn_id conn in
  let run := ContactMatcherService.findMatch org conn w in
  (forall c,
      In c (contacts w) ->
      Contact.organizationId c = org ->
      Contact.stored_urn c = Some urn ->
      hd None (faults w) = None ->
      exists c',
        fst run
        = Ok (ContactMatcherService.hit URN_ID (ContactMatcherService.as_existing c'))
        /\ In c' (contacts w)
        /\ Contact.organizationId c' = org
        /\ Contact.stored_urn c' = Some urn
        /\ hd_error (holders org urn (contacts w)) = Some c'
        /\ ((forall d, In d (contacts w) -> Contact.organizationId d = org ->
                       Contact.stored_urn d = Some urn -> d = c) ->
            c' = c)
        /\ calls_since w (snd run) = [(QueryContactsByUrn org urn, None)])
  /\ (forall e flt,
         In (FindFirstByEmail org e, flt) (calls_since w (snd run)) ->
         fst (ContactMatcherService.matchByUrnId org urn w) = Ok None
         /\ (forall u,
                ContactMatcherService.normalizeLinkedInUrl
                  (Some (Connection.profile_url conn)) (Connection.public_id conn)
                = Some u ->
                JsString.truthy u = true ->
                fst (ContactMatcherService.matchByLinkedInUrl org u
                       (snd (ContactMatcherService.matchByUrnId org urn w)))
                = Ok None)
         /\ exists em,
              Connection.email conn = Some em
              /\ JsString.truthy em = true
              /\ e = JsString.toLowerCase em).
Proof.
  intros urn run. subst urn run.
  unfold ContactMatcherService.findMatch, bind.
  rewrite matchByUrnId_run. split.
  - intros c Hin Horg Hurn Hfault. rewrite Hfault.
    pose proof (holders_in org _ _ c Hin Horg Hurn) as Hh.
    destruct (holders org (Connection.urn_id conn) (contacts w)) as [|c' rest] eqn:E;
      [destruct Hh|].
    assert (Hhd : hd_error (holders org (Connection.urn_id conn) (contacts w)) = Some c')
      by now rewrite E.
    destruct (holders_head _ _ _ _ Hhd) as (Hin' & Horg' & Hurn').
    exists c'. cbn [option_map hd_error fst snd ret].
    repeat split; auto.
    + read_calls. now rewrite Hfault.
  - intros e flt.
    destruct (match hd None (faults w) with
              | Some _ => None
              | None =>
                  option_map ContactMatcherService.as_existing
                    (hd_error (holders org (Connection.urn_id conn) (contacts w)))
              end) as [m|] eqn:Hu.
    { cbn [ret fst snd]. read_calls. intros [H|[]]. discriminate H. }
    unfold ContactMatcherService.findMatch_url.
    assert (Hemail :
      forall w1 pre,
        trace w1 = (trace w ++ pre)%list ->
        (forall x, In x pre -> fst x <> FindFirstByEmail org e) ->
        In (FindFirstByEmail org e, flt)
           (calls_since w
              (snd (ContactMatcherService.findMatch_email org (Connection.email conn) w1))) ->
        exists em,
          Connection.email conn = Some em
          /\ JsString.truthy em = true /\ e = JsString.toLowerCase em).
    { intros w1 pre Ht Hpre. unfold ContactMatcherService.findMatch_email.
      destruct (Connection.email conn) as [em|];
        [destruct (JsString.truthy em) eqn:Htr|].
      - unfold bind. rewrite matchByEmail_run.
        intros Hin. exists em. repeat split; auto.
        assert (Hs : calls_since w
                       (log_call (FindFirstByEmail org (JsString.toLowerCase em)) w1)
                     = (pre ++ [(FindFirstByEmail org (JsString.toLowerCase em),
                                 hd None (faults w1))])%list).
        { apply calls_since_app. cbn [trace log_call]. rewrite Ht.
          now rewrite app_assoc. }
        destruct (match hd None (faults w1) with
                  | Some _ => None
                  | None => _
                  end); cbn [ret fst snd] in Hin; rewrite Hs in Hin;
          apply in_app_or in Hin as [Hin|[Hin|[]]];
          try (now destruct (Hpre _ Hin)); now injection Hin.
      - cbn [ret snd]. rewrite (calls_since_app w w1 pre Ht).
        intros Hin. now destruct (Hpre _ Hin).
      - cbn [ret snd]. rewrite (calls_since_app w w1 pre Ht).
        intros Hin. now destruct (Hpre _ Hin). }
    destruct (ContactMatcherService.normalizeLinkedInUrl _ _) as [u|] eqn:Hn;
      [destruct (JsString.truthy u) eqn:Htu|].
    + unfold bind. rewrite matchByLinkedInUrl_run.
      destruct (match hd None (faults (log_call _ w)) with
                | Some _ => None
                | None => _
                end) as [m|] eqn:Hl.
      { cbn [ret fst snd]. read_calls. intros [H|[H|[]]]; discriminate H. }
      intros Hin. split; [reflexivity|]. split.
      * intros u' [= <-] _. cbn [snd].
        rewrite matchByLinkedInUrl_run. cbn [fst]. now rewrite Hl.
      * eapply Hemail; [| |exact Hin].
        -- cbn [trace log_call]. rewrite <- app_assoc. reflexivity.
        -- intros x [<-|[<-|[]]]; discriminate.
    + intros Hin. split; [reflexivity|]. split.
      * intros u' [= <-] Ht'. congruence.
      * eapply Hemail; [| |exact Hin].
        -- cbn [trace log_call]. reflexivity.
        -- intros x [<-|[]]; discriminate.
    + intros Hin. split; [reflexivity|]. split.
      * intros u' [=].
      * eapply Hemail; [| |exact Hin].
        -- cbn [trace log_call]. reflexivity.
        -- intros x [<-|[]]; discriminate.
Qed.

Lemma C1_counterexample :
  let lost :=
    Sample.world [Sample.grace; Sample.bob]
      [Some (JsError "Can't reach database server")] false in
  let twins := Sample.world [Sample.twin; Sample.grace] [] false in
  (In Sample.grace (contacts lost)
   /\ Contact.organizationId Sample.grace = "org-1"
   /\ Contact.stored_urn Sample.grace = Some (Connection.urn_id Sample.ada)
   /\ fst (ContactMatcherService.findMatch "org-1" Sample.ada lost)
      = Ok (ContactMatcherService.hit EMAIL
              (ContactMatcherService.as_existing Sample.bob)))
  /\ (In Sample.grace (contacts twins)
      /\ fst (ContactMatcherService.findMatch "org-1" Sample.ada twins)
         = Ok (ContactMatcherService.hit URN_ID
                 (ContactMatcherService.as_existing Sample.twin))
      /\ Contact.id Sample.twin <> Contact.id Sample.grace).
Proof.
  repeat split; try (simpl; tauto). discriminate.
Qed.

Lemma C1_urn_match_wins_witness :
  let w := Sample.world [Sample.bob; Sample.grace] [] false in
  In Sample.grace (contacts w)
  /\ Contact.organizationId Sample.grace = "org-1"
  /\ Contact.stored_urn Sample.grace = Some (Connection.urn_id Sample.ada)
  /\ hd None (faults w) = None
  /\ fst (ContactMatcherService.findMatch "org-1" Sample.ada w)
     = Ok (ContactMatcherService.hit URN_ID
             (ContactMatcherService.as_existing Sample.grace))
  /\ Existing.email (ContactMatcherService.as_existing Sample.bob)
     = Some (JsString.toLowerCase "Ada@X.com").
Proof.
  intros w.
  assert (Hin : In Sample.grace (contacts w)) by (simpl; tauto).
  split; [exact Hin|]. do 3 (split; [reflexivity|]). split; [|reflexivity].
  destruct (proj1 (C1_urn_match_wins w "org-1" Sample.ada)
              Sample.grace Hin eq_refl eq_refl eq_refl)
    as (c' & Hrun & _ & _ & _ & Hhd & _).
  vm_compute in Hhd. injection Hhd as <-. exact Hrun.
Defined.

(* ===================================================================== *)
(** * Totality and storage calls of one pipeline run *)
(* ===================================================================== *)

Lemma reads_only_refl (w : World) : reads_only w w.
Proof.
  repeat split; auto. exists []. split; [now rewrite app_nil_r|constructor].
Qed.

Lemma reads_only_log (call : StorageCall) (w w' : World) :
  is_write call = false -> reads_only w w' -> reads_only w (log_call call w').
Proof.
  intros Hc (Hcs & Ha & Hcl & Ht & Hg & Hf & reads & Htr & Hr).
  repeat split; cbn [log_call contacts activities clock ticks unique_urn_guard faults];
    auto.
  - intros H. now rewrite (Hf H).
  - exists (reads ++ [(call, hd None (faults w'))])%list. split.
    + cbn [trace log_call]. now rewrite Htr, app_assoc.
    + apply Forall_app. split; [exact Hr|]. constructor; [exact Hc|constructor].
Qed.

Lemma findMatch_email_reads (org : string) (email : option string) (w0 w : World) :
  reads_only w0 w ->
  exists m,
    fst (ContactMatcherService.findMatch_email org email w) = Ok m
    /\ reads_only w0 (snd (ContactMatcherService.findMatch_email org email w)).
Proof.
  intros H. unfold ContactMatcherService.findMatch_email.
  destruct email as [e|]; [destruct (JsString.truthy e)|];
    try (eexists; split; [reflexivity|exact H]).
  unfold bind. rewrite matchByEmail_run.
  destruct (match hd None (faults w) with Some _ => None | None => _ end);
    (eexists; split; [reflexivity|now apply reads_only_log]).
Qed.

Lemma findMatch_url_reads (org : string) (conn : Connection.t) (w0 w : World) :
  reads_only w0 w ->
  exists m,
    fst (ContactMatcherService.findMatch_url org conn w) = Ok m
    /\ reads_only w0 (snd (ContactMatcherService.findMatch_url org conn w)).
Proof.
  intros H. unfold ContactMatcherService.findMatch_url.
  destruct (ContactMatcherService.normalizeLinkedInUrl _ _) as [u|];
    [destruct (JsString.truthy u)|];
    try (now apply findMatch_email_reads).
  unfold bind. rewrite matchByLinkedInUrl_run.
  destruct (match hd None (faults w) with Some _ => None | None => _ end).
  - eexists; split; [reflexivity|now apply reads_only_log].
  - apply findMatch_email_reads. now apply reads_only_log.
Qed.

(** [findMatch] always answers, and only reads. *)
Lemma findMatch_reads (org : string) (conn : Connection.t) (w : World) :
  exists m,
    fst (ContactMatcherService.findMatch org conn w) = Ok m
    /\ reads_only w (snd (ContactMatcherService.findMatch org conn w)).
Proof.
  unfold ContactMatcherService.findMatch, bind. rewrite matchByUrnId_run.
  destruct (match hd None (faults w) with Some _ => None | None => _ end).
  - eexists; split; [reflexivity|].
    apply reads_only_log; [reflexivity|apply reads_only_refl].
  - apply findMatch_url_reads.
    apply reads_only_log; [reflexivity|apply reads_only_refl].
Qed.

(** Goes through the recorded calls of a run looking for a rejected
    write. *)
Ltac rejected_write :=
  let call := fresh "call" in
  let e := fresh "e" in
  let Hw := fresh "Hw" in
  let Hin := fresh "Hin" in
  intros call e Hw Hin; simpl in Hin;
  repeat (destruct Hin as [Hin|Hin];
          [inversion Hin; subst; try discriminate Hw; try congruence;
           try (split; [reflexivity|simpl; congruence])|]);
  try now destruct Hin.

(** The storage calls of a merge; when its write is rejected the outcome is
    [skipped] with the error message. *)
Lemma mergeContact_calls (m : MatchResult.t) (conn : Connection.t) (f : bool)
    (w : World) :
  exists res new,
    fst (ContactMergerService.mergeContact m conn f w) = Ok res
    /\ trace (snd (ContactMergerService.mergeContact m conn f w))
       = (trace w ++ new)%list
    /\ (forall call e, is_write call = true -> In (call, Some e) new ->
          SyncResult.action res = skipped
          /\ SyncResult.error res = Some (error_message e "Unknown error")).
Proof.
  unfold ContactMergerService.mergeContact.
  destruct (MatchResult.contact_id m) as [id|];
    [destruct (MatchResult.existing_data m) as [existing|]|].
  2,3: (exists (ContactMergerService.skipped_with "No existing contact to merge with"), [];
        split; [reflexivity|]; split; [now rewrite app_nil_r|]; rejected_write).
  unfold Prisma.contact_findUnique, Prisma.contact_update.
  destruct (ContactMergerService.parseName _ _ _) as [fn ln].
  exec.
  destruct (hd None (faults w)) as [e1|] eqn:F1; exec.
  { eexists; eexists; split; [reflexivity|]. split; [reflexivity|].
    rejected_write. }
  destruct (hd None (tl (faults w))) as [e2|] eqn:F2; exec.
  { eexists; eexists; split; [reflexivity|].
    split; [now rewrite <- app_assoc|]. rejected_write. }
  destruct (find (Prisma.has_id id) (contacts w)) as [c|]; exec;
    [destruct (Prisma.apply_data _ c) as [row|]; exec;
     [destruct (unique_urn_guard w && _); exec|]|];
    (eexists; eexists; split; [reflexivity|];
     split; [now rewrite <- app_assoc|]; rejected_write).
Qed.

(** The storage call of a create; when it is rejected the outcome is
    [skipped] with the error message. *)
Lemma createContact_calls (org : string) (conn : Connection.t) (w : World) :
  exists res new,
    fst (ContactMergerService.createContact org conn w) = Ok res
    /\ trace (snd (ContactMergerService.createContact org conn w))
       = (trace w ++ new)%list
    /\ (forall call e, is_write call = true -> In (call, Some e) new ->
          SyncResult.action res = skipped
          /\ SyncResult.error res = Some (error_message e "Unknown error")).
Proof.
  unfold ContactMergerService.createContact, Prisma.contact_create.
  destruct (ContactMergerService.parseName _ _ _) as [fn ln].
  exec.
  destruct (hd None (faults w)) as [e1|] eqn:F1; exec.
  { eexists; eexists; split; [reflexivity|]. split; [reflexivity|].
    rejected_write. }
  destruct (unique_urn_guard w && _); exec;
    (eexists; eexists; split; [reflexivity|]; split; [reflexivity|];
     rejected_write).
Qed.

(* ===================================================================== *)
(** * The batch coordinator *)
(* ===================================================================== *)

(** Steps 1 and 2 for one record always yield an outcome; when the write of
    the contact is rejected by storage the outcome is [skipped] and carries
    the error message. *)
Lemma match_and_write_total (org : string) (conn : Connection.t) (w : World) :
  exists o,
    fst (OutreachSyncController.match_and_write org conn w) = Ok o
    /\ (write_threw w (snd (OutreachSyncController.match_and_write org conn w)) ->
        SyncResult.action o = skipped
        /\ exists msg, SyncResult.error o = Some msg).
Proof.
  unfold OutreachSyncController.match_and_write, bind.
  destruct (findMatch_reads org conn w) as (m & Hm & Hreads).
  destruct (ContactMatcherService.findMatch org conn w) as [[m'|e] w1];
    simpl in Hm, Hreads; [injection Hm as ->|discriminate Hm].
  destruct Hreads as (_ & _ & _ & _ & _ & _ & reads & Htr & Hr).
  assert (Hgen :
    forall run : Res SyncResult.t * World,
      (exists res new,
          fst run = Ok res
          /\ trace (snd run) = (trace w1 ++ new)%list
          /\ (forall call e, is_write call = true -> In (call, Some e) new ->
                SyncResult.action res = skipped
                /\ SyncResult.error res = Some (error_message e "Unknown error"))) ->
      exists o,
        fst run = Ok o
        /\ (write_threw w (snd run) ->
            SyncResult.action o = skipped /\ exists msg, SyncResult.error o = Some msg)).
  { intros run (res & new & Hres & Hnew & Hrej).
    exists res. split; [exact Hres|].
    intros (call & e & Hw & Hin).
    rewrite (calls_since_app w (snd run) (reads ++ new)) in Hin
      by (now rewrite Hnew, Htr, app_assoc).
    apply in_app_or in Hin as [Hin|Hin].
    - rewrite Forall_forall in Hr. specialize (Hr _ Hin). simpl in Hr. congruence.
    - destruct (Hrej call e Hw Hin) as [Ha He]. split; [exact Ha|eauto]. }
  destruct (MatchResult.found m); apply Hgen.
  - apply mergeContact_calls.
  - apply createContact_calls.
Qed.

(** The activity log never fails the run. *)
Lemma log_activity_total (org : string) (o : SyncResult.t) (conn : Connection.t)
    (w : World) :
  fst (OutreachSyncController.log_activity org o conn w) = Ok tt.
Proof.
  unfold OutreachSyncController.log_activity.
  destruct (SyncResult.contact_id o); [destruct (SyncResult.success o)|];
    try reflexivity.
  unfold ContactMergerService.createSyncActivity, Prisma.activity_create.
  exec. destruct (hd None (faults w)); reflexivity.
Qed.

(** One turn of the loop pushes the outcome of the record and counts it. *)
Lemma batch_item_run (org : string) (conn : Connection.t)
    (acc : OutreachSyncController.Tally) (w : World) :
  exists o,
    fst (OutreachSyncController.match_and_write org conn w) = Ok o
    /\ OutreachSyncController.batch_item org conn acc w
       = (Ok (OutreachSyncController.push_result o acc),
          snd (OutreachSyncController.log_activity org o conn
                 (snd (OutreachSyncController.match_and_write org conn w)))).
Proof.
  destruct (match_and_write_total org conn w) as (o & Ho & _).
  exists o. split; [exact Ho|].
  unfold OutreachSyncController.batch_item, try_catch, bind.
  destruct (OutreachSyncController.match_and_write org conn w) as [[o'|e] w1];
    simpl in Ho; [injection Ho as ->|discriminate Ho].
  pose proof (log_activity_total org o conn w1) as Hl. cbn [snd].
  destruct (OutreachSyncController.log_activity org o conn w1) as [[[]|e] w2];
    simpl in Hl; [reflexivity|discriminate Hl].
Qed.

Lemma batch_loop_app (org : string) (xs ys : list Connection.t)
    (acc : OutreachSyncController.Tally) (w : World) :
  OutreachSyncController.batch_loop org (xs ++ ys) acc w
  = match OutreachSyncController.batch_loop org xs acc w with
    | (Ok acc', w') => OutreachSyncController.batch_loop org ys acc' w'
    | (Throw e, w') => (Throw e, w')
    end.
Proof.
  revert acc w. induction xs as [|x r IH]; intros acc w; [reflexivity|].
  cbn [app OutreachSyncController.batch_loop]. unfold bind.
  destruct (OutreachSyncController.batch_item org x acc w) as [[acc1|e] w1];
    [apply IH|reflexivity].
Qed.

Lemma count_action_cons (a : Action) (o : SyncResult.t) (rs : list SyncResult.t) :
  count_action a (o :: rs) = (if has_action a o then 1 else 0) + count_action a rs.
Proof. unfold count_action. simpl. now destruct (has_action a o). Qed.

Lemma count_action_app (a : Action) (xs ys : list SyncResult.t) :
  count_action a (xs ++ ys) = count_action a xs + count_action a ys.
Proof. unfold count_action. now rewrite filter_app, length_app. Qed.

(** Every outcome carries exactly one of the three actions. *)
Lemma count_action_total (rs : list SyncResult.t) :
  count_action created rs + count_action updated rs + count_action skipped rs
  = List.length rs.
Proof.
  induction rs as [|o r IH]; [reflexivity|].
  rewrite !count_action_cons. simpl List.length. rewrite <- IH.
  unfold has_action. destruct (SyncResult.action o); lia.
Qed.

(** The loop never throws; it pushes one outcome per record and counts
    each under its action. *)
Lemma batch_loop_total (org : string) (xs : list Connection.t)
    (acc : OutreachSyncController.Tally) (w : World) :
  exists acc' outs,
    fst (OutreachSyncController.batch_loop org xs acc w) = Ok acc'
    /\ OutreachSyncController.results acc'
       = (OutreachSyncController.results acc ++ outs)%list
    /\ List.length outs = List.length xs
    /\ OutreachSyncController.created_n acc'
       = OutreachSyncController.created_n acc + count_action created outs
    /\ OutreachSyncController.updated_n acc'
       = OutreachSyncController.updated_n acc + count_action updated outs
    /\ OutreachSyncController.skipped_n acc'
       = OutreachSyncController.skipped_n acc + count_action skipped outs.
Proof.
  revert acc w. induction xs as [|x r IH]; intros acc w.
  - exists acc, []. cbn. rewrite app_nil_r, !Nat.add_0_r. repeat split.
  - cbn [OutreachSyncController.batch_loop]. unfold bind.
    destruct (batch_item_run org x acc w) as (o & _ & ->).
    match goal with
    | |- context [OutreachSyncController.batch_loop org r ?a ?w1] =>
        destruct (IH a w1) as (acc' & outs & Hrun & Hres & Hlen & Hc & Hu & Hs)
    end.
    exists acc', (o :: outs). split; [exact Hrun|].
    rewrite Hres, Hc, Hu, Hs, !count_action_cons.
    unfold OutreachSyncController.push_result, has_action.
    destruct (SyncResult.action o);
      cbn [OutreachSyncController.results OutreachSyncController.created_n
           OutreachSyncController.updated_n OutreachSyncController.skipped_n];
      rewrite <- app_assoc; simpl; repeat split; lia.
Qed.

(** C6. For a body that passes the secret check and carries a list of N
    records, [handleBatchSync] returns: [total] = N; one outcome per
    record; [created] + [updated] + [skipped] = N, each counter being the
    number of outcomes with that action.  The outcome at position i is the
    outcome of record i run in the world the earlier records have left;
    when the write of that record's contact is rejected by storage the
    outcome is [skipped] with an error message, and the records after it
    are processed all the same. *)
Theorem C6_batch_totals_and_isolation (this : OutreachSyncController.t)
    (body : BatchBody.t) (w : World) (conns : list Connection.t) :
  BatchBody.connections body = Some conns ->
  OutreachSyncController.secret_refused this (BatchBody.webhook_secret body) = false ->
  exists r,
    fst (OutreachSyncController.handleBatchSync this body w) = Ok r
    /\ BatchResult.total r = List.length conns
    /\ List.length (BatchResult.results r) = List.length conns
    /\ BatchResult.created_count r + BatchResult.updated_count r
       + BatchResult.skipped_count r = List.length conns
    /\ BatchResult.created_count r = count_action created (BatchResult.results r)
    /\ BatchResult.updated_count r = count_action updated (BatchResult.results r)
    /\ BatchResult.skipped_count r = count_action skipped (BatchResult.results r)
    /\ (forall before conn after,
           conns = (before ++ conn :: after)%list ->
           let org := BatchBody.organization_id body in
           let w1 :=
             snd (OutreachSyncController.batch_loop org before
                    (OutreachSyncController.mkTally [] 0 0 0) w) in
           exists o,
             fst (OutreachSyncController.match_and_write org conn w1) = Ok o
             /\ nth_error (BatchResult.results r) (List.length before) = Some o
             /\ (write_threw w1
                   (snd (OutreachSyncController.match_and_write org conn w1)) ->
                 SyncResult.action o = skipped
                 /\ exists msg, SyncResult.error o = Some msg)).
Proof.
  intros Hconns Hauth.
  unfold OutreachSyncController.handleBatchSync. rewrite Hauth, Hconns.
  unfold bind.
  set (org := BatchBody.organization_id body).
  set (acc0 := OutreachSyncController.mkTally [] 0 0 0).
  destruct (batch_loop_total org conns acc0 w)
    as (acc' & outs & Hrun & Hres & Hlen & Hc & Hu & Hs).
  destruct (OutreachSyncController.batch_loop org conns acc0 w) as [[acc''|e] w'] eqn:E;
    simpl in Hrun; [injection Hrun as ->|discriminate Hrun].
  simpl in Hres, Hc, Hu, Hs.
  eexists. split; [reflexivity|].
  cbn [ret fst BatchResult.total BatchResult.results BatchResult.created_count
       BatchResult.updated_count BatchResult.skipped_count].
  rewrite Hres, Hc, Hu, Hs.
  repeat split; auto.
  - rewrite <- Hlen. apply count_action_total.
  - intros before conn after ->.
    rewrite batch_loop_app in E.
    destruct (batch_loop_total org before acc0 w)
      as (accb & outsb & Hrunb & Hresb & Hlenb & _).
    destruct (OutreachSyncController.batch_loop org before acc0 w) as [[accb'|eb] wb];
      simpl in Hrunb; [injection Hrunb as ->|discriminate Hrunb].
    cbn [snd]. simpl in Hresb.
    destruct (match_and_write_total org conn wb) as (o & Ho & Hthrew).
    exists o. split; [exact Ho|]. split; [|exact Hthrew].
    cbn [OutreachSyncController.batch_loop] in E. unfold bind in E.
    destruct (batch_item_run org conn accb wb) as (o' & Ho' & Hitem).
    rewrite Ho in Ho'. injection Ho' as <-. rewrite Hitem in E.
    match type of E with
    | OutreachSyncController.batch_loop org after ?a ?w2 = _ =>
        destruct (batch_loop_total org after a w2)
          as (acca & outsa & Hruna & Hresa & _)
    end.
    rewrite E in Hruna. simpl in Hruna. injection Hruna as <-.
    rewrite Hres in Hresa.
    assert (Hpush : OutreachSyncController.results
                      (OutreachSyncController.push_result o accb)
                    = (outsb ++ [o])%list).
    { unfold OutreachSyncController.push_result.
      destruct (SyncResult.action o); simpl; now rewrite Hresb. }
    rewrite Hpush in Hresa. rewrite Hresa, <- app_assoc, <- Hlenb.
    rewrite nth_error_app2 by lia. now rewrite Nat.sub_diag.
Qed.

Lemma C6_batch_totals_and_isolation_witness :
  let this := OutreachSyncController.mk "s3cret" in
  let body :=
    BatchBody.mk (SecretString "s3cret") "org-1" (Some [Sample.ada; Sample.ada_bare]) in
  let w :=
    Sample.world [] [None; None; None; Some (JsError "Connection pool timeout")]
      false in
  BatchBody.connections body = Some [Sample.ada; Sample.ada_bare]
  /\ OutreachSyncController.secret_refused this (BatchBody.webhook_secret body) = false
  /\ (exists r,
         fst (OutreachSyncController.handleBatchSync this body w) = Ok r
         /\ BatchResult.total r = 2
         /\ map SyncResult.action (BatchResult.results r) = [skipped; created]
         /\ map SyncResult.error (BatchResult.results r)
            = [Some "Connection pool timeout"; None]
         /\ BatchResult.created_count r + BatchResult.updated_count r
            + BatchResult.skipped_count r = 2).
Proof.
  intros this body w.
  split; [reflexivity|]. split; [reflexivity|].
  destruct (C6_batch_totals_and_isolation this body w [Sample.ada; Sample.ada_bare]
              eq_refl eq_refl)
    as (r & Hrun & Htotal & _ & Hsum & _).
  exists r. split; [exact Hrun|]. split; [exact Htotal|].
  split; [|split; [|exact Hsum]];
    vm_compute in Hrun; injection Hrun as <-; reflexivity.
Defined.

(* ===================================================================== *)
(** * Repeated deliveries *)
(* ===================================================================== *)

Lemma id_below_next (cs : list Contact.t) (c : Contact.t) :
  In c cs -> Contact.id c < Prisma.next_id cs.
Proof.
  unfold Prisma.next_id. induction cs as [|d r IH]; simpl; [tauto|].
  intros [->|H]; [lia|]. specialize (IH H). lia.
Qed.

(** The id of a new row is not in use. *)
Lemma next_id_fresh (cs : list Contact.t) :
  find (Prisma.has_id (Prisma.next_id cs)) cs = None.
Proof.
  destruct (find (Prisma.has_id (Prisma.next_id cs)) cs) as [c|] eqn:E;
    [|reflexivity].
  apply PrismaFacts.find_has_id in E as [Hid Hin].
  apply id_below_next in Hin. lia.
Qed.

Lemma created_row_facts (org : string) (conn : Connection.t) (t : string)
    (id : ContactId) :
  let row := Prisma.new_row id (ContactMergerService.create_data org conn t) in
  Contact.id row = id
  /\ Contact.organizationId row = org
  /\ Contact.stored_urn row = Some (Connection.urn_id conn).
Proof.
  unfold ContactMergerService.create_data.
  destruct (ContactMergerService.parseName _ _ _) as [fn ln].
  repeat split.
Qed.

(** A create that storage does not reject, spelled out. *)
Lemma createContact_no_fault (org : string) (conn : Connection.t) (w : World) :
  faults w = [] ->
  let row :=
    Prisma.new_row (Prisma.next_id (contacts w))
      (ContactMergerService.create_data org conn (clock w (ticks w))) in
  let taken :=
    unique_urn_guard w &&
    Prisma.urn_taken org (Some (Connection.urn_id conn)) None (contacts w) in
  let run := ContactMergerService.createContact org conn w in
  contacts (snd run) = (if taken then contacts w else (contacts w ++ [row])%list)
  /\ (exists res,
         fst run = Ok res
         /\ SyncResult.action res = (if taken then skipped else created)
         /\ (taken = false -> SyncResult.contact_id res = Some (Contact.id row)))
  /\ faults (snd run) = []
  /\ unique_urn_guard (snd run) = unique_urn_guard w
  /\ clock (snd run) = clock w
  /\ ticks (snd run) = S (ticks w).
Proof.
  destruct w as [cs acts fs clk tk tr g].
  intros Hf row taken run. cbn [faults] in Hf. subst fs run.
  destruct (created_row_facts org conn (clk tk) (Prisma.next_id cs))
    as (_ & Horg & Hurn).
  unfold ContactMergerService.createContact, Prisma.contact_create.
  destruct (ContactMergerService.parseName _ _ _) as [fn ln].
  exec. rewrite Horg, Hurn. fold row.
  change (g && Prisma.urn_taken org (Some (Connection.urn_id conn)) None cs)
    with taken.
  destruct taken; exec; repeat split; try reflexivity;
    eexists; (split; [reflexivity|]); split; try reflexivity; discriminate.
Qed.

(** A merge that storage does not reject, spelled out. *)
Lemma mergeContact_no_fault (m : MatchResult.t) (conn : Connection.t) (f : bool)
    (w : World) (id : ContactId) (ex : Existing.t) :
  MatchResult.contact_id m = Some id ->
  MatchResult.existing_data m = Some ex ->
  faults w = [] ->
  let run := ContactMergerService.mergeContact m conn f w in
  let stored :=
    match find (Prisma.has_id id) (contacts w) with
    | None => None
    | Some c =>
        let row := merged_row ex conn f (clock w (ticks w)) c in
        if unique_urn_guard w &&
           Prisma.urn_taken (Contact.organizationId row) (Contact.stored_urn row)
             (Some id) (contacts w)
        then None else Some row
    end in
  contacts (snd run)
  = match stored with
    | Some row => Prisma.replace_row id row (contacts w)
    | None => contacts w
    end
  /\ (exists res,
         fst run = Ok res
         /\ SyncResult.action res
            = match stored with Some _ => updated | None => skipped end
         /\ (stored <> None ->
             SyncResult.contact_id res = Some id
             /\ SyncResult.match_type res = MatchResult.match_type m))
  /\ faults (snd run) = []
  /\ unique_urn_guard (snd run) = unique_urn_guard w
  /\ clock (snd run) = clock w
  /\ ticks (snd run) = S (ticks w).
Proof.
  intros Hid Hex. destruct w as [cs acts fs clk tk tr g].
  intros Hf run stored. cbn [faults] in Hf. subst fs run stored.
  unfold ContactMergerService.mergeContact. rewrite Hid, Hex.
  unfold Prisma.contact_findUnique, Prisma.contact_update.
  destruct (ContactMergerService.parseName _ _ _) as [fn ln].
  exec.
  destruct (find (Prisma.has_id id) cs) as [c|]; exec.
  - rewrite PrismaFacts.merge_data_applied.
    destruct (g && _); exec; repeat split; try reflexivity;
      eexists; (split; [reflexivity|]); split; try reflexivity;
      intros H; try (now destruct H); now split.
  - repeat split; try reflexivity.
    eexists; (split; [reflexivity|]); split; [reflexivity|].
    intros H; now destruct H.
Qed.

Lemma mergeContact_no_fault_contacts (m : MatchResult.t) (conn : Connection.t)
    (f : bool) (w : World) (id : ContactId) (ex : Existing.t) :
  MatchResult.contact_id m = Some id ->
  MatchResult.existing_data m = Some ex ->
  faults w = [] ->
  contacts (snd (ContactMergerService.mergeContact m conn f w))
  = merge_store id ex conn f (clock w (ticks w)) (unique_urn_guard w) (contacts w).
Proof.
  intros Hid Hex Hf.
  destruct (mergeContact_no_fault m conn f w id ex Hid Hex Hf) as (-> & _).
  unfold merge_store.
  destruct (find (Prisma.has_id id) (contacts w)) as [c|]; [|reflexivity].
  cbv zeta. now destruct (unique_urn_guard w && _).
Qed.

(** Merging a merged row again changes nothing but the custom fields'
    timestamp: the second result is the merge of the original row at the
    second reading of the clock. *)
Lemma merged_row_twice (ex : Existing.t) (conn : Connection.t) (f : bool)
    (t1 t2 : string) (c : Contact.t) :
  merged_row ex conn f t2 (merged_row ex conn f t1 c) = merged_row ex conn f t2 c.
Proof.
  unfold merged_row. cbn [Contact.id Contact.organizationId Contact.firstName
    Contact.lastName Contact.email Contact.phone Contact.jobTitle
    Contact.linkedinUrl Contact.profileImageUrl Contact.isLead Contact.leadSource
    Contact.leadStatus Contact.ownerId Contact.priority].
  f_equal;
    repeat match goal with
           | |- context [if ?b then _ else _] => destruct b eqn:?
           end; try reflexivity.
  all: destruct f, (Contact.jobTitle c) as [[|a jt]|],
         (Connection.job_title conn) as [[|b j]|];
    simpl in *; congruence.
Qed.

Lemma urn_taken_replace (org : string) (urn : option string) (id : ContactId)
    (row : Contact.t) (cs : list Contact.t) :
  Contact.id row = id ->
  Prisma.urn_taken org urn (Some id) (Prisma.replace_row id row cs)
  = Prisma.urn_taken org urn (Some id) cs.
Proof.
  intros Hid. unfold Prisma.urn_taken. destruct urn as [u|]; [|reflexivity].
  induction cs as [|c r IH]; [reflexivity|].
  cbn [Prisma.replace_row]. destruct (Prisma.has_id id c) eqn:E.
  - cbn [existsb]. rewrite E. unfold Prisma.has_id at 1.
    rewrite Hid, Nat.eqb_refl. cbn [negb]. now rewrite !andb_false_r.
  - cbn [existsb]. now rewrite IH.
Qed.

Lemma merge_store_twice (id : ContactId) (ex : Existing.t) (conn : Connection.t)
    (f : bool) (t1 t2 : string) (g : bool) (cs : list Contact.t) :
  merge_store id ex conn f t2 g (merge_store id ex conn f t1 g cs)
  = merge_store id ex conn f t2 g cs.
Proof.
  unfold merge_store at 2.
  destruct (find (Prisma.has_id id) cs) as [c|] eqn:Hf; [|reflexivity].
  cbv zeta.
  destruct (g && Prisma.urn_taken _ _ (Some id) cs) eqn:G; [reflexivity|].
  assert (Hid : Contact.id (merged_row ex conn f t1 c) = id).
  { rewrite PrismaFacts.merged_row_id. now apply PrismaFacts.find_has_id in Hf. }
  unfold merge_store.
  rewrite (PrismaFacts.find_replace_row id _ c cs Hf Hid), Hf. cbv zeta.
  rewrite merged_row_twice, (urn_taken_replace _ _ id _ cs Hid).
  rewrite !PrismaFacts.merged_row_organizationId, !merged_row_stored_urn in *.
  rewrite G. apply PrismaFacts.replace_row_twice. exact Hid.
Qed.

Lemma find_app_fresh (p : Contact.t -> bool) (cs tail : list Contact.t) :
  find p cs = None -> find p (cs ++ tail) = find p tail.
Proof.
  induction cs as [|c r IH]; simpl; [reflexivity|].
  destruct (p c); [discriminate|exact IH].
Qed.

Lemma replace_row_app_fresh (id : ContactId) (row : Contact.t)
    (cs tail : list Contact.t) :
  find (Prisma.has_id id) cs = None ->
  Prisma.replace_row id row (cs ++ tail) = (cs ++ Prisma.replace_row id row tail)%list.
Proof.
  induction cs as [|c r IH]; simpl; [reflexivity|].
  destruct (Prisma.has_id id c); [discriminate|].
  intros H. now rewrite IH.
Qed.

Lemma holders_app (org urn : string) (cs tail : list Contact.t) :
  holders org urn (cs ++ tail) = (holders org urn cs ++ holders org urn tail)%list.
Proof. apply filter_app. Qed.

Lemma holders_single (org urn : string) (row : Contact.t) :
  Contact.organizationId row = org -> Contact.stored_urn row = Some urn ->
  holders org urn [row] = [row].
Proof.
  intros Ho Hu. unfold holders, Prisma.in_org, Prisma.urn_is. simpl.
  now rewrite Ho, Hu, !String.eqb_refl.
Qed.

Lemma no_holder_not_taken (org urn : string) (self : option ContactId)
    (cs : list Contact.t) :
  holders org urn cs = [] -> Prisma.urn_taken org (Some urn) self cs = false.
Proof.
  unfold holders, Prisma.urn_taken. induction cs as [|c r IH]; [reflexivity|].
  simpl. destruct (Prisma.in_org org c && Prisma.urn_is urn c); [discriminate|].
  exact IH.
Qed.

(** Without storage failures the URN step decides as soon as the
    organization has a holder of the URN. *)
Lemma findMatch_urn_hit (org : string) (conn : Connection.t) (w : World)
    (c : Contact.t) (rest : list Contact.t) :
  faults w = [] ->
  holders org (Connection.urn_id conn) (contacts w) = c :: rest ->
  fst (ContactMatcherService.findMatch org conn w)
  = Ok (ContactMatcherService.hit URN_ID (ContactMatcherService.as_existing c)).
Proof.
  intros Hf Hh. unfold ContactMatcherService.findMatch, bind.
  rewrite matchByUrnId_run, Hf, Hh. reflexivity.
Qed.

(** Without storage failures a miss means that nobody in the organization
    holds the URN. *)
Lemma findMatch_miss_no_holder (org : string) (conn : Connection.t) (w : World)
    (m : MatchResult.t) :
  faults w = [] ->
  fst (ContactMatcherService.findMatch org conn w) = Ok m ->
  MatchResult.found m = false ->
  holders org (Connection.urn_id conn) (contacts w) = [].
Proof.
  intros Hf. unfold ContactMatcherService.findMatch, bind.
  rewrite matchByUrnId_run, Hf. cbn [hd].
  destruct (holders org (Connection.urn_id conn) (contacts w)); [reflexivity|].
  cbn. intros [= <-]. discriminate.
Qed.

(** The activity log touches neither the contacts nor the clock. *)
Lemma log_activity_frame (org : string) (o : SyncResult.t) (conn : Connection.t)
    (w : World) :
  let w' := snd (OutreachSyncController.log_activity org o conn w) in
  contacts w' = contacts w
  /\ (faults w = [] -> faults w' = [])
  /\ unique_urn_guard w' = unique_urn_guard w
  /\ clock w' = clock w
  /\ ticks w' = ticks w.
Proof.
  unfold OutreachSyncController.log_activity.
  destruct (SyncResult.contact_id o); [destruct (SyncResult.success o)|];
    try (cbn; tauto).
  unfold ContactMergerService.createSyncActivity, Prisma.activity_create.
  exec. destruct (hd None (faults w)) eqn:E; exec; repeat split; auto;
    intros H; rewrite H in *; reflexivity.
Qed.

(** A request that passes validation and the secret check gets the outcome
    of steps 1 and 2, and the world that the activity log leaves. *)
Lemma handleConnectionAccepted_run (fmt : Zod.Formats)
    (this : OutreachSyncController.t) (rawPayload : JsVal) (w : World)
    (payload : Payload.t) :
  Zod.safeParse fmt rawPayload = Some payload ->
  OutreachSyncController.secret_refused this
    (SecretString (Payload.webhook_secret payload)) = false ->
  let org := Payload.organization_id (Payload.source payload) in
  let conn := Payload.connection payload in
  let mw := OutreachSyncController.match_and_write org conn w in
  exists o,
    fst mw = Ok o
    /\ OutreachSyncController.handleConnectionAccepted fmt this rawPayload w
       = (Ok o, snd (OutreachSyncController.log_activity org o conn (snd mw))).
Proof.
  intros Hp Hs org conn mw. subst mw.
  destruct (match_and_write_total org conn w) as (o & Ho & _).
  exists o. split; [exact Ho|].
  unfold OutreachSyncController.handleConnectionAccepted.
  rewrite Hp, Hs. unfold try_catch, bind. fold org conn.
  destruct (OutreachSyncController.match_and_write org conn w) as [[o'|e] w1];
    simpl in Ho; [injection Ho as ->|discriminate Ho].
  pose proof (log_activity_total org o conn w1) as Hl. cbn [snd].
  destruct (OutreachSyncController.log_activity org o conn w1) as [[[]|e] w2];
    simpl in Hl; [reflexivity|discriminate Hl].
Qed.

(** A run that reports [created], without storage failures: nobody held
    the URN, and one row was appended. *)
Lemma match_and_write_created (org : string) (conn : Connection.t) (w : World)
    (o : SyncResult.t) :
  faults w = [] ->
  fst (OutreachSyncController.match_and_write org conn w) = Ok o ->
  SyncResult.action o = created ->
  let row :=
    Prisma.new_row (Prisma.next_id (contacts w))
      (ContactMergerService.create_data org conn (clock w (ticks w))) in
  let w1 := snd (OutreachSyncController.match_and_write org conn w) in
  holders org (Connection.urn_id conn) (contacts w) = []
  /\ contacts w1 = (contacts w ++ [row])%list
  /\ SyncResult.contact_id o = Some (Contact.id row)
  /\ faults w1 = []
  /\ unique_urn_guard w1 = unique_urn_guard w.
Proof.
  intros Hf Ho Hact row w1. subst row w1.
  unfold OutreachSyncController.match_and_write, bind in *.
  destruct (findMatch_reads org conn w) as (m & Hm & Hreads).
  pose proof (findMatch_miss_no_holder org conn w m Hf Hm) as Hmiss.
  destruct (ContactMatcherService.findMatch org conn w) as [[m'|e] wf];
    simpl in Hm, Hreads; [injection Hm as ->|discriminate Hm].
  destruct Hreads as (Hcs & _ & Hcl & Htk & Hg & Hfl & _).
  specialize (Hfl Hf).
  destruct (MatchResult.found m).
  - exfalso.
    destruct (mergeContact_effect m conn false wf)
      as (res & Hres & [(Ha & _)|(id & ex & c & _ & _ & _ & _ & Ha & _)]);
      rewrite Hres in Ho; injection Ho as <-; congruence.
  - destruct (createContact_no_fault org conn wf Hfl)
      as (Hcont & (res & Hres & Hact' & Hcid) & Hfl' & Hg' & _).
    rewrite Hres in Ho. injection Ho as <-.
    rewrite Hcs, Hcl, Htk, Hg in *.
    destruct (unique_urn_guard w && _); [congruence|].
    repeat split; auto; congruence.
Qed.

(** A run on a store whose last row is the only holder of the URN, without
    storage failures: the row is found by its URN and merged. *)
Lemma match_and_write_existing (org : string) (conn : Connection.t) (w : World)
    (cs : list Contact.t) (row : Contact.t) :
  faults w = [] ->
  contacts w = (cs ++ [row])%list ->
  holders org (Connection.urn_id conn) cs = [] ->
  find (Prisma.has_id (Contact.id row)) cs = None ->
  Contact.organizationId row = org ->
  Contact.stored_urn row = Some (Connection.urn_id conn) ->
  let run := OutreachSyncController.match_and_write org conn w in
  exists o,
    fst run = Ok o
    /\ SyncResult.action o = updated
    /\ SyncResult.match_type o = Some URN_ID
    /\ SyncResult.contact_id o = Some (Contact.id row)
    /\ contacts (snd run)
       = (cs ++ [merged_row (ContactMatcherService.as_existing row) conn false
                   (clock w (ticks w)) row])%list.
Proof.
  intros Hf Hcs Hnone Hfresh Horg Hurn run. subst run.
  assert (Hh : holders org (Connection.urn_id conn) (contacts w) = [row]).
  { rewrite Hcs, holders_app, Hnone. now apply holders_single. }
  pose proof (findMatch_urn_hit org conn w row [] Hf Hh) as Hhit.
  unfold OutreachSyncController.match_and_write, bind.
  destruct (findMatch_reads org conn w) as (m & Hm & Hreads).
  rewrite Hhit in Hm. injection Hm as <-.
  destruct (ContactMatcherService.findMatch org conn w) as [[m'|e] wf];
    simpl in Hhit, Hreads; [injection Hhit as ->|discriminate Hhit].
  destruct Hreads as (Hcsf & _ & Hcl & Htk & Hg & Hfl & _).
  specialize (Hfl Hf). cbn [MatchResult.found ContactMatcherService.hit].
  destruct (mergeContact_no_fault
              (ContactMatcherService.hit URN_ID (ContactMatcherService.as_existing row))
              conn false wf (Contact.id row) (ContactMatcherService.as_existing row)
              eq_refl eq_refl Hfl)
    as (Hcont & (res & Hres & Hact & Hids) & _).
  rewrite Hcsf, Hcl, Htk, Hg, Hcs in *.
  rewrite (find_app_fresh _ cs [row] Hfresh) in *.
  assert (Hself : Prisma.has_id (Contact.id row) row = true)
    by (unfold Prisma.has_id; apply Nat.eqb_refl).
  cbn [find] in *. rewrite Hself in *.
  rewrite PrismaFacts.merged_row_organizationId, merged_row_stored_urn, Horg in *.
  assert (Hfree : Prisma.urn_taken org (Some (Connection.urn_id conn))
                    (Some (Contact.id row)) (cs ++ [row]) = false).
  { unfold Prisma.urn_taken. rewrite existsb_app.
    pose proof (no_holder_not_taken org _ (Some (Contact.id row)) cs Hnone) as Hn.
    unfold Prisma.urn_taken in Hn. rewrite Hn. cbn [existsb orb].
    now rewrite Hself, andb_false_r. }
  rewrite Hfree, andb_false_r in *.
  exists res. split; [exact Hres|]. split; [exact Hact|].
  destruct Hids as [Hid Hmt]; [discriminate|].
  split; [exact Hmt|]. split; [exact Hid|].
  rewrite Hcont, (replace_row_app_fresh _ _ cs [row] Hfresh).
  cbn [Prisma.replace_row]. now rewrite Hself.
Qed.

(** C3 (as amended).  Without storage failures:
    - two merges with the same match and the same record leave the
      contacts as one merge made at the second reading of the clock does
      (the last-synced timestamp is the only thing the second merge can
      change), so with equal readings the second merge changes nothing;
    - when storage enforces the uniqueness of the integration identifier,
      a second create with the same record is skipped and changes nothing;
    - when the full pipeline reports [created] for a payload, a second run
      with the identical payload reports [updated] with match kind
      [URN_ID] for the same contact, the store holds one contact more
      than before the first run, and exactly one contact of the
      organization holds the URN. *)
Theorem C3_repeated_delivery (w : World) :
  faults w = [] ->
  (forall m conn forceUpdate,
      let w1 := snd (ContactMergerService.mergeContact m conn forceUpdate w) in
      let w2 := snd (ContactMergerService.mergeContact m conn forceUpdate w1) in
      contacts w2
      = contacts (snd (ContactMergerService.mergeContact m conn forceUpdate
                         (set_ticks (S (ticks w)) w)))
      /\ (clock w (S (ticks w)) = clock w (ticks w) -> contacts w2 = contacts w1))
  /\ (forall org conn,
         unique_urn_guard w = true ->
         let w1 := snd (ContactMergerService.createContact org conn w) in
         let second := ContactMergerService.createContact org conn w1 in
         contacts (snd second) = contacts w1
         /\ exists res, fst second = Ok res /\ SyncResult.action res = skipped)
  /\ (forall fmt this rawPayload r1,
         fst (OutreachSyncController.handleConnectionAccepted fmt this rawPayload w)
         = Ok r1 ->
         SyncResult.action r1 = created ->
         let w1 :=
           snd (OutreachSyncController.handleConnectionAccepted fmt this rawPayload w) in
         let second :=
           OutreachSyncController.handleConnectionAccepted fmt this rawPayload w1 in
         exists r2 payload,
           Zod.safeParse fmt rawPayload = Some payload
           /\ fst second = Ok r2
           /\ SyncResult.action r2 = updated
           /\ SyncResult.match_type r2 = Some URN_ID
           /\ SyncResult.contact_id r2 = SyncResult.contact_id r1
           /\ List.length (contacts (snd second)) = S (List.length (contacts w))
           /\ List.length
                (holders (Payload.organization_id (Payload.source payload))
                   (Connection.urn_id (Payload.connection payload))
                   (contacts (snd second)))
              = 1).
Proof.
  intros Hf. split; [|split].
  - intros m conn f w1 w2. subst w1 w2.
    destruct (MatchResult.contact_id m) as [id|] eqn:Hid;
      [destruct (MatchResult.existing_data m) as [ex|] eqn:Hex|].
    2,3: (unfold ContactMergerService.mergeContact; rewrite ?Hid, ?Hex;
          cbn; tauto).
    destruct (mergeContact_no_fault m conn f w id ex Hid Hex Hf)
      as (_ & _ & Hf1 & Hg1 & Hc1 & Ht1).
    rewrite (mergeContact_no_fault_contacts m conn f _ id ex Hid Hex Hf1).
    rewrite !(mergeContact_no_fault_contacts m conn f _ id ex Hid Hex Hf).
    rewrite (mergeContact_no_fault_contacts m conn f (set_ticks (S (ticks w)) w)
               id ex Hid Hex Hf).
    rewrite Hg1, Hc1, Ht1.
    cbn [clock ticks unique_urn_guard contacts set_ticks].
    rewrite merge_store_twice. split; [reflexivity|]. now intros ->.
  - intros org conn Hg w1 second. subst w1 second.
    destruct (created_row_facts org conn (clock w (ticks w))
                (Prisma.next_id (contacts w))) as (_ & Horg & Hurn).
    destruct (createContact_no_fault org conn w Hf)
      as (Hc1 & _ & Hf1 & Hg1 & _).
    destruct (createContact_no_fault org conn _ Hf1)
      as (Hc2 & (res & Hres & Hact & _) & _).
    assert (Htaken :
      unique_urn_guard (snd (ContactMergerService.createContact org conn w)) &&
      Prisma.urn_taken org (Some (Connection.urn_id conn)) None
        (contacts (snd (ContactMergerService.createContact org conn w))) = true).
    { rewrite Hg1, Hg, Hc1, Hg. cbn [andb].
      destruct (Prisma.urn_taken org (Some (Connection.urn_id conn)) None
                  (contacts w)) eqn:E; [exact E|].
      unfold Prisma.urn_taken. rewrite existsb_app. cbn [existsb].
      unfold Prisma.in_org, Prisma.urn_is.
      rewrite Horg, Hurn, !String.eqb_refl. cbn. apply orb_true_r. }
    rewrite Htaken in Hc2, Hact.
    split; [exact Hc2|]. exists res. now split.
  - intros fmt this raw r1 Hr1 Hact w1 second. subst w1 second.
    destruct (Zod.safeParse fmt raw) as [payload|] eqn:Hp;
      [|unfold OutreachSyncController.handleConnectionAccepted in Hr1;
        rewrite Hp in Hr1; discriminate Hr1].
    destruct (OutreachSyncController.secret_refused this
                (SecretString (Payload.webhook_secret payload))) eqn:Hs;
      [unfold OutreachSyncController.handleConnectionAccepted in Hr1;
       rewrite Hp, Hs in Hr1; discriminate Hr1|].
    set (org := Payload.organization_id (Payload.source payload)).
    set (conn := Payload.connection payload).
    destruct (handleConnectionAccepted_run fmt this raw w payload Hp Hs)
      as (o1 & Ho1 & Hrun1).
    fold org conn in Ho1, Hrun1.
    rewrite Hrun1 in Hr1. cbn [fst] in Hr1. injection Hr1 as ->.
    rewrite Hrun1. cbn [snd].
    destruct (match_and_write_created org conn w r1 Hf Ho1 Hact)
      as (Hnone & Hcs1 & Hid1 & Hf1 & _).
    set (row := Prisma.new_row (Prisma.next_id (contacts w))
                  (ContactMergerService.create_data org conn (clock w (ticks w))))
      in *.
    destruct (created_row_facts org conn (clock w (ticks w))
                (Prisma.next_id (contacts w))) as (Hrid & Horg & Hurn).
    fold row in Hrid, Horg, Hurn.
    set (wa := snd (OutreachSyncController.log_activity org r1 conn
                      (snd (OutreachSyncController.match_and_write org conn w)))).
    destruct (log_activity_frame org r1 conn
                (snd (OutreachSyncController.match_and_write org conn w)))
      as (Hca & Hfa & _).
    fold wa in Hca, Hfa. specialize (Hfa Hf1). rewrite Hcs1 in Hca.
    destruct (handleConnectionAccepted_run fmt this raw wa payload Hp Hs)
      as (o2 & Ho2 & Hrun2).
    fold org conn in Ho2, Hrun2. rewrite Hrun2. cbn [fst snd].
    assert (Hfresh : find (Prisma.has_id (Contact.id row)) (contacts w) = None)
      by (rewrite Hrid; apply next_id_fresh).
    destruct (match_and_write_existing org conn wa (contacts w) row
                Hfa Hca Hnone Hfresh Horg Hurn)
      as (o2' & Ho2' & Ha2 & Hm2 & Hi2 & Hc2).
    rewrite Ho2 in Ho2'. injection Ho2' as <-.
    exists o2, payload. repeat split; auto; try congruence.
    + destruct (log_activity_frame org o2 conn
                  (snd (OutreachSyncController.match_and_write org conn wa)))
        as (-> & _).
      rewrite Hc2, length_app. simpl. lia.
    + destruct (log_activity_frame org o2 conn
                  (snd (OutreachSyncController.match_and_write org conn wa)))
        as (-> & _).
      fold org conn. rewrite Hc2, holders_app, Hnone. cbn [app].
      rewrite holders_single; [reflexivity| |].
      * now rewrite PrismaFacts.merged_row_organizationId.
      * apply merged_row_stored_urn.
Qed.

Lemma C3_counterexample :
  let empty := Sample.world [] [] false in
  let once := snd (ContactMergerService.createContact "org-1" Sample.ada empty) in
  let twice := snd (ContactMergerService.createContact "org-1" Sample.ada once) in
  let stored := Sample.world [Sample.grace] [] false in
  let m :=
    ContactMatcherService.hit URN_ID (ContactMatcherService.as_existing Sample.grace) in
  let merged1 := snd (ContactMergerService.mergeContact m Sample.ada false stored) in
  let merged2 := snd (ContactMergerService.mergeContact m Sample.ada false merged1) in
  (map Contact.id (contacts once) = [1]
   /\ map Contact.id (contacts twice) = [1; 2]
   /\ map Contact.stored_urn (contacts twice) = [Some "u1"; Some "u1"])
  /\ (map (fun c => Js.prop (Contact.customFields c) "lastSyncedAt") (contacts merged1)
      = [JStr "2024-05-01T10:00:00.000Z"]
      /\ map (fun c => Js.prop (Contact.customFields c) "lastSyncedAt")
             (contacts merged2)
         = [JStr "2024-05-01T10:00:01.000Z"]).
Proof. repeat split. Qed.

Lemma C3_repeated_delivery_witness :
  let this := OutreachSyncController.mk "s3cret" in
  let body := Sample.ada_request "s3cret" in
  let w := Sample.world [] [] false in
  let first :=
    OutreachSyncController.handleConnectionAccepted Sample.any_format this body w in
  let second :=
    OutreachSyncController.handleConnectionAccepted Sample.any_format this body
      (snd first) in
  faults w = []
  /\ fst first
     = Ok (SyncResult.mk true created (Some 1) (Some NEW)
             (Some "Created new contact: Ada Lovelace") None)
  /\ (exists r2,
         fst second = Ok r2
         /\ SyncResult.action r2 = updated
         /\ SyncResult.match_type r2 = Some URN_ID
         /\ SyncResult.contact_id r2 = Some 1
         /\ List.length (contacts (snd second)) = 1).
Proof.
  intros this body w first second.
  split; [reflexivity|]. split; [reflexivity|].
  destruct (proj2 (proj2 (C3_repeated_delivery w eq_refl))
              Sample.any_format this body
              (SyncResult.mk true created (Some 1) (Some NEW)
                 (Some "Created new contact: Ada Lovelace") None)
              eq_refl eq_refl)
    as (r2 & payload & _ & Hr2 & Ha & Hm & Hi & Hl & _).
  exists r2. repeat split; assumption.
Defined.

(* ===================================================================== *)
(** * Properties of the Authenticator *)
(* ===================================================================== *)

Module BufferFacts.
Import Buffer.

Lemma diff_bits_zero (a b : list Z) (acc : Z) :
  List.length a = List.length b ->
  (diff_bits a b acc = 0%Z <-> acc = 0%Z /\ a = b).
Proof.
  revert b acc. induction a as [|x a IH]; intros [|y b] acc Hlen;
    simpl in *; try discriminate.
  - tauto.
  - injection Hlen as Hlen. rewrite (IH b _ Hlen).
    rewrite Z.lor_eq_0_iff, Z.lxor_eq_0_iff. split.
    + intros [[-> ->] ->]. auto.
    + intros [-> [= -> ->]]. auto.
Qed.




(** On buffers of one length the constant-time loop decides equality. *)
Lemma timingSafeEqual_spec (a b : list Z) :
  List.length a = List.length b ->
  timingSafeEqual a b = Some (if list_eq_dec Z.eq_dec a b then true else false).
Proof.
  intros Hlen. unfold timingSafeEqual.
  rewrite Hlen, Nat.eqb_refl. f_equal.
  destruct (list_eq_dec Z.eq_dec a b) as [->|Hne].
  - apply Z.eqb_eq, diff_bits_zero; auto.
  - apply Z.eqb_neq. intros H. apply diff_bits_zero in H; tauto.
Qed.

Lemma timingSafeEqual_refl (a : list Z) : timingSafeEqual a a = Some true.
Proof.
  rewrite timingSafeEqual_spec by reflexivity.
  destruct (list_eq_dec Z.eq_dec a a); congruence.
Qed.



End BufferFacts.





(* ===================================================================== *)
(** * Names parsed from the full name *)
(* ===================================================================== *)

Module NameFacts.
Import JsString.

Lemma append_nil_r (s : string) : s ++ "" = s.
Proof. induction s as [|c r IH]; simpl; congruence. Qed.

Lemma append_assoc (a b c : string) : (a ++ b) ++ c = a ++ b ++ c.
Proof. induction a as [|x r IH]; simpl; congruence. Qed.

Lemma rev_onto_spec (s acc : string) : rev_onto s acc = rev s ++ acc.
Proof.
  unfold rev. revert acc. induction s as [|c r IH]; intros acc; simpl; [reflexivity|].
  rewrite IH, (IH (String c "")), append_assoc. reflexivity.
Qed.

Lemma rev_cons (c : ascii) (s : string) : rev (String c s) = rev s ++ String c "".
Proof. unfold rev at 1. simpl. apply rev_onto_spec. Qed.

Lemma rev_app (a b : string) : rev (a ++ b) = rev b ++ rev a.
Proof.
  induction a as [|c r IH]; simpl.
  - now rewrite append_nil_r.
  - now rewrite !rev_cons, IH, append_assoc.
Qed.

Lemma rev_involutive (s : string) : rev (rev s) = s.
Proof.
  induction s as [|c r IH]; [reflexivity|].
  rewrite rev_cons, rev_app, IH. reflexivity.
Qed.

Lemma all_ws_app (a b : string) : all_ws (a ++ b) = all_ws a && all_ws b.
Proof.
  induction a as [|c r IH]; simpl; [reflexivity|]. now rewrite IH, andb_assoc.
Qed.

Lemma all_ws_rev (s : string) : all_ws s = true -> all_ws (rev s) = true.
Proof.
  induction s as [|c r IH]; [reflexivity|]. simpl. intros H.
  apply andb_prop in H as [Hc Hr].
  rewrite rev_cons, all_ws_app, (IH Hr). simpl. now rewrite Hc.
Qed.

Lemma trimStart_ws (a s : string) : all_ws a = true -> trimStart (a ++ s) = trimStart s.
Proof.
  induction a as [|c r IH]; simpl; [reflexivity|].
  intros H. apply andb_prop in H as [Hc Hr]. rewrite Hc. auto.
Qed.

Lemma trimStart_blank (s : string) : all_ws s = true -> trimStart s = "".
Proof.
  intros H. rewrite <- (append_nil_r s). now rewrite trimStart_ws.
Qed.

Lemma trimStart_word (w s : string) : is_word w = true -> trimStart (w ++ s) = w ++ s.
Proof.
  destruct w as [|c r]; [discriminate|]. unfold is_word. simpl.
  intros H. apply andb_prop in H as [Hc _]. apply negb_true_iff in Hc.
  now rewrite Hc.
Qed.

Lemma is_word_rev (w : string) : is_word w = true -> is_word (rev w) = true.
Proof.
  unfold is_word. intros H. apply andb_prop in H as [Ht Hn].
  assert (Hno : forall s, no_ws s = true -> no_ws (rev s) = true).
  { induction s as [|c r IH]; [reflexivity|]. simpl. intros H.
    apply andb_prop in H as [Hc Hr]. rewrite rev_cons.
    assert (Happ : forall a b, no_ws a = true -> no_ws b = true -> no_ws (a ++ b) = true).
    { induction a as [|x a IHa]; simpl; intros b Ha Hb; [exact Hb|].
      apply andb_prop in Ha as [Hx Ha]. rewrite Hx. simpl. auto. }
    apply Happ; [auto|]. simpl. now rewrite Hc. }
  rewrite (Hno w Hn), andb_true_r.
  destruct w as [|c r]; [discriminate|]. rewrite rev_cons.
  now destruct (rev r).
Qed.

(** A text made of words and gaps ends with a word. *)
Lemma spaced_last_word (first : string) (rest : list (string * string)) :
  is_word first = true ->
  forallb (fun gw => is_gap (fst gw) && is_word (snd gw)) rest = true ->
  exists p w, first ++ spaced rest = p ++ w /\ is_word w = true.
Proof.
  revert first. induction rest as [|[g w1] r IH]; intros first Hf Hr.
  - exists "", first. simpl. now rewrite append_nil_r.
  - simpl in Hr. apply andb_prop in Hr as [Hgw Hr].
    apply andb_prop in Hgw as [_ Hw1].
    destruct (IH w1 Hw1 Hr) as (p & w & Heq & Hw).
    exists (first ++ g ++ p), w. split; [|exact Hw].
    cbn [spaced]. rewrite Heq, !append_assoc. reflexivity.
Qed.

(** [trim] removes the blanks around a text that starts and ends with a
    word, and nothing else. *)
Lemma trim_spaced (lead trail first : string) (rest : list (string * string)) :
  all_ws lead = true -> all_ws trail = true -> is_word first = true ->
  forallb (fun gw => is_gap (fst gw) && is_word (snd gw)) rest = true ->
  trim (lead ++ (first ++ spaced rest) ++ trail) = first ++ spaced rest.
Proof.
  intros Hl Ht Hf Hr. unfold trim.
  rewrite (trimStart_ws lead _ Hl), append_assoc, (trimStart_word first _ Hf).
  rewrite <- append_assoc, rev_app, (trimStart_ws _ _ (all_ws_rev _ Ht)).
  destruct (spaced_last_word first rest Hf Hr) as (p & w & Heq & Hw).
  rewrite Heq at 1. rewrite rev_app, (trimStart_word _ _ (is_word_rev _ Hw)).
  now rewrite <- rev_app, <- Heq, rev_involutive.
Qed.

Lemma trim_blank (s : string) : all_ws s = true -> trim s = "".
Proof. intros H. unfold trim. now rewrite (trimStart_blank s H). Qed.

Lemma split_ws_from_nonempty (b : bool) (s : string) : split_ws_from b s <> [].
Proof.
  revert b. induction s as [|c r IH]; intros b; simpl; [discriminate|].
  destruct (is_ws c).
  - destruct b; [apply IH|discriminate].
  - specialize (IH false). destruct (split_ws_from false r); [contradiction|discriminate].
Qed.

Lemma split_no_ws (w s : string) :
  no_ws w = true ->
  split_ws_from false (w ++ s)
  = match split_ws_from false s with
    | piece :: rest => (w ++ piece) :: rest
    | [] => [w]
    end.
Proof.
  induction w as [|c r IH]; intros Hn.
  - pose proof (split_ws_from_nonempty false s) as Hne. cbn [append].
    destruct (split_ws_from false s); [contradiction|reflexivity].
  - cbn [no_ws] in Hn. apply andb_prop in Hn as [Hc Hr].
    apply negb_true_iff in Hc.
    cbn [append split_ws_from]. rewrite Hc, (IH Hr).
    destruct (split_ws_from false s); reflexivity.
Qed.

(** A word at the head of the text joins the first piece of what follows. *)
Lemma split_word (b : bool) (w s : string) :
  is_word w = true ->
  split_ws_from b (w ++ s)
  = match split_ws_from false s with
    | piece :: rest => (w ++ piece) :: rest
    | [] => [w]
    end.
Proof.
  unfold is_word. intros H. apply andb_prop in H as [Ht Hn].
  destruct w as [|c r]; [discriminate|].
  rewrite <- (split_no_ws (String c r) s Hn).
  cbn [no_ws] in Hn. apply andb_prop in Hn as [Hc _].
  apply negb_true_iff in Hc. cbn [append split_ws_from]. now rewrite Hc.
Qed.

Lemma split_skip_ws (g s : string) :
  all_ws g = true -> split_ws_from true (g ++ s) = split_ws_from true s.
Proof.
  induction g as [|c r IH]; simpl; [reflexivity|].
  intros H. apply andb_prop in H as [Hc Hr]. rewrite Hc. auto.
Qed.

(** A gap before a word closes the current piece. *)
Lemma split_gap (g w s : string) :
  is_gap g = true -> is_word w = true ->
  split_ws_from false (g ++ w ++ s) = "" :: split_ws_from false (w ++ s).
Proof.
  unfold is_gap. intros Hg Hw. apply andb_prop in Hg as [Ht Ha].
  destruct g as [|c r]; [discriminate|]. simpl in Ha |- *.
  apply andb_prop in Ha as [Hc Hr]. rewrite Hc, (split_skip_ws r _ Hr).
  now rewrite !(split_word _ w s Hw).
Qed.

Lemma split_spaced (first : string) (rest : list (string * string)) :
  is_word first = true ->
  forallb (fun gw => is_gap (fst gw) && is_word (snd gw)) rest = true ->
  split_ws (first ++ spaced rest) = first :: map snd rest.
Proof.
  unfold split_ws. revert first.
  induction rest as [|[g w] r IH]; intros first Hf Hr.
  - simpl. rewrite (split_word false first "" Hf). simpl. now rewrite append_nil_r.
  - simpl in Hr. apply andb_prop in Hr as [Hgw Hr].
    apply andb_prop in Hgw as [Hg Hw]. simpl in Hg, Hw.
    cbn [spaced map snd]. rewrite (split_word false first _ Hf).
    rewrite (split_gap g w _ Hg Hw), (IH w Hw Hr). now rewrite append_nil_r.
Qed.

End NameFacts.

(** X1.  [parseName] falls back on the full name unless both a first and a
    last name are given (an empty one counts as not given).  Then the
    blanks around the full name are dropped, its first word is the first
    name, and the other words, joined by single spaces whatever the
    whitespace between them was, are the last name. *)
Theorem parseName_splits_words (lead trail first : string)
    (rest : list (string * string)) (firstName lastName : option string) :
  all_ws lead = true -> all_ws trail = true -> is_word first = true ->
  forallb (fun gw => is_gap (fst gw) && is_word (snd gw)) rest = true ->
  JsString.truthy_opt firstName && JsString.truthy_opt lastName = false ->
  ContactMergerService.parseName (lead ++ (first ++ spaced rest) ++ trail)
    firstName lastName
  = (first, JsString.join " " (map snd rest)).
Proof.
  intros Hl Ht Hf Hr Hgiven.
  assert (Hsplit :
    ContactMergerService.split_name (lead ++ (first ++ spaced rest) ++ trail)
    = (first, JsString.join " " (map snd rest))).
  { unfold ContactMergerService.split_name.
    rewrite (NameFacts.trim_spaced lead trail first rest Hl Ht Hf Hr).
    rewrite (NameFacts.split_spaced first rest Hf Hr).
    destruct rest as [|[g w] r]; reflexivity. }
  unfold ContactMergerService.parseName.
  destruct firstName as [f|], lastName as [l|]; try exact Hsplit.
  simpl in Hgiven. now rewrite Hgiven.
Qed.

Lemma parseName_splits_words_witness :
  ContactMergerService.parseName "  Ada   Augusta King  " (Some "Ada") None
  = ("Ada", "Augusta King")
  /\ ContactMergerService.parseName "Cher" None (Some "")
     = ("Cher", "").
Proof.
  split.
  - apply (parseName_splits_words "  " "  " "Ada" [("   ", "Augusta"); (" ", "King")]
             (Some "Ada") None); reflexivity.
  - apply (parseName_splits_words "" "" "Cher" [] None (Some "")); reflexivity.
Defined.

(** X2.  A full name that is empty or all whitespace gives an empty first
    name and an empty last name, unless both names are given. *)
Theorem parseName_blank (fullName : string) (firstName lastName : option string) :
  all_ws fullName = true ->
  JsString.truthy_opt firstName && JsString.truthy_opt lastName = false ->
  ContactMergerService.parseName fullName firstName lastName
  = (EmptyString, EmptyString).
Proof.
  intros Hb Hgiven.
  assert (Hsplit : ContactMergerService.split_name fullName = ("", "")).
  { unfold ContactMergerService.split_name.
    now rewrite (NameFacts.trim_blank fullName Hb). }
  unfold ContactMergerService.parseName.
  destruct firstName as [f|], lastName as [l|]; try exact Hsplit.
  simpl in Hgiven. now rewrite Hgiven.
Qed.

Lemma parseName_blank_witness :
  ContactMergerService.parseName "   " (Some "Ada") None = ("", "").
Proof. apply (parseName_blank "   " (Some "Ada") None); reflexivity. Defined.

(* ===================================================================== *)
(** * URL spellings and the two normalizers *)
(* ===================================================================== *)

Module DedupFacts.
Import ContactMatcherService.

Lemma existsb_eqb_In (x : string) (l : list string) :
  existsb (String.eqb x) l = true <-> In x l.
Proof.
  rewrite existsb_exists. split.
  - intros (y & Hy & He). apply String.eqb_eq in He. now subst.
  - intros H. exists x. split; [exact H|apply String.eqb_refl].
Qed.

Lemma dedup_In (xs seen : list string) (x : string) :
  In x (dedup seen xs) <-> In x xs /\ ~ In x seen.
Proof.
  revert seen. induction xs as [|y r IH]; intros seen; simpl; [tauto|].
  destruct (existsb (String.eqb y) seen) eqn:E.
  - apply existsb_eqb_In in E. rewrite IH. split.
    + intros [H1 H2]. tauto.
    + intros [[->|H1] H2]; [contradiction|tauto].
  - assert (Hy : ~ In y seen).
    { intros H. apply existsb_eqb_In in H. congruence. }
    simpl. rewrite IH. simpl. split.
    + intros [<-|[H1 H2]]; [tauto|]. split; [tauto|]. intros H. apply H2. now right.
    + intros [[->|H1] H2]; [now left|].
      destruct (string_dec y x) as [->|Hne]; [now left|right].
      split; [exact H1|]. intros [H|H]; contradiction.
Qed.

Lemma dedup_NoDup (xs seen : list string) : NoDup (dedup seen xs).
Proof.
  revert seen. induction xs as [|y r IH]; intros seen; simpl; [constructor|].
  destruct (existsb (String.eqb y) seen); [apply IH|].
  constructor; [|apply IH].
  rewrite dedup_In. intros [_ H]. apply H. now left.
Qed.

Lemma dedup_length (xs seen : list string) :
  List.length (dedup seen xs) <= List.length xs.
Proof.
  revert seen. induction xs as [|y r IH]; intros seen; simpl; [lia|].
  destruct (existsb (String.eqb y) seen); [specialize (IH seen)|specialize (IH (y :: seen))];
    simpl; lia.
Qed.

End DedupFacts.

(** X3.  [getLinkedInUrlVariations] returns the URL itself first, no spelling
    twice, and at most seven spellings: the URL alone when it has no
    [linkedin.com/in/<id>] part, and otherwise exactly the URL and the six
    spellings of the public identifier found in it. *)
Theorem variations_shape (url : string) :
  let vs := ContactMatcherService.getLinkedInUrlVariations url in
  hd_error vs = Some url
  /\ NoDup vs
  /\ List.length vs <= 7
  /\ (Regex.match_group "linkedin.com/in/" url = None -> vs = [url])
  /\ (forall publicId,
         Regex.match_group "linkedin.com/in/" url = Some publicId ->
         forall v, In v vs <-> v = url \/ In v (spellings publicId)).
Proof.
  intros vs. subst vs. unfold ContactMatcherService.getLinkedInUrlVariations.
  fold ContactMatcherService.in_pattern.
  change "linkedin.com/in/" with ContactMatcherService.in_pattern.
  split; [reflexivity|]. split; [apply DedupFacts.dedup_NoDup|]. split; [|split].
  - etransitivity; [apply DedupFacts.dedup_length|].
    destruct (Regex.match_group _ url); simpl; lia.
  - intros ->. reflexivity.
  - intros publicId ->. intros v. rewrite DedupFacts.dedup_In.
    unfold spellings. simpl. intuition congruence.
Qed.

Module UrlFacts.
Import Regex.

(** A host that reads as the literal, up to the case of ASCII letters, is
    matched by it. *)
Lemma after_literal_fold (lit host rest : string) :
  ascii_fold host = ascii_fold lit -> after_literal lit (host ++ rest) = Some rest.
Proof.
  revert host. induction lit as [|a lit IH]; intros [|c host]; simpl; try discriminate.
  - reflexivity.
  - intros [= Hc Hr]. rewrite Hc, Ascii.eqb_refl. now apply IH.
Qed.

Lemma segment_then_tail (s tail : string) :
  no_delim s = true -> is_url_tail tail = true -> segment (s ++ tail) = s.
Proof.
  intros Hs Ht. induction s as [|c r IH]; simpl in *.
  - destruct tail as [|d t]; [reflexivity|]. simpl in *. now rewrite Ht.
  - apply andb_prop in Hs as [Hc Hr]. apply negb_true_iff in Hc.
    rewrite Hc. now rewrite IH.
Qed.

Lemma match_here_profile (host publicId tail : string) :
  ascii_fold host = "linkedin.com/in/" ->
  is_segment publicId = true -> is_url_tail tail = true ->
  match_here "linkedin.com/in/" (host ++ publicId ++ tail) = Some publicId.
Proof.
  intros Hh Hp Ht. unfold match_here.
  rewrite (after_literal_fold "linkedin.com/in/" host _ Hh).
  unfold is_segment in Hp. apply andb_prop in Hp as [Hne Hnd].
  rewrite (segment_then_tail _ _ Hnd Ht). now destruct publicId.
Qed.

(** The pattern cannot match where the text has no [l]. *)
Lemma match_group_past (pre s : string) :
  lacks "l" pre = true ->
  match_group "linkedin.com/in/" (pre ++ s) = match_group "linkedin.com/in/" s.
Proof.
  induction pre as [|c r IH]; [reflexivity|]. cbn [lacks append].
  intros H. apply andb_prop in H as [Hc Hr]. apply negb_true_iff in Hc.
  rewrite RegexFacts.match_group_skip; [now apply IH|].
  unfold match_here. cbn [after_literal].
  change (fold_case "l") with "l"%char. now rewrite Ascii.eqb_sym, Hc.
Qed.

Lemma match_group_profile (pre host publicId tail : string) :
  lacks "l" pre = true ->
  ascii_fold host = "linkedin.com/in/" ->
  is_segment publicId = true -> is_url_tail tail = true ->
  match_group "linkedin.com/in/" (pre ++ host ++ publicId ++ tail) = Some publicId.
Proof.
  intros Hs Hh Hp Ht. rewrite (match_group_past pre _ Hs).
  apply RegexFacts.match_group_hit. now apply match_here_profile.
Qed.

End UrlFacts.

(** X4.  Both normalizers reduce a profile URL that comes without public id
    to the canonical URL of the identifier found in it: whatever precedes the host (as long as it holds no
    letter l, so that the pattern cannot match earlier), whatever the case
    of the host and of [/in/], and whatever follows the identifier behind a
    [/], [?] or [#].  The case of the identifier is kept. *)
Theorem normalize_profile_url (pre host publicId tail : string) :
  lacks "l" pre = true ->
  ascii_fold host = "linkedin.com/in/" ->
  Regex.is_segment publicId = true ->
  is_url_tail tail = true ->
  let url := pre ++ host ++ publicId ++ tail in
  ContactMatcherService.normalizeLinkedInUrl (Some url) None
  = Some ("https://www.linkedin.com/in/" ++ publicId)
  /\ ContactMergerService.normalizeLinkedInUrl (Some url) None
     = Some ("https://www.linkedin.com/in/" ++ publicId).
Proof.
  intros Hs Hh Hp Ht url.
  pose proof (UrlFacts.match_group_profile pre host publicId tail Hs Hh Hp Ht) as Hm.
  fold url in Hm.
  assert (Hne : JsString.truthy url = true).
  { destruct url; [discriminate Hm|reflexivity]. }
  split.
  - apply (normalize_of_in_match publicId). exact Hm.
  - unfold ContactMergerService.normalizeLinkedInUrl. cbn [JsString.truthy_opt].
    now rewrite Hne, Hm.
Qed.

Lemma normalize_profile_url_witness :
  lacks "l" "HTTPS://uk." = true
  /\ ascii_fold "LinkedIn.com/IN/" = "linkedin.com/in/"
  /\ ContactMatcherService.normalizeLinkedInUrl
       (Some "HTTPS://uk.LinkedIn.com/IN/Ada-L?utm_source=share#about") None
     = Some "https://www.linkedin.com/in/Ada-L"
  /\ ContactMergerService.normalizeLinkedInUrl
       (Some "HTTPS://uk.LinkedIn.com/IN/Ada-L/detail/contact-info/") None
     = Some "https://www.linkedin.com/in/Ada-L".
Proof.
  split; [reflexivity|]. split; [reflexivity|]. split.
  - exact (proj1 (normalize_profile_url "HTTPS://uk." "LinkedIn.com/IN/" "Ada-L"
                    "?utm_source=share#about" eq_refl eq_refl eq_refl eq_refl)).
  - exact (proj2 (normalize_profile_url "HTTPS://uk." "LinkedIn.com/IN/" "Ada-L"
                    "/detail/contact-info/" eq_refl eq_refl eq_refl eq_refl)).
Defined.

(** X5.  The matcher's and the merger's normalizer disagree exactly on a
    profile URL that comes without public identifier, has no
    [linkedin.com/in/<id>] part and is a Sales Navigator lead or people URL: the matcher rewrites it,
    the merger keeps it as it is. *)
Theorem normalizers_differ_iff (profileUrl publicId : option string) :
  ContactMatcherService.normalizeLinkedInUrl profileUrl publicId
  <> ContactMergerService.normalizeLinkedInUrl profileUrl publicId
  <-> JsString.truthy_opt publicId = false
      /\ exists url,
           profileUrl = Some url
           /\ Regex.match_group "linkedin.com/in/" url = None
           /\ (Regex.match_group "linkedin.com/sales/lead/" url <> None
               \/ Regex.match_group "linkedin.com/sales/people/" url <> None).
Proof.
  unfold ContactMatcherService.normalizeLinkedInUrl,
    ContactMergerService.normalizeLinkedInUrl,
    ContactMatcherService.canonical_url.
  destruct (JsString.truthy_opt publicId) eqn:Hp.
  { split; [intros H; now destruct H|intros [H _]; discriminate H]. }
  destruct profileUrl as [url|].
  2: { split; [intros H; now destruct H|intros (_ & u & H & _); discriminate H]. }
  cbn [ContactMatcherService.first_pattern_match].
  change ContactMatcherService.in_pattern with "linkedin.com/in/".
  change ContactMatcherService.sales_lead_pattern with "linkedin.com/sales/lead/".
  change ContactMatcherService.sales_people_pattern with "linkedin.com/sales/people/".
  destruct (JsString.truthy url) eqn:Hu; cbn [negb].
  2: { destruct url; [|discriminate Hu].
       split; [intros H; now destruct H|].
       intros (_ & u & [= <-] & _ & [H|H]); now destruct H. }
  destruct (Regex.match_group "linkedin.com/in/" url) as [g|] eqn:Hin.
  { split; [intros H; now destruct H|].
    intros (_ & u & [= <-] & H & _). congruence. }
  assert (Hcanon : forall g, Regex.is_segment g = true ->
                             Some ("https://www.linkedin.com/in/" ++ g) <> Some url).
  { intros g Hg [= <-].
    pose proof (in_pattern_canonical g Hg) as Hc.
    unfold ContactMatcherService.canonical_url, ContactMatcherService.in_pattern in Hc.
    cbn [append] in Hc, Hin. rewrite Hc in Hin. discriminate Hin. }
  destruct (Regex.match_group "linkedin.com/sales/lead/" url) as [g|] eqn:Hl.
  { split.
    - intros _. split; [reflexivity|]. exists url. repeat split; auto.
      left. congruence.
    - intros _. apply Hcanon. eapply RegexFacts.match_group_is_segment. exact Hl. }
  destruct (Regex.match_group "linkedin.com/sales/people/" url) as [g|] eqn:Hpe.
  { split.
    - intros _. split; [reflexivity|]. exists url. repeat split; auto.
      right. congruence.
    - intros _. apply Hcanon. eapply RegexFacts.match_group_is_segment. exact Hpe. }
  split; [intros H; now destruct H|].
  intros (_ & u & [= <-] & _ & [H|H]); now destruct H.
Qed.

(** The two normalizers side by side: they agree, or the URL is a Sales
    Navigator URL without an [/in/] part, which only the matcher rewrites. *)
Lemma normalizers_cases (url : string) (publicId : option string) :
  ContactMatcherService.normalizeLinkedInUrl (Some url) publicId
  = ContactMergerService.normalizeLinkedInUrl (Some url) publicId
  \/ exists g,
       Regex.is_segment g = true
       /\ Regex.match_group "linkedin.com/in/" url = None
       /\ ContactMatcherService.normalizeLinkedInUrl (Some url) publicId
          = Some (ContactMatcherService.canonical_url g)
       /\ ContactMergerService.normalizeLinkedInUrl (Some url) publicId = Some url.
Proof.
  unfold ContactMatcherService.normalizeLinkedInUrl,
    ContactMergerService.normalizeLinkedInUrl.
  destruct (JsString.truthy_opt publicId); [now left|].
  destruct (JsString.truthy url); cbn [negb]; [|now left].
  cbn [ContactMatcherService.first_pattern_match].
  change ContactMatcherService.in_pattern with "linkedin.com/in/".
  destruct (Regex.match_group "linkedin.com/in/" url) as [g|] eqn:Hin; [now left|].
  destruct (Regex.match_group ContactMatcherService.sales_lead_pattern url)
    as [g|] eqn:Hl.
  { right. exists g. repeat split; auto.
    eapply RegexFacts.match_group_is_segment; exact Hl. }
  destruct (Regex.match_group ContactMatcherService.sales_people_pattern url)
    as [g|] eqn:Hpe; [|now left].
  right. exists g. repeat split; auto.
  eapply RegexFacts.match_group_is_segment; exact Hpe.
Qed.

(** Every variation of a canonical URL has an [/in/] part. *)
Lemma variations_have_in_part (g v : string) :
  Regex.is_segment g = true ->
  In v (ContactMatcherService.getLinkedInUrlVariations
          (ContactMatcherService.canonical_url g)) ->
  Regex.match_group "linkedin.com/in/" v = Some g.
Proof.
  intros Hg Hv. unfold ContactMatcherService.getLinkedInUrlVariations in Hv.
  apply DedupFacts.dedup_In in Hv as [Hv _].
  rewrite (in_pattern_canonical g Hg) in Hv. simpl in Hv.
  destruct Hv as [<-|[<-|[<-|[<-|[<-|[<-|[<-|[]]]]]]]].
  - apply in_pattern_canonical, Hg.
  - apply in_pattern_canonical, Hg.
  - apply in_pattern_https_bare, Hg.
  - apply in_pattern_http_www, Hg.
  - apply in_pattern_http_bare, Hg.
  - apply in_pattern_trailing_slash, Hg.
  - apply in_pattern_schemeless, Hg.
Qed.

Lemma variations_self (u : string) :
  existsb (String.eqb u) (ContactMatcherService.getLinkedInUrlVariations u) = true.
Proof.
  apply DedupFacts.existsb_eqb_In.
  unfold ContactMatcherService.getLinkedInUrlVariations.
  apply DedupFacts.dedup_In. split; [now left|intros []].
Qed.

Lemma created_row_linkedinUrl (org : string) (conn : Connection.t) (t : string)
    (id : ContactId) :
  Contact.linkedinUrl (Prisma.new_row id (ContactMergerService.create_data org conn t))
  = ContactMergerService.normalizeLinkedInUrl
      (Some (Connection.profile_url conn)) (Connection.public_id conn).
Proof.
  unfold ContactMergerService.create_data.
  destruct (ContactMergerService.parseName _ _ _) as [fn ln]. reflexivity.
Qed.

(** X6.  What [createContact] stores as LinkedIn URL against what
    [matchByLinkedInUrl] looks for.  When the two normalizers agree on the
    record, the URL lookup for the same record finds a contact after the
    create.  When they do not (X5) and no earlier contact answers, the URL
    lookup misses the contact that was just created. *)
Theorem created_contact_found_by_url (org : string) (conn : Connection.t)
    (w : World) (res : SyncResult.t) (u : string) :
  faults w = [] ->
  fst (ContactMergerService.createContact org conn w) = Ok res ->
  SyncResult.action res = created ->
  ContactMatcherService.normalizeLinkedInUrl
    (Some (Connection.profile_url conn)) (Connection.public_id conn) = Some u ->
  let w1 := snd (ContactMergerService.createContact org conn w) in
  let stored :=
    ContactMergerService.normalizeLinkedInUrl
      (Some (Connection.profile_url conn)) (Connection.public_id conn) in
  (stored = Some u ->
   exists m, fst (ContactMatcherService.matchByLinkedInUrl org u w1) = Ok (Some m))
  /\ (stored <> Some u ->
      (forall c, In c (contacts w) ->
         Prisma.in_org org c
         && Prisma.url_in (ContactMatcherService.getLinkedInUrlVariations u) c = false) ->
      fst (ContactMatcherService.matchByLinkedInUrl org u w1) = Ok None).
Proof.
  intros Hf Hres Hact Hu w1 stored. subst w1 stored.
  destruct (createContact_no_fault org conn w Hf)
    as (Hcs & (res' & Hres' & Hact' & _) & Hf1 & _).
  rewrite Hres in Hres'. injection Hres' as <-.
  destruct (unique_urn_guard w && _); [congruence|].
  rewrite !matchByLinkedInUrl_run, Hf1, Hcs. cbn [hd fst].
  set (row := Prisma.new_row (Prisma.next_id (contacts w))
                (ContactMergerService.create_data org conn (clock w (ticks w)))) in *.
  destruct (created_row_facts org conn (clock w (ticks w))
              (Prisma.next_id (contacts w))) as (_ & Horg & _).
  fold row in Horg.
  pose proof (created_row_linkedinUrl org conn (clock w (ticks w))
                (Prisma.next_id (contacts w))) as Hurl.
  fold row in Hurl.
  set (p := fun c => Prisma.in_org org c
                     && Prisma.url_in (ContactMatcherService.getLinkedInUrlVariations u) c).
  split.
  - intros Hs.
    destruct (find p (contacts w ++ [row])) as [c|] eqn:E; [now eexists|].
    exfalso. assert (Hin : In row (contacts w ++ [row])) by (apply in_or_app; right; now left).
    pose proof (find_none _ _ E row Hin) as Hp. unfold p in Hp.
    unfold Prisma.in_org, Prisma.url_in in Hp.
    rewrite Horg, Hurl, Hs, String.eqb_refl, variations_self in Hp. discriminate Hp.
  - intros Hne Hold.
    destruct (find p (contacts w ++ [row])) as [c|] eqn:E; [|reflexivity].
    exfalso. apply find_some in E as [Hin Hp].
    apply in_app_or in Hin as [Hin|[<-|[]]].
    + unfold p in Hp. rewrite (Hold c Hin) in Hp. discriminate Hp.
    + unfold p in Hp. apply andb_prop in Hp as [_ Hp].
      unfold Prisma.url_in in Hp. rewrite Hurl in Hp.
      destruct (normalizers_cases (Connection.profile_url conn) (Connection.public_id conn))
        as [Heq|(g & Hg & Hin & Hm & Hs)].
      * rewrite Heq in Hu. contradiction.
      * rewrite Hs in Hp. rewrite Hm in Hu. injection Hu as <-.
        apply DedupFacts.existsb_eqb_In in Hp.
        pose proof (variations_have_in_part g _ Hg Hp) as Hv. congruence.
Qed.

Lemma created_contact_found_by_url_witness :
  (exists m,
      fst (ContactMatcherService.matchByLinkedInUrl "org-1"
             "https://www.linkedin.com/in/ada"
             (snd (ContactMergerService.createContact "org-1" Sample.ada
                     (Sample.world [] [] false))))
      = Ok (Some m))
  /\ ContactMatcherService.normalizeLinkedInUrl
       (Some (Connection.profile_url Cases.lead)) None
     = Some "https://www.linkedin.com/in/ACwAAB7,NAME"
  /\ fst (ContactMatcherService.matchByLinkedInUrl "org-1"
            "https://www.linkedin.com/in/ACwAAB7,NAME"
            (snd (ContactMergerService.createContact "org-1" Cases.lead
                    (Sample.world [] [] false))))
     = Ok None.
Proof.
  split; [|split; [reflexivity|]].
  - apply (proj1 (created_contact_found_by_url "org-1" Sample.ada
                    (Sample.world [] [] false) _ "https://www.linkedin.com/in/ada"
                    eq_refl eq_refl eq_refl eq_refl)).
    reflexivity.
  - apply (proj2 (created_contact_found_by_url "org-1" Cases.lead
                    (Sample.world [] [] false) _
                    "https://www.linkedin.com/in/ACwAAB7,NAME"
                    eq_refl eq_refl eq_refl eq_refl)).
    + discriminate.
    + intros c [].
Defined.

(* ===================================================================== *)
(** * What a match means, and a storage outage *)
(* ===================================================================== *)

Lemma find_in_org (org : string) (q : Contact.t -> bool) (cs : list Contact.t)
    (c : Contact.t) :
  find (fun c => Prisma.in_org org c && q c) cs = Some c ->
  In c cs /\ Contact.organizationId c = org /\ q c = true.
Proof.
  intros H. apply find_some in H as [Hin Hp]. apply andb_prop in Hp as [Ho Hq].
  split; [exact Hin|]. split; [now apply String.eqb_eq in Ho|exact Hq].
Qed.

Lemma url_in_spec (vs : list string) (c : Contact.t) :
  Prisma.url_in vs c = true <-> exists s, Contact.linkedinUrl c = Some s /\ In s vs.
Proof.
  unfold Prisma.url_in. destruct (Contact.linkedinUrl c) as [s|].
  - rewrite existsb_exists. split.
    + intros (y & Hy & He). apply String.eqb_eq in He. subst y. now exists s.
    + intros (s' & [= <-] & Hin). exists s. split; [exact Hin|apply String.eqb_refl].
  - split; [discriminate|]. intros (s & H & _). discriminate H.
Qed.

Lemma email_is_spec (e : string) (c : Contact.t) :
  Prisma.email_is e c = true <-> Contact.email c = Some e.
Proof.
  unfold Prisma.email_is. destruct (Contact.email c) as [e'|].
  - rewrite String.eqb_eq. split; congruence.
  - split; discriminate.
Qed.

(** X7.  [findMatch] never throws and never writes, whatever storage does.
    A miss is the constant "no match" result.  A hit names a stored contact
    of the organization asked for, with its id and snapshot, and its kind
    tells why the contact answers: it holds the URN, its URL is one of the
    variations of the normalized URL, or its email is the lowercased
    inbound email. *)
Theorem findMatch_sound (org : string) (conn : Connection.t) (w : World) :
  exists m,
    fst (ContactMatcherService.findMatch org conn w) = Ok m
    /\ contacts (snd (ContactMatcherService.findMatch org conn w)) = contacts w
    /\ activities (snd (ContactMatcherService.findMatch org conn w)) = activities w
    /\ (MatchResult.found m = false -> m = ContactMatcherService.miss)
    /\ (MatchResult.found m = true ->
        exists kind c,
          m = ContactMatcherService.hit kind (ContactMatcherService.as_existing c)
          /\ In c (contacts w)
          /\ Contact.organizationId c = org
          /\ match_reason kind conn c).
Proof.
  assert (Hemail : forall w1,
    contacts w1 = contacts w -> activities w1 = activities w ->
    exists m,
      fst (ContactMatcherService.findMatch_email org (Connection.email conn) w1) = Ok m
      /\ contacts (snd (ContactMatcherService.findMatch_email org
                          (Connection.email conn) w1)) = contacts w
      /\ activities (snd (ContactMatcherService.findMatch_email org
                            (Connection.email conn) w1)) = activities w
      /\ (MatchResult.found m = false -> m = ContactMatcherService.miss)
      /\ (MatchResult.found m = true ->
          exists kind c,
            m = ContactMatcherService.hit kind (ContactMatcherService.as_existing c)
            /\ In c (contacts w)
            /\ Contact.organizationId c = org
            /\ match_reason kind conn c)).
  { intros w1 Hc Ha. unfold ContactMatcherService.findMatch_email.
    destruct (Connection.email conn) as [e|] eqn:He;
      [destruct (JsString.truthy e) eqn:Ht|];
      try (exists ContactMatcherService.miss; cbn; repeat split; auto; discriminate).
    unfold bind. rewrite matchByEmail_run.
    destruct (hd None (faults w1));
      [exists ContactMatcherService.miss; cbn; repeat split; auto; discriminate|].
    destruct (find _ (contacts w1)) as [c|] eqn:Hf;
      [|exists ContactMatcherService.miss; cbn; repeat split; auto; discriminate].
    apply find_in_org in Hf as (Hin & Ho & Hq). apply email_is_spec in Hq.
    eexists. cbn. repeat split; auto; [discriminate|].
    intros _. exists EMAIL, c. rewrite <- Hc. repeat split; auto.
    exists e. auto. }
  unfold ContactMatcherService.findMatch, bind. rewrite matchByUrnId_run.
  destruct (hd None (faults w)) as [e|].
  2: destruct (hd_error (holders org (Connection.urn_id conn) (contacts w)))
       as [c|] eqn:Hh.
  2: { apply holders_head in Hh as (Hin & Ho & Hu).
       eexists. cbn. repeat split; auto; [discriminate|].
       intros _. exists URN_ID, c. repeat split; auto. }
  all: cbn [option_map]; unfold ContactMatcherService.findMatch_url;
    (destruct (ContactMatcherService.normalizeLinkedInUrl _ _) as [u|] eqn:Hn;
     [destruct (JsString.truthy u)|]; try (apply Hemail; reflexivity));
    unfold bind; rewrite matchByLinkedInUrl_run;
    (match goal with
     | |- context [hd None (faults ?w1)] => destruct (hd None (faults w1))
     end; [apply Hemail; reflexivity|]);
    cbn [contacts log_call];
    (destruct (find _ (contacts w)) as [c|] eqn:Hf; [|apply Hemail; reflexivity]);
    apply find_in_org in Hf as (Hin & Ho & Hq); apply url_in_spec in Hq as (s & Hs & Hv);
    (eexists; cbn; repeat split; auto; [discriminate|]);
    intros _; exists LINKEDIN_URL, c; repeat split; auto; exists u, s; auto.
Qed.

Lemma normalize_truthy (profileUrl publicId : option string) (u : string) :
  ContactMatcherService.normalizeLinkedInUrl profileUrl publicId = Some u ->
  JsString.truthy u = true.
Proof.
  unfold ContactMatcherService.normalizeLinkedInUrl.
  destruct (JsString.truthy_opt publicId).
  - destruct publicId; intros [= <-]. reflexivity.
  - destruct profileUrl as [url|]; [|discriminate].
    destruct (JsString.truthy url) eqn:Ht; cbn [negb]; [|discriminate].
    destruct (ContactMatcherService.first_pattern_match _ url); intros [= <-];
      [reflexivity|exact Ht].
Qed.

(** X8.  Without storage failures a miss is final: no contact of the
    organization holds the URN, has one of the URL variations, or has the
    lowercased email of the record. *)
Theorem findMatch_miss_complete (org : string) (conn : Connection.t) (w : World)
    (m : MatchResult.t) :
  faults w = [] ->
  fst (ContactMatcherService.findMatch org conn w) = Ok m ->
  MatchResult.found m = false ->
  forall kind c,
    In c (contacts w) -> Contact.organizationId c = org -> ~ match_reason kind conn c.
Proof.
  destruct w as [cs acts fs clk tk tr g]. cbn [faults]. intros -> Hm Hfound kind c Hin Ho.
  unfold ContactMatcherService.findMatch, bind in Hm. rewrite matchByUrnId_run in Hm.
  cbn [faults hd contacts] in Hm.
  destruct (holders org (Connection.urn_id conn) cs) as [|h hs] eqn:Hh.
  2: { cbn in Hm. injection Hm as <-. discriminate Hfound. }
  cbn [hd_error option_map] in Hm.
  assert (Hno_urn : ~ match_reason URN_ID conn c).
  { intros Hu. pose proof (holders_in org _ cs c Hin Ho Hu) as Hc.
    rewrite Hh in Hc. destruct Hc. }
  unfold ContactMatcherService.findMatch_url in Hm.
  assert (Hno_email : forall w1,
    contacts w1 = cs -> faults w1 = [] ->
    fst (ContactMatcherService.findMatch_email org (Connection.email conn) w1) = Ok m ->
    ~ match_reason EMAIL conn c).
  { intros w1 Hc Hf1 H (e & He & Ht & Hce).
    unfold ContactMatcherService.findMatch_email in H. rewrite He, Ht in H.
    unfold bind in H. rewrite matchByEmail_run, Hf1, Hc in H. cbn [hd] in H.
    destruct (find _ cs) as [c'|] eqn:Hf.
    - cbn in H. injection H as <-. discriminate Hfound.
    - pose proof (find_none _ _ Hf c Hin) as Hp. cbn in Hp.
      apply email_is_spec in Hce. unfold Prisma.in_org in Hp.
      rewrite Ho, String.eqb_refl, Hce in Hp. discriminate Hp. }
  destruct (ContactMatcherService.normalizeLinkedInUrl _ _) as [u|] eqn:Hn.
  - rewrite (normalize_truthy _ _ _ Hn) in Hm.
    unfold bind in Hm. rewrite matchByLinkedInUrl_run in Hm.
    cbn [faults log_call tl hd contacts] in Hm.
    destruct (find _ cs) as [c'|] eqn:Hf.
    { cbn in Hm. injection Hm as <-. discriminate Hfound. }
    cbn [option_map] in Hm.
    destruct kind; cbn [match_reason]; auto.
    + intros (u' & s & Hn' & Hs & Hv). rewrite Hn in Hn'. injection Hn' as <-.
      pose proof (find_none _ _ Hf c Hin) as Hp. cbv beta in Hp.
      assert (Hq : Prisma.url_in (ContactMatcherService.getLinkedInUrlVariations u) c = true)
        by (apply url_in_spec; eauto).
      unfold Prisma.in_org in Hp. rewrite Ho, String.eqb_refl, Hq in Hp. discriminate Hp.
    + eapply Hno_email; [| |exact Hm]; reflexivity.
  - destruct kind; cbn [match_reason]; auto.
    + intros (u' & s & Hn' & _). congruence.
    + eapply Hno_email; [| |exact Hm]; reflexivity.
Qed.

Lemma findMatch_miss_complete_witness :
  fst (ContactMatcherService.findMatch "org-1" Cases.zed
         (Sample.world [Sample.grace; Sample.bob] [] false))
  = Ok ContactMatcherService.miss
  /\ ~ match_reason URN_ID Cases.zed Sample.grace
  /\ ~ match_reason LINKEDIN_URL Cases.zed Sample.grace
  /\ ~ match_reason EMAIL Cases.zed Sample.bob.
Proof.
  split; [reflexivity|].
  pose proof (findMatch_miss_complete "org-1" Cases.zed
                (Sample.world [Sample.grace; Sample.bob] [] false)
                ContactMatcherService.miss eq_refl eq_refl eq_refl) as H.
  split; [|split].
  - apply H; [now left|reflexivity].
  - apply H; [now left|reflexivity].
  - apply H; [right; now left|reflexivity].
Defined.

(** While storage rejects every call, each lookup of the cascade is a
    miss: [findMatch] answers "no match" after one to three rejected reads. *)
Lemma findMatch_outage (org : string) (conn : Connection.t) (w : World) (e : Exn)
    (later : list (option Exn)) :
  faults w = Some e :: Some e :: Some e :: Some e :: later ->
  exists w1 reads,
    ContactMatcherService.findMatch org conn w = (Ok ContactMatcherService.miss, w1)
    /\ contacts w1 = contacts w
    /\ activities w1 = activities w
    /\ clock w1 = clock w
    /\ hd None (faults w1) = Some e
    /\ trace w1 = (trace w ++ reads)%list
    /\ Forall (fun call => snd call = Some e) reads
    /\ Forall (fun call => is_write (fst call) = false) reads.
Proof.
  destruct w as [cs acts fs clk tk tr g]. cbn [faults]. intros ->.
  unfold ContactMatcherService.findMatch, bind. rewrite matchByUrnId_run.
  cbn [faults hd]. unfold ContactMatcherService.findMatch_url.
  assert (Hemail : forall fs1 pre,
    Forall (fun call => snd call = Some e) pre ->
    Forall (fun call => is_write (fst call) = false) pre ->
    exists w1 reads,
      ContactMatcherService.findMatch_email org (Connection.email conn)
        (mkWorld cs acts (Some e :: Some e :: fs1) clk tk (tr ++ pre) g)
      = (Ok ContactMatcherService.miss, w1)
      /\ contacts w1 = cs /\ activities w1 = acts /\ clock w1 = clk
      /\ hd None (faults w1) = Some e
      /\ trace w1 = (tr ++ reads)%list
      /\ Forall (fun call => snd call = Some e) reads
      /\ Forall (fun call => is_write (fst call) = false) reads).
  { intros fs1 pre Hpre Hreads. unfold ContactMatcherService.findMatch_email.
    destruct (Connection.email conn) as [em|]; [destruct (JsString.truthy em)|];
      try (eexists; exists pre; split; [reflexivity|]; repeat split; assumption).
    unfold bind. rewrite matchByEmail_run. cbn [faults hd].
    eexists. eexists. split; [reflexivity|].
    cbn [log_call contacts activities clock faults tl hd trace].
    rewrite <- app_assoc. repeat split.
    - apply Forall_app. split; [exact Hpre|]. constructor; [reflexivity|constructor].
    - apply Forall_app. split; [exact Hreads|]. constructor; [reflexivity|constructor]. }
  unfold log_call at 1. cbn [contacts activities clock ticks trace unique_urn_guard faults tl hd].
  destruct (ContactMatcherService.normalizeLinkedInUrl _ _) as [u|];
    [destruct (JsString.truthy u)|].
  - unfold bind. rewrite matchByLinkedInUrl_run. unfold log_call.
    cbn [faults hd contacts activities clock ticks trace unique_urn_guard tl].
    rewrite <- app_assoc. apply Hemail; repeat (constructor; try reflexivity).
  - apply Hemail; repeat (constructor; try reflexivity).
  - apply Hemail; repeat (constructor; try reflexivity).
Qed.

(** A create whose write storage rejects: the outcome carries the error,
    nothing is stored. *)
Lemma createContact_rejected (org : string) (conn : Connection.t) (w : World)
    (e : Exn) :
  hd None (faults w) = Some e ->
  exists w1,
    ContactMergerService.createContact org conn w
    = (Ok (ContactMergerService.skipped_with (error_message e "Unknown error")), w1)
    /\ contacts w1 = contacts w
    /\ activities w1 = activities w
    /\ trace w1 = (trace w ++ [(CreateContact, Some e)])%list.
Proof.
  intros Hf. unfold ContactMergerService.createContact, Prisma.contact_create.
  destruct (ContactMergerService.parseName _ _ _) as [fn ln].
  exec. rewrite Hf. eexists. split; [reflexivity|]. cbn. now rewrite Hf.
Qed.

(** X9.  When storage rejects the next four calls with one error, a valid and
    authenticated event is answered with [skipped] and the message of the storage error: each
    lookup of the cascade is taken for a miss, the create is attempted and
    rejected, nothing is stored and no activity is logged. *)
Theorem outage_skips_record (fmt : Zod.Formats) (this : OutreachSyncController.t)
    (rawPayload : JsVal) (payload : Payload.t) (w : World) (e : Exn)
    (later : list (option Exn)) :
  Zod.safeParse fmt rawPayload = Some payload ->
  OutreachSyncController.secret_refused this
    (SecretString (Payload.webhook_secret payload)) = false ->
  faults w = Some e :: Some e :: Some e :: Some e :: later ->
  let run := OutreachSyncController.handleConnectionAccepted fmt this rawPayload w in
  fst run = Ok (ContactMergerService.skipped_with (error_message e "Unknown error"))
  /\ contacts (snd run) = contacts w
  /\ activities (snd run) = activities w
  /\ Forall (fun call => snd call = Some e) (calls_since w (snd run))
  /\ exists reads,
       map fst (calls_since w (snd run)) = (reads ++ [CreateContact])%list
       /\ Forall (fun call => is_write call = false) reads.
Proof.
  intros Hp Hs Hf run. subst run.
  unfold OutreachSyncController.handleConnectionAccepted. rewrite Hp, Hs.
  set (org := Payload.organization_id (Payload.source payload)).
  set (conn := Payload.connection payload).
  destruct (findMatch_outage org conn w e later Hf)
    as (w1 & reads & Hm & Hc1 & Ha1 & _ & Hf1 & Ht1 & Hall & Hr).
  destruct (createContact_rejected org conn w1 e Hf1) as (w2 & Hcr & Hc2 & Ha2 & Ht2).
  unfold try_catch, bind, OutreachSyncController.match_and_write, bind.
  rewrite Hm. cbn [ContactMatcherService.miss MatchResult.found]. rewrite Hcr.
  cbn [OutreachSyncController.log_activity ContactMergerService.skipped_with
       SyncResult.contact_id ret fst snd].
  split; [reflexivity|]. split; [congruence|]. split; [congruence|].
  rewrite (calls_since_app w w2 (reads ++ [(CreateContact, Some e)])%list)
    by (now rewrite Ht2, Ht1, app_assoc).
  split.
  - apply Forall_app. split; [exact Hall|]. constructor; [reflexivity|constructor].
  - exists (map fst reads). split; [now rewrite map_app|]. now apply Forall_map.
Qed.

Lemma outage_skips_record_witness :
  let w := Sample.world [Sample.grace]
             [Some Cases.outage; Some Cases.outage; Some Cases.outage;
              Some Cases.outage] false in
  let run :=
    OutreachSyncController.handleConnectionAccepted Sample.any_format
      (OutreachSyncController.mk "s3cret") (Sample.ada_request "s3cret") w in
  fst run = Ok (ContactMergerService.skipped_with "Can't reach database server")
  /\ contacts (snd run) = [Sample.grace]
  /\ activities (snd run) = [].
Proof.
  intros w run.
  destruct (outage_skips_record Sample.any_format (OutreachSyncController.mk "s3cret")
              (Sample.ada_request "s3cret") Cases.ada_payload w Cases.outage []
              eq_refl eq_refl eq_refl) as (H1 & H2 & H3 & _).
  repeat split; assumption.
Defined.

(* ===================================================================== *)
(** * What a merge leaves alone *)
(* ===================================================================== *)

(** A merge writes no activity. *)
Lemma mergeContact_activities (m : MatchResult.t) (conn : Connection.t) (f : bool)
    (w : World) :
  activities (snd (ContactMergerService.mergeContact m conn f w)) = activities w.
Proof.
  unfold ContactMergerService.mergeContact.
  destruct (MatchResult.contact_id m) as [id|];
    [destruct (MatchResult.existing_data m) as [existing|]|]; try reflexivity.
  unfold Prisma.contact_findUnique, Prisma.contact_update.
  destruct (ContactMergerService.parseName _ _ _) as [fn ln].
  exec.
  destruct (hd None (faults w)) as [e1|]; exec; [reflexivity|].
  destruct (hd None (tl (faults w))) as [e2|]; exec; [reflexivity|].
  destruct (find (Prisma.has_id id) (contacts w)) as [c|]; exec; [|reflexivity].
  destruct (Prisma.apply_data _ c) as [row|]; exec; [|reflexivity].
  destruct (unique_urn_guard w && _); exec; reflexivity.
Qed.

(** X10.  What a merge never touches: the id, organization, phone, lead flag
    and lead source of every contact (hence the number and order of the
    contacts), and the activities.  The only row it can change is the one
    with the matched id, and its update data has no entry for the phone or
    the company of the record. *)
Theorem mergeContact_frame (m : MatchResult.t) (conn : Connection.t)
    (forceUpdate : bool) (w : World) :
  let w' := snd (ContactMergerService.mergeContact m conn forceUpdate w) in
  map merge_fixed (contacts w') = map merge_fixed (contacts w)
  /\ activities w' = activities w
  /\ (forall c, In c (contacts w') ->
        In c (contacts w) \/ MatchResult.contact_id m = Some (Contact.id c))
  /\ (forall existing lastSyncedAt currentJobTitle k,
         In k ["id"; "organizationId"; "phone"; "company"; "isLead"; "leadSource"] ->
         Js.has (ContactMergerService.merge_updateData existing conn forceUpdate
                   lastSyncedAt currentJobTitle) k = false).
Proof.
  intros w'. subst w'. split; [|split; [|split]].
  - destruct (mergeContact_effect m conn forceUpdate w)
      as (res & _ & [(_ & _ & _ & ->)|(id & ex & c & _ & _ & Hf & -> & _)]).
    + reflexivity.
    + apply PrismaFacts.map_replace_row with (c := c); [exact Hf|reflexivity].
  - apply mergeContact_activities.
  - intros c Hin.
    destruct (mergeContact_effect m conn forceUpdate w)
      as (res & _ & [(_ & _ & _ & Hcs)|(id & ex & c0 & Hid & _ & Hf & Hcs & _)]);
      rewrite Hcs in Hin; [now left|].
    apply PrismaFacts.in_replace_row in Hin as [->|Hin]; [right|now left].
    rewrite PrismaFacts.merged_row_id.
    apply PrismaFacts.find_has_id in Hf as [-> _]. exact Hid.
  - intros existing t jt k Hk.
    destruct (Js.has _ k) eqn:E; [|reflexivity].
    apply PrismaFacts.merge_data_keys in E. simpl in Hk, E.
    repeat (destruct Hk as [<-|Hk];
            [repeat (destruct E as [E|E]; [discriminate E|]); destruct E|]).
    destruct Hk.
Qed.

Module CustomFieldFacts.
Import Js.

Lemma prop_spread (v : JsVal) (k : string) (x : JsVal) :
  prop v k = x -> x <> JUndefined -> get (spread v) k = x.
Proof. destruct v; simpl; intros <- H; try (now destruct H). reflexivity. Qed.

(** A key that the literal does not assign keeps the value of the spread
    object. *)
Lemma get_literal_other (o : Obj) (kvs : list (string * JsVal)) (k : string) :
  ~ In k (map fst kvs) -> get (literal o kvs) k = get o k.
Proof.
  unfold literal. revert o. induction kvs as [|[k0 v0] r IH]; intros o Hk; [reflexivity|].
  cbn [fold_left fst snd]. rewrite IH by (intros H; apply Hk; now right).
  rewrite JsFacts.get_set.
  destruct (String.eqb k0 k) eqn:E; [|reflexivity].
  apply String.eqb_eq in E. exfalso. apply Hk. now left.
Qed.

End CustomFieldFacts.

(** The keys the [linkedinData] literal of a merge assigns. *)
Lemma merge_linkedinData_other (cf : JsVal) (conn : Connection.t) (t k : string) :
  ~ In k linkedin_keys ->
  Js.get (ContactMergerService.merge_linkedinData cf conn t) k = Js.get (Js.spread cf) k.
Proof.
  intros Hk. unfold ContactMergerService.merge_linkedinData.
  now apply CustomFieldFacts.get_literal_other.
Qed.

(** What a merge stores under the keys of the enriched fields. *)
Lemma merge_linkedinData_enriched (cf : JsVal) (conn : Connection.t) (t : string) :
  let data := ContactMergerService.merge_linkedinData cf conn t in
  Js.get data "linkedinSkills"
  = ContactMergerService.strings_or (Connection.skills conn)
      (Js.or (Js.prop cf "linkedinSkills") (JArr []))
  /\ Js.get data "linkedinLanguages"
     = ContactMergerService.strings_or (Connection.languages conn)
         (Js.or (Js.prop cf "linkedinLanguages") (JArr []))
  /\ Js.get data "linkedinWorkExperience"
     = Js.or (Connection.work_experience conn) (Js.prop cf "linkedinWorkExperience")
  /\ Js.get data "linkedinEducation"
     = Js.or (Connection.education conn) (Js.prop cf "linkedinEducation").
Proof.
  intros data. unfold data, ContactMergerService.merge_linkedinData.
  cbn [Js.literal fold_left fst snd].
  repeat split; rewrite !JsFacts.get_set; reflexivity.
Qed.

(** X11.  A merge that reports [updated] keeps, in its stored form, every
    custom field that the sync does not own, and keeps the stored skills
    and languages (when truthy), work experience and education when the
    record brings none. *)
Theorem merge_keeps_custom_fields (w : World) (c : Contact.t) (kind : MatchType)
    (conn : Connection.t) (forceUpdate : bool) (res : SyncResult.t) :
  find (Prisma.has_id (Contact.id c)) (contacts w) = Some c ->
  let run :=
    ContactMergerService.mergeContact
      (ContactMatcherService.hit kind (ContactMatcherService.as_existing c))
      conn forceUpdate w in
  fst run = Ok res ->
  SyncResult.action res = updated ->
  exists c',
    find (Prisma.has_id (Contact.id c)) (contacts (snd run)) = Some c'
    /\ (forall k v,
           ~ In k linkedin_keys ->
           Js.prop (Contact.customFields c) k = v -> v <> JUndefined ->
           Js.prop (Contact.customFields c') k = Js.to_json v)
    /\ (forall v,
           Connection.skills conn = None ->
           Js.prop (Contact.customFields c) "linkedinSkills" = v ->
           Js.truthy v = true ->
           Js.prop (Contact.customFields c') "linkedinSkills" = Js.to_json v)
    /\ (forall v,
           Connection.languages conn = None ->
           Js.prop (Contact.customFields c) "linkedinLanguages" = v ->
           Js.truthy v = true ->
           Js.prop (Contact.customFields c') "linkedinLanguages" = Js.to_json v)
    /\ (forall v,
           Js.truthy (Connection.work_experience conn) = false ->
           Js.prop (Contact.customFields c) "linkedinWorkExperience" = v ->
           v <> JUndefined ->
           Js.prop (Contact.customFields c') "linkedinWorkExperience" = Js.to_json v)
    /\ (forall v,
           Js.truthy (Connection.education conn) = false ->
           Js.prop (Contact.customFields c) "linkedinEducation" = v ->
           v <> JUndefined ->
           Js.prop (Contact.customFields c') "linkedinEducation" = Js.to_json v).
Proof.
  intros Hc run Hres Hact. subst run.
  destruct (mergeContact_effect
              (ContactMatcherService.hit kind (ContactMatcherService.as_existing c))
              conn forceUpdate w)
    as (res' & Hres' & [(Ha & _)|(id & ex & c0 & Hid & Hex & Hf & Hcs & _)]);
    rewrite Hres in Hres'; injection Hres' as <-; [congruence|].
  simpl in Hid, Hex. injection Hid as <-. injection Hex as <-.
  rewrite Hc in Hf. injection Hf as <-.
  eexists. split.
  { rewrite Hcs. apply PrismaFacts.find_replace_row with (c := c); [exact Hc|].
    apply PrismaFacts.merged_row_id. }
  rewrite PrismaFacts.merged_row_customFields, JsFacts.to_json_obj.
  cbn [Js.prop ContactMatcherService.as_existing Existing.of_contact
       Existing.customFields].
  set (cf := Js.or (Contact.customFields c) (JObj [])).
  assert (Hcf : forall k v, Js.prop (Contact.customFields c) k = v -> v <> JUndefined ->
                            Js.prop cf k = v /\ Js.get (Js.spread cf) k = v).
  { intros k v Hv Hne. unfold cf, Js.or.
    destruct (Contact.customFields c); simpl in Hv |- *; subst v;
      try (now destruct Hne). now split. }
  assert (Htruthy : forall v, Js.truthy v = true -> v <> JUndefined)
    by (intros v Ht ->; discriminate Ht).
  destruct (merge_linkedinData_enriched cf conn (clock w (ticks w)))
    as (Hsk & Hla & Hwe & Hed).
  repeat split.
  - intros k v Hk Hv Hne. destruct (Hcf k v Hv Hne) as [_ Hg].
    apply JsFacts.get_json_present; [|exact Hne].
    now rewrite merge_linkedinData_other.
  - intros v Hnone Hv Ht. destruct (Hcf _ v Hv (Htruthy v Ht)) as [Hp _].
    apply JsFacts.get_json_present; [|exact (Htruthy v Ht)].
    rewrite Hsk, Hnone, Hp. unfold Js.or. cbn. now rewrite Ht.
  - intros v Hnone Hv Ht. destruct (Hcf _ v Hv (Htruthy v Ht)) as [Hp _].
    apply JsFacts.get_json_present; [|exact (Htruthy v Ht)].
    rewrite Hla, Hnone, Hp. unfold Js.or. cbn. now rewrite Ht.
  - intros v Hfalsy Hv Hne. destruct (Hcf _ v Hv Hne) as [Hp _].
    apply JsFacts.get_json_present; [|exact Hne].
    rewrite Hwe, Hp. unfold Js.or. now rewrite Hfalsy.
  - intros v Hfalsy Hv Hne. destruct (Hcf _ v Hv Hne) as [Hp _].
    apply JsFacts.get_json_present; [|exact Hne].
    rewrite Hed, Hp. unfold Js.or. now rewrite Hfalsy.
Qed.

Lemma merge_keeps_custom_fields_witness :
  exists c',
    find (Prisma.has_id 1)
      (contacts (snd (ContactMergerService.mergeContact
                        (ContactMatcherService.hit URN_ID
                           (ContactMatcherService.as_existing Cases.noted))
                        Sample.ada_bare false
                        (Sample.world [Cases.noted] [] false))))
    = Some c'
    /\ Js.prop (Contact.customFields c') "favouriteColour" = JStr "teal"
    /\ Js.prop (Contact.customFields c') "linkedinSkills" = JArr [JStr "COBOL"].
Proof.
  destruct (merge_keeps_custom_fields (Sample.world [Cases.noted] [] false) Cases.noted
              URN_ID Sample.ada_bare false _ eq_refl eq_refl eq_refl)
    as (c' & Hc' & Hother & Hskills & _).
  exists c'. split; [exact Hc'|]. split.
  - apply (Hother "favouriteColour" (JStr "teal")); [|reflexivity|discriminate].
    unfold linkedin_keys. simpl.
    intros H; repeat (destruct H as [H|H]; [discriminate H|]); destruct H.
  - apply (Hskills (JArr [JStr "COBOL"])); reflexivity.
Defined.

(* ===================================================================== *)
(** * The row of a create, and a second delivery *)
(* ===================================================================== *)

Module ObjFacts.
Import Js.

Lemma get_absent (o : Obj) (k : string) : ~ In k (object_keys o) -> get o k = JUndefined.
Proof.
  induction o as [|[k0 v0] r IH]; simpl; [reflexivity|].
  intros H. destruct (String.eqb k0 k) eqn:E.
  - apply String.eqb_eq in E. exfalso. apply H. now left.
  - apply IH. intros Hin. apply H. now right.
Qed.

Lemma keys_set (o : Obj) (k : string) (v : JsVal) (x : string) :
  In x (object_keys (set o k v)) <-> x = k \/ In x (object_keys o).
Proof.
  induction o as [|[k0 v0] r IH]; simpl.
  - intuition.
  - destruct (String.eqb k0 k) eqn:E; simpl.
    + apply String.eqb_eq in E. subst k0. intuition.
    + rewrite IH. intuition.
Qed.

Lemma nodup_set (o : Obj) (k : string) (v : JsVal) :
  NoDup (object_keys o) -> NoDup (object_keys (set o k v)).
Proof.
  induction o as [|[k0 v0] r IH]; simpl; intros H.
  - constructor; [intros []|constructor].
  - inversion H as [|? ? Hn Hr]; subst.
    destruct (String.eqb k0 k) eqn:E; simpl.
    + now constructor.
    + constructor; [|now apply IH].
      intros Hin. apply keys_set in Hin as [->|Hin]; [|contradiction].
      now rewrite String.eqb_refl in E.
Qed.

Lemma nodup_literal (o : Obj) (kvs : list (string * JsVal)) :
  NoDup (object_keys o) -> NoDup (object_keys (literal o kvs)).
Proof.
  unfold literal. revert o. induction kvs as [|[k v] r IH]; intros o H; [exact H|].
  simpl. apply IH. now apply nodup_set.
Qed.

Lemma keys_json_props (o : Obj) (k : string) :
  In k (object_keys (json_props o)) -> In k (object_keys o).
Proof.
  induction o as [|[k0 v0] r IH]; [intros []|].
  rewrite JsFacts.json_props_cons.
  destruct v0; simpl; intros H; try (destruct H as [H|H]; [now left|]); right; auto.
Qed.

Lemma nodup_json_props (o : Obj) : NoDup (object_keys o) -> NoDup (object_keys (json_props o)).
Proof.
  induction o as [|[k0 v0] r IH]; intros H; [constructor|].
  inversion H as [|? ? Hn Hr]; subst.
  rewrite JsFacts.json_props_cons.
  destruct v0; simpl; try (constructor; [|now apply IH]);
    try (intros Hin; apply Hn; now apply keys_json_props); now apply IH.
Qed.

(** Reading a key of a stored object: the stored form of what the object
    held, when no key occurs twice. *)
Lemma get_json_props (o : Obj) (k : string) :
  NoDup (object_keys o) -> get (json_props o) k = to_json (get o k).
Proof.
  induction o as [|[k0 v0] r IH]; intros H; [reflexivity|].
  inversion H as [|? ? Hn Hr]; subst.
  rewrite JsFacts.json_props_cons. cbn [get].
  destruct (String.eqb k0 k) eqn:E.
  - apply String.eqb_eq in E. subst k0.
    destruct v0; cbn [get]; rewrite ?String.eqb_refl; try reflexivity.
    apply get_absent. intros Hin. apply Hn. now apply keys_json_props.
  - destruct v0; cbn [get]; rewrite ?E; now apply IH.
Qed.

Lemma keys_remove_undefined (o : Obj) (k : string) :
  In k (object_keys (ContactMergerService.remove_undefined o)) -> In k (object_keys o).
Proof.
  unfold ContactMergerService.remove_undefined, object_keys.
  rewrite !in_map_iff. intros (kv & Hk & Hin). apply filter_In in Hin as [Hin _].
  now exists kv.
Qed.

Lemma nodup_remove_undefined (o : Obj) :
  NoDup (object_keys o) -> NoDup (object_keys (ContactMergerService.remove_undefined o)).
Proof.
  induction o as [|[k0 v0] r IH]; intros H; [constructor|].
  inversion H as [|? ? Hn Hr]; subst.
  unfold ContactMergerService.remove_undefined in *. simpl.
  destruct v0; simpl; try (constructor; [|now apply IH]);
    try (intros Hin; apply Hn; now apply keys_remove_undefined); now apply IH.
Qed.

Lemma get_remove_undefined (o : Obj) (k : string) :
  NoDup (object_keys o) -> get (ContactMergerService.remove_undefined o) k = get o k.
Proof.
  induction o as [|[k0 v0] r IH]; intros H; [reflexivity|].
  inversion H as [|? ? Hn Hr]; subst.
  unfold ContactMergerService.remove_undefined in *. cbn [filter snd get].
  destruct (String.eqb k0 k) eqn:E.
  - apply String.eqb_eq in E. subst k0.
    destruct v0; cbn [get]; rewrite ?String.eqb_refl; try reflexivity.
    apply get_absent. intros Hin. apply Hn.
    now apply (keys_remove_undefined r).
  - destruct v0; cbn [get]; rewrite ?E; now apply IH.
Qed.

Lemma remove_undefined_defined (o : Obj) :
  Forall (fun kv => snd kv <> JUndefined) (ContactMergerService.remove_undefined o).
Proof.
  unfold ContactMergerService.remove_undefined. apply Forall_forall.
  intros [k v] Hin. apply filter_In in Hin as [_ Hv]. simpl in *.
  now destruct v.
Qed.

Lemma json_props_defined (o : Obj) :
  Forall (fun kv => snd kv <> JUndefined) (json_props o).
Proof.
  induction o as [|[k0 v0] r IH]; [constructor|].
  rewrite JsFacts.json_props_cons.
  destruct v0; try (constructor; [simpl; discriminate|]); exact IH.
Qed.

Lemma to_json_falsy (v : JsVal) : truthy v = false -> to_json v = v.
Proof. destruct v; try reflexivity; discriminate. Qed.

Lemma to_json_strings (l : list string) : to_json (of_strings l) = of_strings l.
Proof.
  unfold of_strings. cbn [to_json]. f_equal. rewrite map_map.
  now apply map_ext.
Qed.

End ObjFacts.

Lemma create_linkedinData_nodup (conn : Connection.t) (t : string) :
  NoDup (object_keys (ContactMergerService.create_linkedinData conn t)).
Proof.
  unfold ContactMergerService.create_linkedinData.
  apply ObjFacts.nodup_literal. constructor.
Qed.

(** The value of each key of the [linkedinData] literal of a create. *)
Lemma create_linkedinData_get (conn : Connection.t) (t : string) :
  let data := ContactMergerService.create_linkedinData conn t in
  Js.get data "linkedinUrnId" = JStr (Connection.urn_id conn)
  /\ Js.get data "linkedinPublicId" = Js.of_optional (Connection.public_id conn)
  /\ Js.get data "linkedinConnected" = JStr (Connection.connected_on conn)
  /\ Js.get data "linkedinHeadline" = Js.of_optional (Connection.headline conn)
  /\ Js.get data "linkedinLocation" = Js.of_optional (Connection.location conn)
  /\ Js.get data "linkedinProfilePhoto"
     = Js.of_optional (Connection.profile_pic_url conn)
  /\ Js.get data "linkedinIndustry" = Js.of_optional (Connection.industry conn)
  /\ Js.get data "linkedinSkills"
     = ContactMergerService.strings_or (Connection.skills conn) (JArr [])
  /\ Js.get data "linkedinLanguages"
     = ContactMergerService.strings_or (Connection.languages conn) (JArr [])
  /\ Js.get data "linkedinWorkExperience" = Connection.work_experience conn
  /\ Js.get data "linkedinEducation" = Connection.education conn
  /\ Js.get data "syncedFromOutreach" = JBool true
  /\ Js.get data "lastSyncedAt" = JStr t.
Proof.
  intros data. unfold data, ContactMergerService.create_linkedinData.
  cbn [Js.literal fold_left fst snd].
  repeat split; rewrite !JsFacts.get_set; reflexivity.
Qed.

Lemma create_linkedinData_other (conn : Connection.t) (t k : string) :
  ~ In k linkedin_keys ->
  Js.get (ContactMergerService.create_linkedinData conn t) k = JUndefined.
Proof.
  intros Hk. unfold ContactMergerService.create_linkedinData.
  now rewrite CustomFieldFacts.get_literal_other.
Qed.

(** The custom fields of a new row, key by key. *)
Lemma created_customFields (org : string) (conn : Connection.t) (t : string)
    (id : ContactId) :
  exists props,
    Contact.customFields (Prisma.new_row id (ContactMergerService.create_data org conn t))
    = JObj props
    /\ NoDup (object_keys props)
    /\ Forall (fun kv => snd kv <> JUndefined) props
    /\ forall k,
         Js.get props k
         = Js.to_json (Js.get (ContactMergerService.create_linkedinData conn t) k).
Proof.
  unfold ContactMergerService.create_data.
  destruct (ContactMergerService.parseName _ _ _) as [fn ln].
  cbn [Prisma.new_row Contact.customFields ContactCreateInput.customFields].
  rewrite JsFacts.to_json_obj. eexists. split; [reflexivity|].
  pose proof (create_linkedinData_nodup conn t) as Hnd.
  pose proof (ObjFacts.nodup_remove_undefined _ Hnd) as Hnd'.
  split; [now apply ObjFacts.nodup_json_props|]. split.
  - apply ObjFacts.json_props_defined.
  - intros k.
    now rewrite ObjFacts.get_json_props, ObjFacts.get_remove_undefined.
Qed.

(** The value of each key of the [linkedinData] literal of a merge. *)
Lemma merge_linkedinData_get (cf : JsVal) (conn : Connection.t) (t : string) :
  let data := ContactMergerService.merge_linkedinData cf conn t in
  Js.get data "linkedinUrnId" = JStr (Connection.urn_id conn)
  /\ Js.get data "linkedinPublicId" = Js.of_optional (Connection.public_id conn)
  /\ Js.get data "linkedinConnected" = JStr (Connection.connected_on conn)
  /\ Js.get data "linkedinHeadline" = Js.of_optional (Connection.headline conn)
  /\ Js.get data "linkedinLocation" = Js.of_optional (Connection.location conn)
  /\ Js.get data "linkedinProfilePhoto"
     = Js.of_optional (Connection.profile_pic_url conn)
  /\ Js.get data "linkedinIndustry" = Js.of_optional (Connection.industry conn)
  /\ Js.get data "linkedinSkills"
     = ContactMergerService.strings_or (Connection.skills conn)
         (Js.or (Js.prop cf "linkedinSkills") (JArr []))
  /\ Js.get data "linkedinLanguages"
     = ContactMergerService.strings_or (Connection.languages conn)
         (Js.or (Js.prop cf "linkedinLanguages") (JArr []))
  /\ Js.get data "linkedinWorkExperience"
     = Js.or (Connection.work_experience conn) (Js.prop cf "linkedinWorkExperience")
  /\ Js.get data "linkedinEducation"
     = Js.or (Connection.education conn) (Js.prop cf "linkedinEducation")
  /\ Js.get data "syncedFromOutreach" = JBool true
  /\ Js.get data "lastSyncedAt" = JStr t.
Proof.
  intros data. unfold data, ContactMergerService.merge_linkedinData.
  cbn [Js.literal fold_left fst snd].
  repeat split; rewrite !JsFacts.get_set; reflexivity.
Qed.

Lemma to_json_optional (o : option string) :
  Js.to_json (Js.of_optional o) = Js.of_optional o.
Proof. now destruct o. Qed.

Lemma to_json_or_stored (x : JsVal) :
  Js.to_json (Js.or x (Js.to_json x)) = Js.to_json x.
Proof.
  unfold Js.or. destruct (Js.truthy x) eqn:E; [reflexivity|].
  now rewrite !(ObjFacts.to_json_falsy x E).
Qed.

Lemma strings_or_stored (l : option (list string)) :
  Js.to_json
    (ContactMergerService.strings_or l
       (Js.or (Js.to_json (ContactMergerService.strings_or l (JArr []))) (JArr [])))
  = Js.to_json (ContactMergerService.strings_or l (JArr [])).
Proof. destruct l; reflexivity. Qed.

(** Merging the record a contact was created from into that contact: the
    custom fields keep every value but the time of the sync. *)
Lemma remerge_customFields (org : string) (conn : Connection.t) (t1 t2 : string)
    (id : ContactId) (k : string) :
  let row := Prisma.new_row id (ContactMergerService.create_data org conn t1) in
  let row' := merged_row (ContactMatcherService.as_existing row) conn false t2 row in
  Js.prop (Contact.customFields row) "lastSyncedAt" = JStr t1
  /\ Js.prop (Contact.customFields row') "lastSyncedAt" = JStr t2
  /\ (k <> "lastSyncedAt" ->
      Js.prop (Contact.customFields row') k = Js.prop (Contact.customFields row) k).
Proof.
  intros row row'. subst row'.
  destruct (created_customFields org conn t1 id) as (props & Hcf & Hnd & _ & Hget).
  fold row in Hcf.
  rewrite PrismaFacts.merged_row_customFields, JsFacts.to_json_obj.
  cbn [ContactMatcherService.as_existing Existing.of_contact Existing.customFields].
  rewrite Hcf. cbn [Js.or Js.truthy Js.prop].
  set (mdata := ContactMergerService.merge_linkedinData (JObj props) conn t2).
  assert (Hmnd : NoDup (object_keys mdata)).
  { unfold mdata, ContactMergerService.merge_linkedinData.
    apply ObjFacts.nodup_literal. exact Hnd. }
  rewrite !(ObjFacts.get_json_props mdata) by exact Hmnd.
  rewrite !Hget.
  destruct (merge_linkedinData_get (JObj props) conn t2)
    as (M1 & M2 & M3 & M4 & M5 & M6 & M7 & M8 & M9 & M10 & M11 & M12 & M13).
  destruct (create_linkedinData_get conn t1)
    as (C1 & C2 & C3 & C4 & C5 & C6 & C7 & C8 & C9 & C10 & C11 & C12 & C13).
  fold mdata in M1, M2, M3, M4, M5, M6, M7, M8, M9, M10, M11, M12, M13.
  cbn [Js.prop] in M8, M9, M10, M11. rewrite !Hget in M8, M9, M10, M11.
  rewrite C8 in M8. rewrite C9 in M9. rewrite C10 in M10. rewrite C11 in M11.
  split; [now rewrite C13|]. split; [now rewrite M13|].
  intros Hk.
  destruct (in_dec string_dec k linkedin_keys) as [Hin|Hout].
  - simpl in Hin.
    destruct Hin as [<-|[<-|[<-|[<-|[<-|[<-|[<-|[<-|[<-|[<-|[<-|[<-|[<-|[]]]]]]]]]]]]]].
    + now rewrite M1, C1.
    + now rewrite M2, C2.
    + now rewrite M3, C3.
    + now rewrite M4, C4.
    + now rewrite M5, C5.
    + now rewrite M6, C6.
    + now rewrite M7, C7.
    + rewrite M8, C8. apply strings_or_stored.
    + rewrite M9, C9. apply strings_or_stored.
    + rewrite M10, C10. apply to_json_or_stored.
    + rewrite M11, C11. apply to_json_or_stored.
    + now rewrite M12, C12.
    + now destruct Hk.
  - unfold mdata. rewrite (merge_linkedinData_other _ conn t2 k Hout).
    cbn [Js.spread]. rewrite Hget, (create_linkedinData_other conn t1 k Hout).
    reflexivity.
Qed.

(** The columns of a new row. *)
Lemma created_row_columns (org : string) (conn : Connection.t) (t : string)
    (id : ContactId) :
  let row := Prisma.new_row id (ContactMergerService.create_data org conn t) in
  (Contact.firstName row, Contact.lastName row) = resolved_name conn
  /\ Contact.email row
     = non_empty (option_map JsString.toLowerCase (Connection.email conn))
  /\ Contact.phone row = non_empty (Connection.phone conn)
  /\ Contact.jobTitle row = non_empty (Connection.job_title conn)
  /\ Contact.linkedinUrl row
     = ContactMergerService.normalizeLinkedInUrl
         (Some (Connection.profile_url conn)) (Connection.public_id conn)
  /\ Contact.profileImageUrl row = non_empty (Connection.profile_pic_url conn)
  /\ Contact.isLead row = true
  /\ Contact.leadSource row = Some "LINKEDIN_OUTREACH"
  /\ Contact.leadStatus row = Some "NEW".
Proof.
  unfold ContactMergerService.create_data, resolved_name.
  destruct (ContactMergerService.parseName _ _ _) as [fn ln].
  cbn. repeat split.
  - now destruct (Connection.email conn) as [e|]; [destruct (JsString.toLowerCase e)|].
  - now destruct (Connection.phone conn) as [[|]|].
  - now destruct (Connection.job_title conn) as [[|]|].
  - now destruct (Connection.profile_pic_url conn) as [[|]|].
Qed.

(** Merging the record a contact was created from into that contact: the
    columns. *)
Lemma remerge_columns (org : string) (conn : Connection.t) (t1 t2 : string)
    (id : ContactId) :
  let row := Prisma.new_row id (ContactMergerService.create_data org conn t1) in
  let row' := merged_row (ContactMatcherService.as_existing row) conn false t2 row in
  Contact.firstName row' = Contact.firstName row
  /\ Contact.lastName row' = Contact.lastName row
  /\ Contact.email row' = Contact.email row
  /\ Contact.linkedinUrl row' = Contact.linkedinUrl row
  /\ Contact.jobTitle row' = Connection.job_title conn
  /\ Contact.profileImageUrl row'
     = or_else (Connection.profile_pic_url conn) (Contact.linkedinUrl row).
Proof.
  intros row row'.
  destruct (created_row_columns org conn t1 id)
    as (Hn & He & _ & Hj & Hu & _).
  fold row in Hn, He, Hj, Hu.
  unfold row', merged_row.
  cbn [Contact.firstName Contact.lastName Contact.email Contact.linkedinUrl
       Contact.jobTitle Contact.profileImageUrl ContactMatcherService.as_existing
       Existing.of_contact Existing.firstName Existing.lastName Existing.email
       Existing.linkedinUrl orb].
  rewrite <- Hn. cbn [fst snd]. repeat split.
  - now destruct (negb _).
  - now destruct (negb _).
  - rewrite He. unfold non_empty, or_else.
    destruct (Connection.email conn) as [e|]; cbn; [|reflexivity].
    now destruct (JsString.toLowerCase e).
  - rewrite Hu. unfold or_else. now destruct (JsString.truthy_opt _).
  - rewrite Hj. unfold non_empty, or_else.
    now destruct (Connection.job_title conn) as [[|]|].
Qed.

(** A create that reports [created], spelled out. *)
Lemma createContact_created (org : string) (conn : Connection.t) (w : World)
    (res : SyncResult.t) :
  fst (ContactMergerService.createContact org conn w) = Ok res ->
  SyncResult.action res = created ->
  let row :=
    Prisma.new_row (Prisma.next_id (contacts w))
      (ContactMergerService.create_data org conn (clock w (ticks w))) in
  contacts (snd (ContactMergerService.createContact org conn w))
  = (contacts w ++ [row])%list
  /\ res = SyncResult.mk true created (Some (Contact.id row)) (Some NEW)
             (Some ("Created new contact: " ++ fst (resolved_name conn) ++ " "
                    ++ snd (resolved_name conn))) None.
Proof.
  unfold ContactMergerService.createContact, Prisma.contact_create, resolved_name.
  destruct (ContactMergerService.parseName _ _ _) as [fn ln].
  exec. destruct (hd None (faults w)) as [e|]; exec.
  { intros [= <-] Hact. discriminate Hact. }
  destruct (unique_urn_guard w && _); exec; intros [= <-] Hact;
    [discriminate Hact|]. split; reflexivity.
Qed.

(** X12.  The row of a create that reports [created]: appended last, under
    the id the outcome carries; names from the record or parsed from its
    full name; email lowercased; email, phone, job title and photo NULL
    when the record has none or an empty one; flagged as a new lead of the
    LinkedIn outreach; custom fields without any undefined value, each key
    holding the stored form of what the [linkedinData] literal holds. *)
Theorem createContact_stores (org : string) (conn : Connection.t) (w : World)
    (res : SyncResult.t) :
  fst (ContactMergerService.createContact org conn w) = Ok res ->
  SyncResult.action res = created ->
  exists row props,
    contacts (snd (ContactMergerService.createContact org conn w))
    = (contacts w ++ [row])%list
    /\ res = SyncResult.mk true created (Some (Contact.id row)) (Some NEW)
               (Some ("Created new contact: " ++ Contact.firstName row ++ " "
                      ++ Contact.lastName row)) None
    /\ Contact.organizationId row = org
    /\ (Contact.firstName row, Contact.lastName row) = resolved_name conn
    /\ Contact.email row
       = non_empty (option_map JsString.toLowerCase (Connection.email conn))
    /\ Contact.phone row = non_empty (Connection.phone conn)
    /\ Contact.jobTitle row = non_empty (Connection.job_title conn)
    /\ Contact.profileImageUrl row = non_empty (Connection.profile_pic_url conn)
    /\ Contact.linkedinUrl row
       = ContactMergerService.normalizeLinkedInUrl
           (Some (Connection.profile_url conn)) (Connection.public_id conn)
    /\ Contact.isLead row = true
    /\ Contact.leadSource row = Some "LINKEDIN_OUTREACH"
    /\ Contact.leadStatus row = Some "NEW"
    /\ Contact.customFields row = JObj props
    /\ Forall (fun kv => snd kv <> JUndefined) props
    /\ (forall k,
          Js.get props k
          = Js.to_json
              (Js.get (ContactMergerService.create_linkedinData conn (clock w (ticks w)))
                      k)).
Proof.
  intros Hres Hact.
  destruct (createContact_created org conn w res Hres Hact) as [Hcs Hr].
  destruct (created_row_columns org conn (clock w (ticks w)) (Prisma.next_id (contacts w)))
    as (Hn & He & Hph & Hj & Hu & Hpic & Hl & Hsrc & Hst).
  destruct (created_customFields org conn (clock w (ticks w))
              (Prisma.next_id (contacts w))) as (props & Hcf & _ & Hdef & Hget).
  destruct (created_row_facts org conn (clock w (ticks w)) (Prisma.next_id (contacts w)))
    as (_ & Horg & _).
  rewrite <- Hn in Hr. cbn [fst snd] in Hr.
  eexists. exists props. repeat split; eassumption.
Qed.

Lemma createContact_stores_witness :
  exists row,
    contacts (snd (ContactMergerService.createContact "org-1" Sample.ada
                     (Sample.world [] [] false)))
    = [row]
    /\ Contact.email row = Some "ada@x.com"
    /\ Contact.phone row = None
    /\ (Contact.firstName row, Contact.lastName row) = ("Ada", "Lovelace")
    /\ Js.prop (Contact.customFields row) "linkedinSkills" = JArr []
    /\ Js.prop (Contact.customFields row) "linkedinHeadline" = JUndefined.
Proof.
  destruct (createContact_stores "org-1" Sample.ada (Sample.world [] [] false) _
              eq_refl eq_refl)
    as (row & props & Hcs & _ & _ & Hn & He & Hp & _ & _ & _ & _ & _ & _ & Hcf & _ & Hget).
  exists row. split; [exact Hcs|]. split; [exact He|]. split; [exact Hp|].
  split; [exact Hn|]. rewrite Hcf. cbn [Js.prop]. rewrite !Hget. split; reflexivity.
Defined.

Lemma match_and_write_created_time (org : string) (conn : Connection.t) (w : World)
    (o : SyncResult.t) :
  faults w = [] ->
  fst (OutreachSyncController.match_and_write org conn w) = Ok o ->
  SyncResult.action o = created ->
  let w1 := snd (OutreachSyncController.match_and_write org conn w) in
  clock w1 = clock w /\ ticks w1 = S (ticks w).
Proof.
  intros Hf Ho Hact w1. subst w1.
  unfold OutreachSyncController.match_and_write, bind in *.
  destruct (findMatch_reads org conn w) as (m & Hm & Hreads).
  destruct (ContactMatcherService.findMatch org conn w) as [[m'|e] wf];
    simpl in Hm, Hreads; [injection Hm as ->|discriminate Hm].
  destruct Hreads as (_ & _ & Hcl & Htk & _ & Hfl & _).
  specialize (Hfl Hf).
  destruct (MatchResult.found m).
  - exfalso.
    destruct (mergeContact_effect m conn false wf)
      as (res & Hres & [(Ha & _)|(id & ex & c & _ & _ & _ & _ & Ha & _)]);
      rewrite Hres in Ho; injection Ho as <-; congruence.
  - destruct (createContact_no_fault org conn wf Hfl)
      as (_ & _ & _ & _ & Hc & Ht).
    split; congruence.
Qed.

(** X13.  An event delivered twice, without storage failures, the first
    delivery creating the contact.  The second delivery leaves the contact
    with its id, organization, names, email, phone, LinkedIn URL, lead
    columns and every custom field but the time of the sync.  Two columns
    can differ: the job title becomes the empty string where the record
    carries an empty one (it was NULL), and the profile image becomes the
    LinkedIn URL where the record has no photo. *)
Theorem redelivery_keeps_contact (w : World) (fmt : Zod.Formats)
    (this : OutreachSyncController.t) (rawPayload : JsVal) (payload : Payload.t)
    (r1 : SyncResult.t) :
  faults w = [] ->
  Zod.safeParse fmt rawPayload = Some payload ->
  fst (OutreachSyncController.handleConnectionAccepted fmt this rawPayload w) = Ok r1 ->
  SyncResult.action r1 = created ->
  let conn := Payload.connection payload in
  let w1 := snd (OutreachSyncController.handleConnectionAccepted fmt this rawPayload w) in
  let w2 := snd (OutreachSyncController.handleConnectionAccepted fmt this rawPayload w1) in
  exists row row',
    contacts w1 = (contacts w ++ [row])%list
    /\ contacts w2 = (contacts w ++ [row'])%list
    /\ Contact.id row' = Contact.id row
    /\ Contact.organizationId row' = Contact.organizationId row
    /\ Contact.firstName row' = Contact.firstName row
    /\ Contact.lastName row' = Contact.lastName row
    /\ Contact.email row' = Contact.email row
    /\ Contact.phone row' = Contact.phone row
    /\ Contact.linkedinUrl row' = Contact.linkedinUrl row
    /\ (Contact.isLead row', Contact.leadSource row', user_managed row')
       = (Contact.isLead row, Contact.leadSource row, user_managed row)
    /\ Contact.jobTitle row = non_empty (Connection.job_title conn)
    /\ Contact.jobTitle row' = Connection.job_title conn
    /\ Contact.profileImageUrl row = non_empty (Connection.profile_pic_url conn)
    /\ Contact.profileImageUrl row'
       = or_else (Connection.profile_pic_url conn) (Contact.linkedinUrl row)
    /\ (forall k, k <> "lastSyncedAt" ->
          Js.prop (Contact.customFields row') k = Js.prop (Contact.customFields row) k)
    /\ Js.prop (Contact.customFields row) "lastSyncedAt" = JStr (clock w (ticks w))
    /\ Js.prop (Contact.customFields row') "lastSyncedAt"
       = JStr (clock w (S (ticks w))).
Proof.
  intros Hf Hp Hr1 Hact conn w1 w2. subst w1 w2.
  destruct (OutreachSyncController.secret_refused this
              (SecretString (Payload.webhook_secret payload))) eqn:Hs;
    [unfold OutreachSyncController.handleConnectionAccepted in Hr1;
     rewrite Hp, Hs in Hr1; discriminate Hr1|].
  set (org := Payload.organization_id (Payload.source payload)).
  destruct (handleConnectionAccepted_run fmt this rawPayload w payload Hp Hs)
    as (o1 & Ho1 & Hrun1).
  fold org conn in Ho1, Hrun1.
  rewrite Hrun1 in Hr1. cbn [fst] in Hr1. injection Hr1 as ->.
  rewrite Hrun1. cbn [snd].
  destruct (match_and_write_created org conn w r1 Hf Ho1 Hact)
    as (Hnone & Hcs1 & Hid1 & Hf1 & _).
  destruct (match_and_write_created_time org conn w r1 Hf Ho1 Hact) as (Hcl1 & Htk1).
  set (t1 := clock w (ticks w)) in *.
  set (row := Prisma.new_row (Prisma.next_id (contacts w))
                (ContactMergerService.create_data org conn t1)) in *.
  destruct (created_row_facts org conn t1 (Prisma.next_id (contacts w)))
    as (Hrid & Horg & Hurn).
  fold row in Hrid, Horg, Hurn.
  set (wa := snd (OutreachSyncController.log_activity org r1 conn
                    (snd (OutreachSyncController.match_and_write org conn w)))).
  destruct (log_activity_frame org r1 conn
              (snd (OutreachSyncController.match_and_write org conn w)))
    as (Hca & Hfa & _ & Hcla & Htka).
  fold wa in Hca, Hfa, Hcla, Htka. specialize (Hfa Hf1). rewrite Hcs1 in Hca.
  destruct (handleConnectionAccepted_run fmt this rawPayload wa payload Hp Hs)
    as (o2 & Ho2 & Hrun2).
  fold org conn in Ho2, Hrun2. rewrite Hrun2. cbn [fst snd].
  assert (Hfresh : find (Prisma.has_id (Contact.id row)) (contacts w) = None)
    by (rewrite Hrid; apply next_id_fresh).
  destruct (match_and_write_existing org conn wa (contacts w) row
              Hfa Hca Hnone Hfresh Horg Hurn)
    as (o2' & Ho2' & _ & _ & _ & Hc2).
  destruct (log_activity_frame org o2 conn
              (snd (OutreachSyncController.match_and_write org conn wa)))
    as (Hcb & _).
  rewrite Hcla, Htka, Hcl1, Htk1 in Hc2.
  set (t2 := clock w (S (ticks w))) in *.
  exists row, (merged_row (ContactMatcherService.as_existing row) conn false t2 row).
  destruct (remerge_columns org conn t1 t2 (Prisma.next_id (contacts w)))
    as (C1 & C2 & C3 & C4 & C5 & C6).
  destruct (created_row_columns org conn t1 (Prisma.next_id (contacts w)))
    as (_ & _ & _ & Hj & _ & Hpic & _).
  fold row in C1, C2, C3, C4, C5, C6, Hj, Hpic.
  split; [exact Hca|]. split; [now rewrite Hcb, Hc2|].
  do 8 (split; [first [reflexivity | assumption]|]).
  split; [exact Hj|]. split; [exact C5|]. split; [exact Hpic|]. split; [exact C6|].
  split; [|split].
  - intros k Hk.
    now apply (remerge_customFields org conn t1 t2 (Prisma.next_id (contacts w)) k).
  - apply (remerge_customFields org conn t1 t2 (Prisma.next_id (contacts w)) "").
  - apply (remerge_customFields org conn t1 t2 (Prisma.next_id (contacts w)) "").
Qed.

Lemma redelivery_keeps_contact_witness :
  let this := OutreachSyncController.mk "s3cret" in
  let body := Sample.ada_request "s3cret" in
  let w := Sample.world [] [] false in
  let w1 :=
    snd (OutreachSyncController.handleConnectionAccepted Sample.any_format this body w) in
  let w2 :=
    snd (OutreachSyncController.handleConnectionAccepted Sample.any_format this body w1) in
  exists row row',
    contacts w1 = [row]
    /\ contacts w2 = [row']
    /\ Contact.email row' = Contact.email row
    /\ Contact.profileImageUrl row = None
    /\ Contact.profileImageUrl row' = Some "https://www.linkedin.com/in/ada"
    /\ Js.prop (Contact.customFields row') "linkedinUrnId"
       = Js.prop (Contact.customFields row) "linkedinUrnId".
Proof.
  intros this body w w1 w2.
  destruct (redelivery_keeps_contact w Sample.any_format this body Cases.ada_payload _
              eq_refl eq_refl eq_refl eq_refl)
    as (row & row' & H1 & H2 & _ & _ & _ & _ & He & _ & _ & _ & _ & _ & Hp & Hp' & Hk & _).
  exists row, row'. split; [exact H1|]. split; [exact H2|]. split; [exact He|].
  split; [exact Hp|]. split.
  - rewrite Hp'. vm_compute in H1. injection H1 as <-. reflexivity.
  - apply Hk. discriminate.
Defined.

(* ===================================================================== *)
(** * The activity log and the batch guards *)
(* ===================================================================== *)

(** The activity log is best effort. *)
Lemma createSyncActivity_best_effort (org : string) (contactId : ContactId)
    (action : Action) (conn : Connection.t) (w : World) :
  let run := ContactMergerService.createSyncActivity org contactId action conn w in
  fst run = Ok tt
  /\ contacts (snd run) = contacts w
  /\ calls_since w (snd run) = [(CreateActivity, hd None (faults w))]
  /\ (hd None (faults w) <> None -> activities (snd run) = activities w)
  /\ (hd None (faults w) = None ->
      exists a,
        activities (snd run) = (activities w ++ [a])%list
        /\ Activity.organizationId a = org
        /\ Activity.contactId a = contactId
        /\ Activity.type a = "NOTE"
        /\ Activity.title a
           = match action with
             | created => "Contact created from LinkedIn connection"
             | _ => "Contact updated from LinkedIn sync"
             end
        /\ Activity.description a
           = "LinkedIn connection accepted. Profile: " ++ Connection.name conn
        /\ Js.prop (Activity.customFields a) "source" = JStr "OUTREACH_SYNC"
        /\ Js.prop (Activity.customFields a) "connectionId" = JStr (Connection.id conn)).
Proof.
  intros run. subst run.
  unfold ContactMergerService.createSyncActivity, Prisma.activity_create.
  exec. destruct (hd None (faults w)) as [e|] eqn:Hf; exec.
  - split; [reflexivity|]. split; [reflexivity|]. split.
    + erewrite calls_since_app by reflexivity. now rewrite Hf.
    + split; [reflexivity|discriminate].
  - split; [reflexivity|]. split; [reflexivity|]. split.
    + erewrite calls_since_app by reflexivity. now rewrite Hf.
    + split; [intros H; now destruct H|]. intros _.
      eexists. split; [reflexivity|]. cbn. destruct action; repeat split.
Qed.

(** X14.  The activity log is best effort.  The answer of
    [handleConnectionAccepted] and the contacts it leaves are those of the
    match-and-write steps, whether the activity could be stored or not; no
    activity is logged for an unsuccessful outcome, and a successful one
    logs at most one activity, a NOTE of the contact. *)
Theorem sync_result_ignores_activity_log (fmt : Zod.Formats)
    (this : OutreachSyncController.t) (rawPayload : JsVal) (payload : Payload.t)
    (w : World) :
  Zod.safeParse fmt rawPayload = Some payload ->
  OutreachSyncController.secret_refused this
    (SecretString (Payload.webhook_secret payload)) = false ->
  let org := Payload.organization_id (Payload.source payload) in
  let conn := Payload.connection payload in
  let written := OutreachSyncController.match_and_write org conn w in
  let run := OutreachSyncController.handleConnectionAccepted fmt this rawPayload w in
  fst run = fst written
  /\ contacts (snd run) = contacts (snd written)
  /\ exists res,
       fst run = Ok res
       /\ ((SyncResult.success res = false \/ SyncResult.contact_id res = None) ->
           snd run = snd written)
       /\ (forall id,
              SyncResult.success res = true -> SyncResult.contact_id res = Some id ->
              (hd None (faults (snd written)) <> None ->
               activities (snd run) = activities (snd written))
              /\ (hd None (faults (snd written)) = None ->
                  exists a,
                    activities (snd run) = (activities (snd written) ++ [a])%list
                    /\ Activity.organizationId a = org
                    /\ Activity.contactId a = id
                    /\ Activity.type a = "NOTE")).
Proof.
  intros Hp Hs org conn written run. subst written run.
  destruct (handleConnectionAccepted_run fmt this rawPayload w payload Hp Hs)
    as (o & Ho & Hrun).
  fold org conn in Ho, Hrun. rewrite Hrun, Ho. cbn [fst snd].
  split; [reflexivity|]. split.
  { now destruct (log_activity_frame org o conn
                    (snd (OutreachSyncController.match_and_write org conn w)))
      as (-> & _). }
  exists o. split; [reflexivity|].
  unfold OutreachSyncController.log_activity. split.
  - intros [H|H]; rewrite H; [destruct (SyncResult.contact_id o)|]; reflexivity.
  - intros id H1 H2. rewrite H1, H2.
    destruct (createSyncActivity_best_effort org id (SyncResult.action o) conn
                (snd (OutreachSyncController.match_and_write org conn w)))
      as (_ & _ & _ & Hfail & Hok).
    split; [exact Hfail|]. intros Hnone.
    destruct (Hok Hnone) as (a & Ha & Ho' & Hi & Ht & _).
    exists a. repeat split; assumption.
Qed.

Lemma sync_result_ignores_activity_log_witness :
  let w := Sample.world [] [None; None; None; None; Some Cases.outage] false in
  let run :=
    OutreachSyncController.handleConnectionAccepted Sample.any_format
      (OutreachSyncController.mk "s3cret") (Sample.ada_request "s3cret") w in
  fst run
  = fst (OutreachSyncController.match_and_write "org-1" Sample.ada w)
  /\ (exists res, fst run = Ok res /\ SyncResult.action res = created)
  /\ List.length (contacts (snd run)) = 1
  /\ activities (snd run) = [].
Proof.
  intros w run.
  destruct (sync_result_ignores_activity_log Sample.any_format
              (OutreachSyncController.mk "s3cret") (Sample.ada_request "s3cret")
              Cases.ada_payload w eq_refl eq_refl) as (H1 & _).
  split; [exact H1|]. split; [|split; reflexivity].
  eexists. split; reflexivity.
Defined.

(** X15.  The guards of [handleBatchSync], in their order: a refused
    secret is answered with [UnauthorizedException] even when the body has
    no list of connections; then a missing list with
    [BadRequestException]; an empty list gives the empty summary.  The
    handler throws nothing else, and when it throws nothing has run. *)
Theorem handleBatchSync_guards (this : OutreachSyncController.t) (body : BatchBody.t)
    (w : World) :
  let run := OutreachSyncController.handleBatchSync this body w in
  let refused :=
    OutreachSyncController.secret_refused this (BatchBody.webhook_secret body) in
  (refused = true ->
   run = (Throw (UnauthorizedException "Invalid webhook secret"), w))
  /\ (refused = false -> BatchBody.connections body = None ->
      run = (Throw (BadRequestException "Invalid batch payload"), w))
  /\ (refused = false -> BatchBody.connections body = Some [] ->
      run = (Ok (BatchResult.mk 0 0 0 0 []), w))
  /\ (forall e, fst run = Throw e ->
        snd run = w
        /\ (e = UnauthorizedException "Invalid webhook secret"
            \/ e = BadRequestException "Invalid batch payload")).
Proof.
  intros run refused. subst run refused.
  unfold OutreachSyncController.handleBatchSync.
  destruct (OutreachSyncController.secret_refused this (BatchBody.webhook_secret body)).
  { split; [reflexivity|]. split; [discriminate|]. split; [discriminate|].
    intros e [= <-]. split; [reflexivity|now left]. }
  destruct (BatchBody.connections body) as [conns|].
  2: { split; [discriminate|]. split; [reflexivity|]. split; [discriminate|].
       intros e [= <-]. split; [reflexivity|now right]. }
  split; [discriminate|]. split; [discriminate|]. split.
  - intros _ [= ->]. reflexivity.
  - intros err. unfold bind.
    destruct (batch_loop_total (BatchBody.organization_id body) conns
                (OutreachSyncController.mkTally [] 0 0 0) w) as (acc & _ & Hrun & _).
    destruct (OutreachSyncController.batch_loop _ conns _ w) as [[acc'|e'] w'];
      simpl in Hrun; [discriminate|discriminate Hrun].
Qed.

(** X16.  A batch of one record is the single event: same outcome, same
    world afterwards, and the counter of the outcome's action is 1. *)
Theorem batch_of_one_is_single_event (fmt : Zod.Formats)
    (this : OutreachSyncController.t) (rawPayload : JsVal) (payload : Payload.t)
    (w : World) :
  Zod.safeParse fmt rawPayload = Some payload ->
  OutreachSyncController.secret_refused this
    (SecretString (Payload.webhook_secret payload)) = false ->
  let single := OutreachSyncController.handleConnectionAccepted fmt this rawPayload w in
  let batch :=
    OutreachSyncController.handleBatchSync this
      (BatchBody.mk (SecretString (Payload.webhook_secret payload))
         (Payload.organization_id (Payload.source payload))
         (Some [Payload.connection payload])) w in
  exists res,
    fst single = Ok res
    /\ fst batch
       = Ok (BatchResult.mk 1 (count_action created [res]) (count_action updated [res])
               (count_action skipped [res]) [res])
    /\ snd batch = snd single.
Proof.
  intros Hp Hs single batch. subst single batch.
  destruct (handleConnectionAccepted_run fmt this rawPayload w payload Hp Hs)
    as (o & Ho & Hrun).
  rewrite Hrun. exists o. split; [reflexivity|].
  unfold OutreachSyncController.handleBatchSync.
  cbn [BatchBody.webhook_secret BatchBody.connections BatchBody.organization_id].
  rewrite Hs. cbn [OutreachSyncController.batch_loop]. unfold bind, ret.
  destruct (batch_item_run (Payload.organization_id (Payload.source payload))
              (Payload.connection payload) (OutreachSyncController.mkTally [] 0 0 0) w)
    as (o' & Ho' & ->).
  rewrite Ho in Ho'. injection Ho' as <-.
  cbn [fst snd]. split; [|reflexivity].
  unfold OutreachSyncController.push_result, count_action, has_action.
  cbn [filter]. destruct (SyncResult.action o); reflexivity.
Qed.

Lemma batch_of_one_is_single_event_witness :
  let w := Sample.world [Sample.grace] [] false in
  exists res,
    fst (OutreachSyncController.handleConnectionAccepted Sample.any_format
           (OutreachSyncController.mk "s3cret") (Sample.ada_request "s3cret") w)
    = Ok res
    /\ fst (OutreachSyncController.handleBatchSync (OutreachSyncController.mk "s3cret")
              (BatchBody.mk (SecretString "s3cret") "org-1" (Some [Sample.ada])) w)
       = Ok (BatchResult.mk 1 0 1 0 [res]).
Proof.
  intros w.
  destruct (batch_of_one_is_single_event Sample.any_format
              (OutreachSyncController.mk "s3cret") (Sample.ada_request "s3cret")
              Cases.ada_payload w eq_refl eq_refl) as (res & Hs & Hb & _).
  exists res. split; [exact Hs|].
  cbn [Cases.ada_payload Payload.webhook_secret Payload.organization_id Payload.source
       Payload.connection] in Hb.
  rewrite Hb. vm_compute in Hs. injection Hs as <-. reflexivity.
Defined.

(* ===================================================================== *)
(** * What the payload schema accepts *)
(* ===================================================================== *)

Module ZodFacts.
Import Zod.

Lemma string_spec (format : string -> bool) (v : JsVal) (s : string) :
  string_ format v = Some s <-> v = JStr s /\ format s = true.
Proof.
  unfold string_. destruct v; try (split; [discriminate|intros [H _]; discriminate H]).
  destruct (format s0) eqn:E.
  - split; [intros [= <-]; auto|intros [[= <-] _]; reflexivity].
  - split; [discriminate|intros [[= <-] H]; congruence].
Qed.

Lemma optional_string_spec (format : string -> bool) (v : JsVal) (r : option string) :
  optional (string_ format) v = Some r
  <-> v = Js.of_optional r /\ (forall s, r = Some s -> format s = true).
Proof.
  unfold optional, string_.
  destruct v as [| |b|n|s|items|props];
    try (split; [discriminate|intros [H _]; destruct r; discriminate H]).
  - split.
    + intros [= <-]. split; [reflexivity|discriminate].
    + intros [H _]. destruct r; [discriminate H|reflexivity].
  - destruct (format s) eqn:E; split.
    + intros [= <-]. split; [reflexivity|]. now intros s' [= <-].
    + intros [H _]. destruct r as [s'|]; [|discriminate H]. now injection H as <-.
    + discriminate.
    + intros [H Hf]. destruct r as [s'|]; [|discriminate H]. injection H as <-.
      specialize (Hf s eq_refl). congruence.
Qed.

Lemma strings_spec (items : list JsVal) (l : list string) :
  strings items = Some l <-> items = map JStr l.
Proof.
  revert l. induction items as [|x r IH]; intros l; simpl.
  - split; [intros [= <-]; reflexivity|]. destruct l; [reflexivity|discriminate].
  - destruct x; try (split; [discriminate|destruct l; discriminate]).
    destruct (strings r) as [l'|] eqn:E.
    + split.
      * intros [= <-]. simpl. f_equal. now apply IH.
      * destruct l as [|y l]; [discriminate|]. simpl. intros [= <- Hr].
        apply IH in Hr. now injection Hr as <-.
    + split; [discriminate|]. destruct l as [|y l]; [discriminate|].
      simpl. intros [= <- Hr]. apply IH in Hr. discriminate Hr.
Qed.

Lemma optional_strings_spec (v : JsVal) (r : option (list string)) :
  optional array_of_strings v = Some r <-> v = of_optional_strings r.
Proof.
  unfold optional, array_of_strings, of_optional_strings, Js.of_strings.
  destruct v; try (split; [discriminate|destruct r; discriminate]).
  - split; [intros [= <-]; reflexivity|]. destruct r; [discriminate|reflexivity].
  - destruct (strings items) as [l|] eqn:E.
    + apply strings_spec in E. subst items. split.
      * intros [= <-]. reflexivity.
      * destruct r as [l'|]; [|discriminate]. intros [= H].
        assert (Hl : strings (map JStr l) = Some l') by (apply strings_spec; exact H).
        assert (Hl' : strings (map JStr l) = Some l) by (now apply strings_spec).
        congruence.
    + split; [discriminate|]. destruct r as [l'|]; [|discriminate]. intros [= H].
      assert (Hl : strings items = Some l') by (apply strings_spec; exact H).
      congruence.
Qed.

End ZodFacts.

Ltac zod_steps H :=
  repeat match type of H with
         | Zod.andThen ?x _ = Some _ =>
             let E := fresh "E" in
             destruct x eqn:E; [cbn [Zod.andThen] in H|discriminate H]
         end.

Ltac zod_facts :=
  repeat match goal with
         | E : Zod.string_ _ _ = Some _ |- _ =>
             apply ZodFacts.string_spec in E; destruct E
         | E : Zod.literal _ _ = Some _ |- _ =>
             unfold Zod.literal in E
         | E : Zod.optional (Zod.string_ _) _ = Some _ |- _ =>
             apply ZodFacts.optional_string_spec in E; destruct E
         | E : Zod.optional Zod.array_of_strings _ = Some _ |- _ =>
             apply ZodFacts.optional_strings_spec in E
         | E : Zod.object ?v = Some _ |- _ =>
             let Ev := fresh "Ev" in
             destruct v eqn:Ev; try discriminate E; injection E as E; subst
         end.

(** X17.  What a handler may rely on after validation: the body is an
    object that holds, under each key of the schema, exactly the value the
    parsed payload carries (an absent optional field is [undefined] in the
    body, never [null]), the event type is the literal, and the strings
    have the formats the schema asks for. *)
Theorem safeParse_sound (fmt : Zod.Formats) (rawPayload : JsVal) (payload : Payload.t) :
  Zod.safeParse fmt rawPayload = Some payload ->
  well_formatted fmt payload
  /\ exists body src conn,
       rawPayload = JObj body
       /\ Js.get body "source" = JObj src
       /\ Js.get body "connection" = JObj conn
       /\ agree_on ["webhook_secret"; "event_type"; "timestamp"] body (payload_body payload)
       /\ agree_on (map fst (source_body (Payload.source payload)))
            src (source_body (Payload.source payload))
       /\ agree_on (map fst (connection_body (Payload.connection payload)))
            conn (connection_body (Payload.connection payload)).
Proof.
  unfold Zod.safeParse. intros H. zod_steps H. injection H as <-.
  unfold Zod.source in E3. zod_steps E3. injection E3 as <-.
  unfold Zod.connection in E4. zod_steps E4. injection E4 as <-.
  zod_facts. subst.
  repeat match goal with
         | H : String.eqb _ _ = true |- _ => apply String.eqb_eq in H; subst
         end.
  split.
  - unfold well_formatted. cbn. repeat split; auto.
  - do 3 eexists. split; [reflexivity|]. split; [eassumption|]. split; [eassumption|].
    unfold agree_on. cbn.
    repeat split; repeat constructor; cbn; congruence.
Qed.

Lemma safeParse_sound_witness :
  Zod.safeParse Sample.any_format (Sample.ada_request "s3cret") = Some Cases.ada_payload
  /\ well_formatted Sample.any_format Cases.ada_payload.
Proof.
  split; [reflexivity|].
  exact (proj1 (safeParse_sound Sample.any_format (Sample.ada_request "s3cret")
                  Cases.ada_payload eq_refl)).
Defined.

Lemma string_ok (format : string -> bool) (s : string) :
  format s = true -> Zod.string_ format (JStr s) = Some s.
Proof. intros H. apply ZodFacts.string_spec. auto. Qed.

Lemma optional_ok (format : string -> bool) (r : option string) :
  (forall s, r = Some s -> format s = true) ->
  Zod.optional (Zod.string_ format) (Js.of_optional r) = Some r.
Proof. intros H. apply ZodFacts.optional_string_spec. auto. Qed.

Lemma optional_strings_ok (r : option (list string)) :
  Zod.optional Zod.array_of_strings (of_optional_strings r) = Some r.
Proof. now apply ZodFacts.optional_strings_spec. Qed.

(** X18.  The converse of X17: a body that holds the fields of a well
    formatted payload is accepted and parses to that payload, whatever
    other keys it has. *)
Theorem safeParse_accepts (fmt : Zod.Formats) (payload : Payload.t)
    (body src conn : Js.Obj) :
  well_formatted fmt payload ->
  Js.get body "source" = JObj src ->
  Js.get body "connection" = JObj conn ->
  agree_on ["webhook_secret"; "event_type"; "timestamp"] body (payload_body payload) ->
  agree_on (map fst (source_body (Payload.source payload)))
    src (source_body (Payload.source payload)) ->
  agree_on (map fst (connection_body (Payload.connection payload)))
    conn (connection_body (Payload.connection payload)) ->
  Zod.safeParse fmt (JObj body) = Some payload.
Proof.
  destruct payload as [ws et ts [oid wid iid cid] c].
  destruct c as [id urn pid name fn ln hl url pic co jt loc ind em ph con sk la we ed].
  unfold well_formatted, agree_on.
  cbn [Payload.event_type Payload.timestamp Payload.source Payload.connection
       Payload.webhook_secret Payload.organization_id Payload.workspace_id
       Payload.integration_id Payload.campaign_id Connection.id
       Connection.connected_on Connection.email map fst source_body connection_body
       payload_body].
  intros (-> & Hts & Ho & Hw & Hi & Hc & Hid & Hcon & Hem) Hsrc Hconn Hb Hs Hcn.
  repeat match goal with
         | H : Forall _ (_ :: _) |- _ => inversion H; subst; clear H
         | H : Forall _ [] |- _ => clear H
         end.
  unfold connection_body, source_body, payload_body in *.
  cbn [Js.get String.eqb Ascii.eqb Bool.eqb Payload.event_type Payload.timestamp
       Payload.source Payload.connection Payload.webhook_secret
       Payload.organization_id Payload.workspace_id Payload.integration_id
       Payload.campaign_id Connection.id Connection.urn_id Connection.public_id
       Connection.name Connection.first_name Connection.last_name
       Connection.headline Connection.profile_url Connection.profile_pic_url
       Connection.company Connection.job_title Connection.location
       Connection.industry Connection.email Connection.phone
       Connection.connected_on Connection.skills Connection.languages
       Connection.work_experience Connection.education] in *.
  unfold Zod.safeParse, Zod.source, Zod.connection, Zod.literal.
  cbn [Zod.object Zod.andThen].
  repeat (first [ match goal with H : Js.get _ _ = _ |- _ => rewrite H end
                | rewrite optional_strings_ok
                | rewrite string_ok by (auto; reflexivity)
                | rewrite optional_ok by (auto; reflexivity) ];
          cbn [Zod.object Zod.andThen]).
  reflexivity.
Qed.

Lemma safeParse_accepts_witness :
  well_formatted Sample.any_format Cases.ada_payload
  /\ Zod.safeParse Sample.any_format (JObj (payload_body Cases.ada_payload))
     = Some Cases.ada_payload.
Proof.
  assert (Hw : well_formatted Sample.any_format Cases.ada_payload).
  { unfold well_formatted. repeat split; reflexivity. }
  split; [exact Hw|].
  apply (safeParse_accepts Sample.any_format Cases.ada_payload
           (payload_body Cases.ada_payload)
           (source_body (Payload.source Cases.ada_payload))
           (connection_body (Payload.connection Cases.ada_payload)) Hw);
    try reflexivity; unfold agree_on; repeat constructor.
Defined.

(* ===================================================================== *)
(** * Tenant login and token refresh *)
(* ===================================================================== *)

Lemma object1_min1_spec (key message : string) (body : JsVal) :
  message <> EmptyString ->
  match AuthSchemas.object1 key (AuthSchemas.string_min1 message) body with
  | inl s => holds_string body key s
  | inr m => m <> EmptyString /\ forall s, ~ holds_string body key s
  end.
Proof.
  intros Hm. unfold AuthSchemas.object1, AuthSchemas.string_min1, holds_string.
  destruct body as [| |b|n|s|items|o];
    try (split; [discriminate|intros s' (o & H & _); discriminate H]).
  destruct (Js.get o key) as [| |b|n|s|items|o'] eqn:E;
    try (split; [discriminate|intros s' (o1 & [= <-] & H & _); congruence]).
  destruct s as [|c s]; cbn [JsString.truthy].
  - split; [exact Hm|]. intros s' (o1 & [= <-] & H & Hne). congruence.
  - exists o. repeat split; [exact E|discriminate].
Qed.

(** X19.  [POST auth/tenant-login] end to end.  A body that is no object
    with a non-empty string [tenantId] is a bad request that carries the
    schema's message (the fallback message is never used).  With no
    secret configured the service has warned at start and every login is
    unauthorized.  With a secret (the configuration wins over the
    environment) the answer carries the two tokens the library signs, for
    7 and 30 days, and the user [crm-user-<tenantId>]. *)
Theorem tenantLogin_outcomes (lib : Jwt.Lib) (config_secret env_secret : option string)
    (body : JsVal) :
  let authService := fst (AuthService.constructor config_secret env_secret) in
  let warnings := snd (AuthService.constructor config_secret env_secret) in
  let run := AuthController.tenantLogin lib authService body in
  ((forall tenantId, ~ holds_string body "tenantId" tenantId) ->
   exists message,
     AuthSchemas.TenantLoginSchema body = inr message
     /\ run = Throw (BadRequestException message)
     /\ message <> "Invalid request")
  /\ (forall tenantId,
        holds_string body "tenantId" tenantId ->
        JsString.truthy_opt config_secret = false ->
        JsString.truthy_opt env_secret = false ->
        warnings = [AuthService.not_configured_warning]
        /\ run = Throw (UnauthorizedException "Authentication not configured"))
  /\ (forall tenantId secret accessToken refreshToken,
        holds_string body "tenantId" tenantId ->
        secret <> EmptyString ->
        config_secret = Some secret
        \/ (JsString.truthy_opt config_secret = false /\ env_secret = Some secret) ->
        Jwt.sign lib
          [ ("sub", JStr ("crm-user-" ++ tenantId)); ("tenant_id", JStr tenantId);
            ("type", JStr "access") ] secret "7d" = Ok accessToken ->
        Jwt.sign lib
          [ ("sub", JStr ("crm-user-" ++ tenantId)); ("tenant_id", JStr tenantId);
            ("type", JStr "refresh") ] secret "30d" = Ok refreshToken ->
        warnings = []
        /\ run = Ok (TenantLoginResponse.mk accessToken refreshToken
                       (TenantLoginResponse.mkUser ("crm-user-" ++ tenantId) tenantId
                          None))).
Proof.
  intros authService warnings run. subst authService warnings run.
  unfold AuthController.tenantLogin, AuthSchemas.TenantLoginSchema.
  pose proof (object1_min1_spec "tenantId" "Tenant ID is required" body) as Hspec.
  destruct (AuthSchemas.object1 "tenantId"
              (AuthSchemas.string_min1 "Tenant ID is required") body) as [t|m] eqn:E.
  - specialize (Hspec ltac:(discriminate)).
    assert (Hsame : forall t', holds_string body "tenantId" t' -> t' = t).
    { intros t' (o & -> & Hg & _). destruct Hspec as (o' & [= <-] & Hg' & _). congruence. }
    assert (Ht : JsString.truthy t = true).
    { destruct Hspec as (_ & _ & _ & Hne). destruct t; [now destruct Hne|reflexivity]. }
    split; [|split].
    + intros Hno. now destruct (Hno t).
    + intros t' Hh Hc He. apply Hsame in Hh. subst t'.
      unfold AuthService.constructor, AuthService.tenantLogin.
      rewrite Hc, He, Ht. split; reflexivity.
    + intros t' secret a r Hh Hne Hsec Ha Hr. apply Hsame in Hh. subst t'.
      assert (Hs : JsString.truthy secret = true)
        by (destruct secret; [now destruct Hne|reflexivity]).
      unfold AuthService.constructor, AuthService.tenantLogin,
        AuthService.generateToken.
      destruct Hsec as [->|[Hc ->]]; cbn [JsString.truthy_opt]; rewrite ?Hc, Hs;
        cbn [fst snd negb AuthService.jwtSecret JsString.truthy_opt]; rewrite Ht, ?Hs;
        cbn [negb]; unfold AuthService.accessTokenExpiry, AuthService.refreshTokenExpiry;
        rewrite Ha, Hr; split; reflexivity.
  - specialize (Hspec ltac:(discriminate)). destruct Hspec as [Hne Hno].
    split; [|split].
    + intros _. exists m. split; [reflexivity|]. split.
      * unfold AuthController.first_message.
        destruct m; [now destruct Hne|reflexivity].
      * revert E. unfold AuthSchemas.object1, AuthSchemas.string_min1,
          AuthSchemas.invalid_type.
        destruct body as [| |b|n|s|items|o]; try (intros [= <-]; discriminate).
        destruct (Js.get o "tenantId") as [| |b|n|s|items|o'];
          try (intros [= <-]; discriminate).
        destruct (JsString.truthy s); intros [= <-]; discriminate.
    + intros t Hh. now destruct (Hno t).
    + intros t secret a r Hh. now destruct (Hno t).
Qed.

Lemma tenantLogin_outcomes_witness :
  AuthController.tenantLogin Cases.toy_jwt
    (fst (AuthService.constructor None (Some "k3y"))) (JObj [("tenantId", JStr "acme")])
  = Ok (TenantLoginResponse.mk "7d:k3y" "30d:k3y"
          (TenantLoginResponse.mkUser "crm-user-acme" "acme" None))
  /\ AuthController.tenantLogin Cases.toy_jwt
       (fst (AuthService.constructor None None)) (JObj [("tenantId", JStr "acme")])
     = Throw (UnauthorizedException "Authentication not configured")
  /\ exists message,
       AuthController.tenantLogin Cases.toy_jwt
         (fst (AuthService.constructor None (Some "k3y"))) (JObj [("tenantId", JStr "")])
       = Throw (BadRequestException message).
Proof.
  split; [|split].
  - apply (proj2 (proj2 (tenantLogin_outcomes Cases.toy_jwt None (Some "k3y")
                           (JObj [("tenantId", JStr "acme")])))
             "acme" "k3y" "7d:k3y" "30d:k3y");
      try reflexivity; try discriminate.
    + exists [("tenantId", JStr "acme")]. repeat split. discriminate.
    + right. split; reflexivity.
  - apply (proj1 (proj2 (tenantLogin_outcomes Cases.toy_jwt None None
                           (JObj [("tenantId", JStr "acme")]))) "acme");
      try reflexivity.
    exists [("tenantId", JStr "acme")]. repeat split. discriminate.
  - destruct (proj1 (tenantLogin_outcomes Cases.toy_jwt None (Some "k3y")
                       (JObj [("tenantId", JStr "")]))) as (m & _ & Hm & _).
    + intros t (o & [= <-] & Hg & Hne). simpl in Hg. injection Hg as <-.
      now destruct Hne.
    + now exists m.
Defined.

(** The outcomes of [refreshAccessToken]. *)
Lemma refreshAccessToken_outcomes (lib : Jwt.Lib) (this : AuthService.t)
    (token : string) :
  let run := AuthService.refreshAccessToken lib this token in
  (forall e, Jwt.verify lib token (AuthService.jwtSecret this) = Throw e ->
             run = Throw (UnauthorizedException "Invalid or expired token"))
  /\ (forall payload,
        Jwt.verify lib token (AuthService.jwtSecret this) = Ok payload ->
        Js.prop payload "type" <> JStr "refresh" ->
        run = Throw (UnauthorizedException "Invalid refresh token"))
  /\ (forall payload,
        Jwt.verify lib token (AuthService.jwtSecret this) = Ok payload ->
        Js.prop payload "type" = JStr "refresh" ->
        run
        = match
            Jwt.sign lib
              [ ("sub", Js.prop payload "sub");
                ("tenant_id", Js.prop payload "tenant_id");
                ("team_id", Js.prop payload "team_id");
                ("type", JStr "access") ] (AuthService.jwtSecret this) "7d"
          with
          | Ok accessToken => Ok (RefreshResponse.mk accessToken)
          | Throw e => Throw e
          end)
  /\ (forall response, run = Ok response ->
        exists payload,
          Jwt.verify lib token (AuthService.jwtSecret this) = Ok payload
          /\ Js.prop payload "type" = JStr "refresh").
Proof.
  intros run. subst run.
  unfold AuthService.refreshAccessToken, AuthService.verifyToken,
    AuthService.not_refresh, AuthService.generateToken,
    AuthService.accessTokenExpiry.
  destruct (Jwt.verify lib token (AuthService.jwtSecret this)) as [p|e].
  2: { repeat split; try discriminate. }
  split; [discriminate|].
  destruct (Js.prop p "type") as [| |b|n|s|items|o] eqn:Et;
    try (split; [intros p' [= <-] _; reflexivity|];
         split; [intros p' [= <-] H; congruence|discriminate]).
  destruct (String.eqb s "refresh") eqn:Es; cbn [negb].
  - apply String.eqb_eq in Es. subst s.
    split; [intros p' [= <-] H; now rewrite Et in H|].
    split; [intros p' [= <-] _; now destruct (Jwt.sign lib _ _ _)|].
    intros response _. now exists p.
  - split; [intros p' [= <-] _; reflexivity|].
    split; [|discriminate].
    intros p' [= <-] H. rewrite Et in H. injection H as ->.
    now rewrite String.eqb_refl in Es.
Qed.

(** X20.  [POST auth/refresh] end to end.  A body that is no object with a
    non-empty string [refreshToken] is a bad request with the schema's
    message.  Whatever the library throws on verification becomes
    "Invalid or expired token"; a verified payload whose type is not
    [refresh] is refused; otherwise a 7-day access token is signed for the
    subject, tenant and team of the payload.  A success always stems from
    a verified refresh token. *)
Theorem refreshToken_outcomes (lib : Jwt.Lib) (authService : AuthService.t)
    (body : JsVal) :
  let run := AuthController.refreshToken lib authService body in
  let secret := AuthService.jwtSecret authService in
  ((forall token, ~ holds_string body "refreshToken" token) ->
   exists message,
     AuthSchemas.RefreshTokenSchema body = inr message
     /\ run = Throw (BadRequestException message)
     /\ message <> "Invalid request")
  /\ (forall token,
        holds_string body "refreshToken" token ->
        (forall e, Jwt.verify lib token secret = Throw e ->
                   run = Throw (UnauthorizedException "Invalid or expired token"))
        /\ (forall payload,
              Jwt.verify lib token secret = Ok payload ->
              Js.prop payload "type" <> JStr "refresh" ->
              run = Throw (UnauthorizedException "Invalid refresh token"))
        /\ (forall payload,
              Jwt.verify lib token secret = Ok payload ->
              Js.prop payload "type" = JStr "refresh" ->
              run
              = match
                  Jwt.sign lib
                    [ ("sub", Js.prop payload "sub");
                      ("tenant_id", Js.prop payload "tenant_id");
                      ("team_id", Js.prop payload "team_id");
                      ("type", JStr "access") ] secret "7d"
                with
                | Ok accessToken => Ok (RefreshResponse.mk accessToken)
                | Throw e => Throw e
                end))
  /\ (forall response,
        run = Ok response ->
        exists token payload,
          holds_string body "refreshToken" token
          /\ Jwt.verify lib token secret = Ok payload
          /\ Js.prop payload "type" = JStr "refresh").
Proof.
  intros run secret. subst run secret.
  unfold AuthController.refreshToken, AuthSchemas.RefreshTokenSchema.
  pose proof (object1_min1_spec "refreshToken" "Refresh token is required" body) as Hspec.
  destruct (AuthSchemas.object1 "refreshToken"
              (AuthSchemas.string_min1 "Refresh token is required") body)
    as [t|m] eqn:E.
  - specialize (Hspec ltac:(discriminate)).
    assert (Hsame : forall t', holds_string body "refreshToken" t' -> t' = t).
    { intros t' (o & -> & Hg & _). destruct Hspec as (o' & [= <-] & Hg' & _). congruence. }
    destruct (refreshAccessToken_outcomes lib authService t) as (H1 & H2 & H3 & H4).
    split; [|split].
    + intros Hno. now destruct (Hno t).
    + intros t' Hh. apply Hsame in Hh. subst t'. repeat split; assumption.
    + intros response Hrun. destruct (H4 response Hrun) as (p & Hv & Ht).
      now exists t, p.
  - specialize (Hspec ltac:(discriminate)). destruct Hspec as [Hne Hno].
    split; [|split].
    + intros _. exists m. split; [reflexivity|]. split.
      * unfold AuthController.first_message.
        destruct m; [now destruct Hne|reflexivity].
      * revert E. unfold AuthSchemas.object1, AuthSchemas.string_min1,
          AuthSchemas.invalid_type.
        destruct body as [| |b|n|s|items|o]; try (intros [= <-]; discriminate).
        destruct (Js.get o "refreshToken") as [| |b|n|s|items|o'];
          try (intros [= <-]; discriminate).
        destruct (JsString.truthy s); intros [= <-]; discriminate.
    + intros t Hh. now destruct (Hno t).
    + discriminate.
Qed.

Lemma refreshToken_outcomes_witness :
  AuthController.refreshToken Cases.toy_jwt (AuthService.mk "k3y")
    (JObj [("refreshToken", JStr "r-acme")])
  = Ok (RefreshResponse.mk "7d:k3y")
  /\ AuthController.refreshToken Cases.toy_jwt (AuthService.mk "k3y")
       (JObj [("refreshToken", JStr "a-acme")])
     = Throw (UnauthorizedException "Invalid refresh token")
  /\ AuthController.refreshToken Cases.toy_jwt (AuthService.mk "k3y")
       (JObj [("refreshToken", JStr "junk")])
     = Throw (UnauthorizedException "Invalid or expired token").
Proof.
  split; [|split].
  - destruct (proj1 (proj2 (refreshToken_outcomes Cases.toy_jwt (AuthService.mk "k3y")
                              (JObj [("refreshToken", JStr "r-acme")]))) "r-acme")
      as (_ & _ & H).
    + exists [("refreshToken", JStr "r-acme")]. repeat split. discriminate.
    + exact (H _ eq_refl eq_refl).
  - destruct (proj1 (proj2 (refreshToken_outcomes Cases.toy_jwt (AuthService.mk "k3y")
                              (JObj [("refreshToken", JStr "a-acme")]))) "a-acme")
      as (_ & H & _).
    + exists [("refreshToken", JStr "a-acme")]. repeat split. discriminate.
    + apply (H _ eq_refl). discriminate.
  - destruct (proj1 (proj2 (refreshToken_outcomes Cases.toy_jwt (AuthService.mk "k3y")
                              (JObj [("refreshToken", JStr "junk")]))) "junk")
      as (H & _).
    + exists [("refreshToken", JStr "junk")]. repeat split. discriminate.
    + exact (H _ eq_refl).
Defined.
